(** * Bauhaus pattern generation core: a shallow embedding

    The TypeScript sources compute with JavaScript numbers (IEEE doubles).
    This development reads every such number as a real number: [+], [-],
    [*], [/], [Math.sqrt], [Math.cos], [Math.sin] and [Math.PI] are the
    operations of [R], so rounding error is abstracted away and every
    statement below is a statement about the exact arithmetic the code
    writes down.  Counts and indices ([ringCount], [cutCount], loop
    variables, array positions) are whole numbers and are modelled in [Z].

    Where the code divides by a number that can be 0 (a cut width by a
    radius of 0, a side of length 0) JavaScript yields an infinity or NaN,
    and so does [Math.exp] past its range.  Such values are outside the
    reals: the model follows the code wherever every divisor met is
    non-zero and no result overflows, and the definitions that divide
    say so.

    Rounding is not abstracted away everywhere: module [Doubles] repeats
    a few purely arithmetic functions over binary64 numbers, and the
    section on doubles below evaluates them where the running code
    departs from exact arithmetic.

    A path string is modelled by the sequence of its space-separated
    commands; each constructor of [command] documents the template string
    it stands for.  The empty string is the empty sequence.  A function
    that throws returns [None]. *)

From Stdlib Require Import Reals Lra Lia ZArith List Bool.
From Stdlib Require PrimFloat.
Import ListNotations.
Local Open Scope R_scope.

(** ** JavaScript primitives used by the sources *)

Module JS.

(** [Math.floor], [Math.ceil] and [Math.round] (halves round up). *)
Definition Math_floor (v : R) : Z := Int_part v.
Definition Math_ceil (v : R) : Z := (- Int_part (- v))%Z.
Definition Math_round (v : R) : Z := Int_part (v + / 2).

(** [Math.pow] at a whole exponent. *)
Definition Math_pow (b : R) (e : Z) : R := powerRZ b e.

(** [a || d] where [a] is an optional number: [undefined] and [0] are
    falsy, every other number is kept. *)
Definition or_default (a : option R) (d : R) : R :=
  match a with
  | None => d
  | Some v => if Req_dec_T v 0 then d else v
  end.

(** [{...defaults, ...given}] on one field. *)
Definition spread {A : Type} (dflt : A) (given : option A) : A :=
  match given with
  | Some v => v
  | None => dflt
  end.

(** The values taken by [i] in [for (let i = lo; i < hi; i++)]. *)
Definition range (lo hi : Z) : list Z :=
  map (fun k => (lo + Z.of_nat k)%Z) (seq 0 (Z.to_nat (hi - lo))).

(** [xs.map((v, index) => f(v, index))], indices counted from [k]. *)
Fixpoint mapi_from {A B : Type} (f : A -> Z -> B) (k : Z) (xs : list A) : list B :=
  match xs with
  | [] => []
  | v :: rest => f v k :: mapi_from f (k + 1)%Z rest
  end.

Definition mapi {A B : Type} (f : A -> Z -> B) (xs : list A) : list B :=
  mapi_from f 0%Z xs.

(** [v.toFixed(digits)]: the decimal with [digits] places nearest to [v],
    ties away from zero. *)
Definition toFixed (v : R) (digits : Z) : R :=
  let f := powerRZ 10 digits in
  if Rlt_dec v 0
  then - (IZR (Int_part (- v * f + / 2)) / f)
  else IZR (Int_part (v * f + / 2)) / f.

End JS.

(** ** packages/core: geometry and the path builder *)

Module Core.
Import JS.

Record Point2D : Type := mkPoint { x : R; y : R }.

Definition degToRad (degrees : R) : R := (degrees * PI) / 180.

Definition distance (p1 p2 : Point2D) : R :=
  let dx := x p2 - x p1 in
  let dy := y p2 - y p1 in
  sqrt (dx * dx + dy * dy).

Definition pointOnCircle (center : Point2D) (radius angle : R) : Point2D :=
  {| x := x center + radius * cos angle;
     y := y center + radius * sin angle |}.

Definition lerp (a b t : R) : R := a + (b - a) * t.

Definition PHI : R := (1 + sqrt 5) / 2.

Definition round (value : R) (decimals : Z) : R :=
  let factor := Math_pow 10 decimals in
  IZR (Math_round (value * factor)) / factor.

(** One command of a path string.  The first four are the strings pushed
    by [PathBuilder]; the last three are the pieces written by the spiral
    curve fitter, whose numbers come from [toFixed(3)] and are separated
    by blanks. *)
Inductive command : Type :=
| CmdM (px py : R)
    (* `M${px},${py}` *)
| CmdL (px py : R)
    (* `L${px},${py}` *)
| CmdA (rx ry : R) (xAxisRotation largeArcFlag sweepFlag : Z) (px py : R)
    (* `A${rx},${ry} ${xAxisRotation} ${largeArcFlag},${sweepFlag} ${px},${py}` *)
| CmdZ
    (* 'Z' *)
| BezM (px py : R)
    (* `M ${px} ${py}` *)
| BezL (px py : R)
    (* `L ${px} ${py}` *)
| BezC (c1x c1y c2x c2y px py : R)
    (* `C ${c1x} ${c1y}, ${c2x} ${c2y}, ${px} ${py}` *).

(** A path string: its commands, in order, joined by single blanks. *)
Definition path : Type := list command.

(** [paths.join(' ')] on non-empty path strings. *)
Definition join (paths : list path) : path := concat paths.

(** [class PathBuilder]: the private [commands] array. *)
Definition PathBuilder : Type := list command.

Definition newPathBuilder : PathBuilder := [].

(** Method chaining: [builder.f(a).g(b)] is [builder |> f a |> g b]. *)
Notation "this |> method" := (method this)
  (at level 45, left associativity, only parsing).

Definition moveTo (p : Point2D) (this : PathBuilder) : PathBuilder :=
  this ++ [CmdM (round (x p) 2) (round (y p) 2)].

Definition lineTo (p : Point2D) (this : PathBuilder) : PathBuilder :=
  this ++ [CmdL (round (x p) 2) (round (y p) 2)].

Definition arcTo (radius : R) (endPoint : Point2D) (largeArc sweep : bool)
    (this : PathBuilder) : PathBuilder :=
  let rx := round radius 2 in
  let ry := round radius 2 in
  let xAxisRotation := 0%Z in
  let largeArcFlag := if largeArc then 1%Z else 0%Z in
  let sweepFlag := if sweep then 1%Z else 0%Z in
  let ex := round (x endPoint) 2 in
  let ey := round (y endPoint) 2 in
  this ++ [CmdA rx ry xAxisRotation largeArcFlag sweepFlag ex ey].

Definition closePath (this : PathBuilder) : PathBuilder := this ++ [CmdZ].

Definition build (this : PathBuilder) : path := this.

Definition reset (this : PathBuilder) : PathBuilder := [].

Definition circleToPath (center : Point2D) (radius : R) : path :=
  let top := {| x := x center; y := y center - radius |} in
  let bottom := {| x := x center; y := y center + radius |} in
  let builder := newPathBuilder in
  builder
    |> moveTo top
    |> arcTo radius bottom true true
    |> arcTo radius top true true
    |> closePath
    |> build.

Definition lineToPath (p_start p_end : Point2D) : path :=
  newPathBuilder |> moveTo p_start |> lineTo p_end |> build.

End Core.

(** ** The spacing loops shared by the three families

    The [for] loops of the three spacing files are the same text; each is
    written once here and used by the three engines below. *)

Module SpacingLoops.
Import JS Core.

(** [for (let i = 0; i < count; i++) { const t = i / (count - 1);
    out.push(outer - range * t); }] *)
Definition uniform_loop (outer rng : R) (count : Z) : list R :=
  map (fun i => let t := IZR i / IZR (count - 1) in outer - rng * t)
      (range 0 count).

(** The same loop with [easedT = t * t]. *)
Definition graduated_loop (outer rng : R) (count : Z) : list R :=
  map (fun i => let t := IZR i / IZR (count - 1) in
                let easedT := t * t in
                outer - rng * easedT)
      (range 0 count).

(** [for (let i = 1; i < count; i++) { current -= currentGap;
    if (current <= 0) break; out.push(current); currentGap *= multiplier; }]
    with [iters] iterations left. *)
Fixpoint shrinkage_loop (iters : nat) (current currentGap multiplier : R) : list R :=
  match iters with
  | O => []
  | S k =>
      let current' := current - currentGap in
      if Rle_dec current' 0 then []
      else current' :: shrinkage_loop k current' (currentGap * multiplier) multiplier
  end.

End SpacingLoops.

(** ** packages/rings *)

Module Rings.
Import JS Core SpacingLoops.

Inductive SpacingMode : Type := uniform | shrinkage | graduated | goldenRatio.

Record RingPatternConfig : Type := {
  outerRadius : R;
  innerRadius : R;
  ringCount : Z;
  spacingMode : SpacingMode;
  outerGap : R;
  shrinkage_ : R;
  cutCount : Z;
  gridDivisions : R;
  staggerOffset : R;
  cutWidth : R;
  showOuterBoundary : bool;
  center : option Point2D
}.

Definition DEFAULT_CONFIG : RingPatternConfig := {|
  outerRadius := 360;
  innerRadius := 36;
  ringCount := 10;
  spacingMode := shrinkage;
  outerGap := 18;
  shrinkage_ := 0.05;
  cutCount := 8;
  gridDivisions := 16;
  staggerOffset := 1;
  cutWidth := 8;
  showOuterBoundary := true;
  center := None
|}.

(** [Partial<RingPatternConfig>]: every field may be left out. *)
Record PartialRingPatternConfig : Type := {
  given_outerRadius : option R;
  given_innerRadius : option R;
  given_ringCount : option Z;
  given_spacingMode : option SpacingMode;
  given_outerGap : option R;
  given_shrinkage : option R;
  given_cutCount : option Z;
  given_gridDivisions : option R;
  given_staggerOffset : option R;
  given_cutWidth : option R;
  given_showOuterBoundary : option bool;
  given_center : option Point2D
}.

(** [{ ...DEFAULT_CONFIG, ...config }] *)
Definition merge (config : PartialRingPatternConfig) : RingPatternConfig := {|
  outerRadius := spread (outerRadius DEFAULT_CONFIG) (given_outerRadius config);
  innerRadius := spread (innerRadius DEFAULT_CONFIG) (given_innerRadius config);
  ringCount := spread (ringCount DEFAULT_CONFIG) (given_ringCount config);
  spacingMode := spread (spacingMode DEFAULT_CONFIG) (given_spacingMode config);
  outerGap := spread (outerGap DEFAULT_CONFIG) (given_outerGap config);
  shrinkage_ := spread (shrinkage_ DEFAULT_CONFIG) (given_shrinkage config);
  cutCount := spread (cutCount DEFAULT_CONFIG) (given_cutCount config);
  gridDivisions := spread (gridDivisions DEFAULT_CONFIG) (given_gridDivisions config);
  staggerOffset := spread (staggerOffset DEFAULT_CONFIG) (given_staggerOffset config);
  cutWidth := spread (cutWidth DEFAULT_CONFIG) (given_cutWidth config);
  showOuterBoundary :=
    spread (showOuterBoundary DEFAULT_CONFIG) (given_showOuterBoundary config);
  center := match given_center config with
            | Some c => Some c
            | None => center DEFAULT_CONFIG
            end
|}.

Record GeneratedRing : Type := {
  index : Z;
  radius : R;
  rotation : R;
  pathData : path
}.

Record GeneratedPattern : Type := {
  rings : list GeneratedRing;
  outerBoundary : option path;
  pattern_center : Point2D;
  radii : list R
}.

(** *** spacing.ts *)

(** The [options] argument of [calculateRadii]. *)
Record Options : Type := {
  opt_innerRadius : option R;
  opt_outerGap : option R;
  opt_shrinkage : option R
}.

Definition no_options : Options :=
  {| opt_innerRadius := None; opt_outerGap := None; opt_shrinkage := None |}.

Definition calculateShrinkageRadii (outerRadius : R) (ringCount : Z)
    (outerGap shrinkage : R) : list R :=
  if (ringCount <=? 0)%Z then []
  else if (ringCount =? 1)%Z then [outerRadius]
  else
    let multiplier := 1 - shrinkage in
    outerRadius
      :: shrinkage_loop (Z.to_nat (ringCount - 1)) outerRadius outerGap multiplier.

Definition goldenRatioSum (n : Z) : R :=
  if (n <=? 0)%Z then 0
  else (Math_pow PHI n - 1) / (PHI - 1).

(** [for (let i = 1; i < ringCount; i++) { const gap = unitSize *
    Math.pow(PHI, ringCount - 1 - i); currentRadius -= gap;
    radii.push(currentRadius); }] over the remaining values of [i]. *)
Fixpoint goldenRatio_loop (steps : list Z) (ringCount : Z)
    (unitSize currentRadius : R) : list R :=
  match steps with
  | [] => []
  | i :: rest =>
      let gap := unitSize * Math_pow PHI (ringCount - 1 - i) in
      let currentRadius' := currentRadius - gap in
      currentRadius' :: goldenRatio_loop rest ringCount unitSize currentRadius'
  end.

Definition calculateRadii (outerRadius : R) (ringCount : Z) (mode : SpacingMode)
    (options : Options) : list R :=
  if (ringCount <=? 0)%Z then []
  else if (ringCount =? 1)%Z then [outerRadius]
  else
    match mode with
    | shrinkage =>
        calculateShrinkageRadii outerRadius ringCount
          (or_default (opt_outerGap options) 18)
          (or_default (opt_shrinkage options) 0.05)
    | uniform =>
        let innerRadius := or_default (opt_innerRadius options) (outerRadius * 0.1) in
        let rng := outerRadius - innerRadius in
        uniform_loop outerRadius rng ringCount
    | graduated =>
        let innerRadius := or_default (opt_innerRadius options) (outerRadius * 0.1) in
        let rng := outerRadius - innerRadius in
        graduated_loop outerRadius rng ringCount
    | goldenRatio =>
        let innerRadius := or_default (opt_innerRadius options) (outerRadius * 0.1) in
        let rng := outerRadius - innerRadius in
        let totalParts := goldenRatioSum (ringCount - 1) in
        let unitSize := rng / totalParts in
        let currentRadius := outerRadius in
        currentRadius
          :: goldenRatio_loop (range 1 ringCount) ringCount unitSize currentRadius
    end.

(** *** generator.ts *)

Definition calculateStaggeredRotation (ringIndex : Z) (gridDivisions staggerOffset : R) : R :=
  let gridAngle := (2 * PI) / gridDivisions in
  let gridPosition := if (Z.rem ringIndex 2 =? 0)%Z then 0 else staggerOffset in
  gridPosition * gridAngle.

Definition generateArc (center : Point2D) (radius startAngle endAngle : R) : path :=
  let p_start := pointOnCircle center radius startAngle in
  let p_end := pointOnCircle center radius endAngle in
  let sweepAngle := endAngle - startAngle in
  let largeArc := if Rgt_dec sweepAngle PI then true else false in
  let builder := newPathBuilder in
  builder |> moveTo p_start |> arcTo radius p_end largeArc true |> build.

(** [cutWidth / radius] is an infinity or NaN in the code when [radius]
    is 0, a value the model does not represent: the definition follows
    the code for a radius other than 0. *)
Definition generateRingWithCuts (center : Point2D) (radius : R) (cutCount : Z)
    (cutWidth rotation : R) : path :=
  if (cutCount <=? 0)%Z then circleToPath center radius
  else
    let cutAngle := cutWidth / radius in
    let segmentAngle := (2 * PI) / IZR cutCount in
    let arcAngle := segmentAngle - cutAngle in
    if Rle_dec arcAngle 0 then circleToPath center radius
    else
      join (map (fun i =>
                   let startAngle := rotation + IZR i * segmentAngle + cutAngle / 2 in
                   let endAngle := startAngle + arcAngle in
                   generateArc center radius startAngle endAngle)
                (range 0 cutCount)).

Definition generateRingPattern (config : PartialRingPatternConfig) : GeneratedPattern :=
  let cfg := merge config in
  let center :=
    match center cfg with
    | Some c => c
    | None => {| x := outerRadius cfg; y := outerRadius cfg |}
    end in
  let radii :=
    calculateRadii (outerRadius cfg) (ringCount cfg) (spacingMode cfg)
      {| opt_innerRadius := Some (innerRadius cfg);
         opt_outerGap := Some (outerGap cfg);
         opt_shrinkage := Some (shrinkage_ cfg) |} in
  let rings :=
    mapi (fun radius index =>
            let rotation :=
              calculateStaggeredRotation index (gridDivisions cfg) (staggerOffset cfg) in
            let pathData :=
              if ((index =? 0) || (cutCount cfg <=? 0))%Z
              then circleToPath center radius
              else generateRingWithCuts center radius (cutCount cfg) (cutWidth cfg) rotation in
            {| index := index; radius := radius; rotation := rotation;
               pathData := pathData |})
         radii in
  let outerBoundary :=
    if showOuterBoundary cfg then Some (circleToPath center (outerRadius cfg)) else None in
  {| rings := rings; outerBoundary := outerBoundary; pattern_center := center;
     radii := radii |}.

(** [generateHalfCircleRings] and [generateBridgeConnectors], the two
    auxiliary generators of the file.  [bridgeWidth / radius] is an
    infinity or NaN in the code when a radius is 0, a value the model does
    not represent: the definition follows the code for radii other than
    0. *)
Definition generateHalfCircleRings (center : Point2D) (radii : list R)
    (bridgeWidth : R) (topHalf : bool) : list path :=
  map (fun radius =>
         let bridgeGap := bridgeWidth / radius in
         if topHalf then
           let startAngle := - PI / 2 + bridgeGap / 2 in
           let endAngle := PI / 2 - bridgeGap / 2 in
           generateArc center radius startAngle endAngle
         else
           let startAngle := PI / 2 + bridgeGap / 2 in
           let endAngle := (3 * PI) / 2 - bridgeGap / 2 in
           generateArc center radius startAngle endAngle)
      radii.

Definition generateBridgeConnectors (center : Point2D) (innerRadius outerRadius : R)
    (count : Z) (startAngle : R) : list path :=
  let angleStep := (2 * PI) / IZR count in
  map (fun i =>
         let angle := startAngle + IZR i * angleStep in
         let innerPoint := pointOnCircle center innerRadius angle in
         let outerPoint := pointOnCircle center outerRadius angle in
         let builder := newPathBuilder in
         builder |> moveTo innerPoint |> lineTo outerPoint |> build)
      (range 0 count).

End Rings.

(** ** packages/squares *)

Module Squares.
Import JS Core SpacingLoops.

Inductive SquareSpacingMode : Type := uniform | shrinkage | graduated.

Record SquarePatternConfig : Type := {
  outerSize : R;
  innerSize : R;
  squareCount : Z;
  spacingMode : SquareSpacingMode;
  outerGap : R;
  shrinkage_ : R;
  rotation : R;
  alternating : bool;
  notchesPerSide : Z;
  notchWidth : R;
  showOuterBoundary : bool;
  center : option Point2D
}.

Definition DEFAULT_SQUARE_CONFIG : SquarePatternConfig := {|
  outerSize := 360;
  innerSize := 36;
  squareCount := 10;
  spacingMode := shrinkage;
  outerGap := 24;
  shrinkage_ := 0.05;
  rotation := 0;
  alternating := true;
  notchesPerSide := 0;
  notchWidth := 8;
  showOuterBoundary := true;
  center := None
|}.

(** [Partial<SquarePatternConfig>] *)
Record PartialSquarePatternConfig : Type := {
  given_outerSize : option R;
  given_innerSize : option R;
  given_squareCount : option Z;
  given_spacingMode : option SquareSpacingMode;
  given_outerGap : option R;
  given_shrinkage : option R;
  given_rotation : option R;
  given_alternating : option bool;
  given_notchesPerSide : option Z;
  given_notchWidth : option R;
  given_showOuterBoundary : option bool;
  given_center : option Point2D
}.

(** [{ ...DEFAULT_SQUARE_CONFIG, ...config }] *)
Definition merge (config : PartialSquarePatternConfig) : SquarePatternConfig := {|
  outerSize := spread (outerSize DEFAULT_SQUARE_CONFIG) (given_outerSize config);
  innerSize := spread (innerSize DEFAULT_SQUARE_CONFIG) (given_innerSize config);
  squareCount := spread (squareCount DEFAULT_SQUARE_CONFIG) (given_squareCount config);
  spacingMode := spread (spacingMode DEFAULT_SQUARE_CONFIG) (given_spacingMode config);
  outerGap := spread (outerGap DEFAULT_SQUARE_CONFIG) (given_outerGap config);
  shrinkage_ := spread (shrinkage_ DEFAULT_SQUARE_CONFIG) (given_shrinkage config);
  rotation := spread (rotation DEFAULT_SQUARE_CONFIG) (given_rotation config);
  alternating := spread (alternating DEFAULT_SQUARE_CONFIG) (given_alternating config);
  notchesPerSide :=
    spread (notchesPerSide DEFAULT_SQUARE_CONFIG) (given_notchesPerSide config);
  notchWidth := spread (notchWidth DEFAULT_SQUARE_CONFIG) (given_notchWidth config);
  showOuterBoundary :=
    spread (showOuterBoundary DEFAULT_SQUARE_CONFIG) (given_showOuterBoundary config);
  center := match given_center config with
            | Some c => Some c
            | None => center DEFAULT_SQUARE_CONFIG
            end
|}.

Record GeneratedSquare : Type := {
  index : Z;
  size : R;
  clockwise : bool;
  pathData : path
}.

Record GeneratedSquarePattern : Type := {
  squares : list GeneratedSquare;
  outerBoundary : option path;
  pattern_center : Point2D;
  sizes : list R
}.

(** *** spacing.ts *)

Record Options : Type := {
  opt_innerSize : option R;
  opt_outerGap : option R;
  opt_shrinkage : option R
}.

Definition no_options : Options :=
  {| opt_innerSize := None; opt_outerGap := None; opt_shrinkage := None |}.

Definition calculateShrinkageSizes (outerSize : R) (squareCount : Z)
    (outerGap shrinkage : R) : list R :=
  if (squareCount <=? 0)%Z then []
  else if (squareCount =? 1)%Z then [outerSize]
  else
    let multiplier := 1 - shrinkage in
    outerSize
      :: shrinkage_loop (Z.to_nat (squareCount - 1)) outerSize outerGap multiplier.

Definition calculateSquareSizes (outerSize : R) (squareCount : Z)
    (mode : SquareSpacingMode) (options : Options) : list R :=
  if (squareCount <=? 0)%Z then []
  else if (squareCount =? 1)%Z then [outerSize]
  else
    match mode with
    | shrinkage =>
        calculateShrinkageSizes outerSize squareCount
          (or_default (opt_outerGap options) 24)
          (or_default (opt_shrinkage options) 0.05)
    | uniform =>
        let innerSize := or_default (opt_innerSize options) (outerSize * 0.1) in
        let rng := outerSize - innerSize in
        uniform_loop outerSize rng squareCount
    | graduated =>
        let innerSize := or_default (opt_innerSize options) (outerSize * 0.1) in
        let rng := outerSize - innerSize in
        graduated_loop outerSize rng squareCount
    end.

(** *** generator.ts *)

Definition interpolate (p1 p2 : Point2D) (t : R) : Point2D :=
  {| x := x p1 + (x p2 - x p1) * t;
     y := y p1 + (y p2 - y p1) * t |}.

Definition getSquareCorners (center : Point2D) (size rotationDeg : R) : list Point2D :=
  let angle := degToRad rotationDeg in
  let c := cos angle in
  let s := sin angle in
  let offsets :=
    [ {| x := - size; y := - size |};
      {| x := size; y := - size |};
      {| x := size; y := size |};
      {| x := - size; y := size |} ] in
  map (fun offset =>
         {| x := x center + x offset * c - y offset * s;
            y := y center + x offset * s + y offset * c |})
      offsets.

(** [corners[k]]; the array always has four elements and [k] is 0..3. *)
Definition corner (corners : list Point2D) (k : nat) : Point2D :=
  nth k corners {| x := 0; y := 0 |}.

Definition generateSquare (center : Point2D) (size rotationDeg : R) (clockwise : bool) : path :=
  let corners := getSquareCorners center size rotationDeg in
  let builder := newPathBuilder in
  if clockwise then
    builder
      |> moveTo (corner corners 0)
      |> lineTo (corner corners 1)
      |> lineTo (corner corners 2)
      |> lineTo (corner corners 3)
      |> closePath
      |> build
  else
    builder
      |> moveTo (corner corners 0)
      |> lineTo (corner corners 3)
      |> lineTo (corner corners 2)
      |> lineTo (corner corners 1)
      |> closePath
      |> build.

(** The loop body of [drawSideWithNotches] at notch [i]: a line to just
    before the notch, then a move to just after it. *)
Definition drawNotch (p_start p_end : Point2D) (notchCount : Z) (notchHalf ux uy : R)
    (builder : PathBuilder) (i : Z) : PathBuilder :=
  let t := IZR i / IZR (notchCount + 1) in
  let notchCenter := interpolate p_start p_end t in
  let beforeNotch := {| x := x notchCenter - ux * notchHalf;
                        y := y notchCenter - uy * notchHalf |} in
  let builder := lineTo beforeNotch builder in
  let afterNotch := {| x := x notchCenter + ux * notchHalf;
                       y := y notchCenter + uy * notchHalf |} in
  moveTo afterNotch builder.

(** [drawSideWithNotches] appends to the builder it is given; the builder
    after the call is returned.  [dx / length] and [dy / length] are NaN
    in the code on a side of length 0, and so are the coordinates it then
    prints: the definition follows the code for sides of positive
    length. *)
Definition drawSideWithNotches (builder : PathBuilder) (p_start p_end : Point2D)
    (notchCount : Z) (notchHalf _segmentLength : R) : PathBuilder :=
  if (notchCount <=? 0)%Z then builder
  else
    let dx := x p_end - x p_start in
    let dy := y p_end - y p_start in
    let length := sqrt (dx * dx + dy * dy) in
    let ux := dx / length in
    let uy := dy / length in
    fold_left (drawNotch p_start p_end notchCount notchHalf ux uy)
              (range 1 (notchCount + 1)) builder.

Definition generateSquareWithNotches (center : Point2D) (size rotationDeg : R)
    (clockwise : bool) (notchesPerSide : Z) (notchWidth : R) : path :=
  let corners := getSquareCorners center size rotationDeg in
  let builder := newPathBuilder in
  let sideLength := size * 2 in
  let segmentLength := sideLength / IZR (notchesPerSide + 1) in
  let notchHalf := notchWidth / 2 in
  let halfCount := Math_floor (IZR notchesPerSide / 2) in
  if clockwise then
    let startPoint := interpolate (corner corners 0) (corner corners 1) 0.5 in
    let builder := moveTo startPoint builder in
    let builder := lineTo (corner corners 1) builder in
    let builder := drawSideWithNotches builder (corner corners 1) (corner corners 2)
                     notchesPerSide notchHalf segmentLength in
    let builder := lineTo (corner corners 2) builder in
    let builder := drawSideWithNotches builder (corner corners 2) (corner corners 3)
                     notchesPerSide notchHalf segmentLength in
    let builder := lineTo (corner corners 3) builder in
    let builder := drawSideWithNotches builder (corner corners 3) (corner corners 0)
                     notchesPerSide notchHalf segmentLength in
    let builder := lineTo (corner corners 0) builder in
    let endPoint := interpolate (corner corners 0) (corner corners 1) 0.5 in
    let builder := drawSideWithNotches builder (corner corners 0) endPoint
                     halfCount notchHalf segmentLength in
    build builder
  else
    let startPoint := interpolate (corner corners 0) (corner corners 3) 0.5 in
    let builder := moveTo startPoint builder in
    let builder := lineTo (corner corners 3) builder in
    let builder := drawSideWithNotches builder (corner corners 3) (corner corners 2)
                     notchesPerSide notchHalf segmentLength in
    let builder := lineTo (corner corners 2) builder in
    let builder := drawSideWithNotches builder (corner corners 2) (corner corners 1)
                     notchesPerSide notchHalf segmentLength in
    let builder := lineTo (corner corners 1) builder in
    let builder := drawSideWithNotches builder (corner corners 1) (corner corners 0)
                     notchesPerSide notchHalf segmentLength in
    let builder := lineTo (corner corners 0) builder in
    let endPoint := interpolate (corner corners 0) (corner corners 3) 0.5 in
    let builder := drawSideWithNotches builder (corner corners 0) endPoint
                     halfCount notchHalf segmentLength in
    build builder.

Definition generateSquarePattern (config : PartialSquarePatternConfig)
    : GeneratedSquarePattern :=
  let cfg := merge config in
  let center :=
    match center cfg with
    | Some c => c
    | None => {| x := outerSize cfg; y := outerSize cfg |}
    end in
  let sizes :=
    calculateSquareSizes (outerSize cfg) (squareCount cfg) (spacingMode cfg)
      {| opt_innerSize := Some (innerSize cfg);
         opt_outerGap := Some (outerGap cfg);
         opt_shrinkage := Some (shrinkage_ cfg) |} in
  let squares :=
    mapi (fun size index =>
            let clockwise :=
              if alternating cfg then (Z.rem index 2 =? 0)%Z else true in
            let pathData :=
              if (notchesPerSide cfg >? 0)%Z
              then generateSquareWithNotches center size (rotation cfg) clockwise
                     (notchesPerSide cfg) (notchWidth cfg)
              else generateSquare center size (rotation cfg) clockwise in
            {| index := index; size := size; clockwise := clockwise;
               pathData := pathData |})
         sizes in
  let outerBoundary :=
    if showOuterBoundary cfg
    then Some (generateSquare center (outerSize cfg) (rotation cfg) true)
    else None in
  {| squares := squares; outerBoundary := outerBoundary; pattern_center := center;
     sizes := sizes |}.

End Squares.

(** ** packages/polygons *)

Module Polygons.
Import JS Core SpacingLoops.

Inductive PolygonSpacingMode : Type := uniform | shrinkage | graduated.

(** [sides] has the type [PolygonSides], one of 3, 4, 5, 6, 7, 8, 10, 12. *)
Record PolygonPatternConfig : Type := {
  sides : Z;
  outerRadius : R;
  innerRadius : R;
  polygonCount : Z;
  spacingMode : PolygonSpacingMode;
  outerGap : R;
  shrinkage_ : R;
  rotation : R;
  bridgeCount : Z;
  bridgeWidth : R;
  showOuterBoundary : bool;
  center : option Point2D
}.

Definition DEFAULT_POLYGON_CONFIG : PolygonPatternConfig := {|
  sides := 6;
  outerRadius := 360;
  innerRadius := 36;
  polygonCount := 10;
  spacingMode := shrinkage;
  outerGap := 24;
  shrinkage_ := 0.05;
  rotation := 0;
  bridgeCount := 0;
  bridgeWidth := 8;
  showOuterBoundary := true;
  center := None
|}.

(** [Partial<PolygonPatternConfig>] *)
Record PartialPolygonPatternConfig : Type := {
  given_sides : option Z;
  given_outerRadius : option R;
  given_innerRadius : option R;
  given_polygonCount : option Z;
  given_spacingMode : option PolygonSpacingMode;
  given_outerGap : option R;
  given_shrinkage : option R;
  given_rotation : option R;
  given_bridgeCount : option Z;
  given_bridgeWidth : option R;
  given_showOuterBoundary : option bool;
  given_center : option Point2D
}.

(** [{ ...DEFAULT_POLYGON_CONFIG, ...config }] *)
Definition merge (config : PartialPolygonPatternConfig) : PolygonPatternConfig := {|
  sides := spread (sides DEFAULT_POLYGON_CONFIG) (given_sides config);
  outerRadius := spread (outerRadius DEFAULT_POLYGON_CONFIG) (given_outerRadius config);
  innerRadius := spread (innerRadius DEFAULT_POLYGON_CONFIG) (given_innerRadius config);
  polygonCount := spread (polygonCount DEFAULT_POLYGON_CONFIG) (given_polygonCount config);
  spacingMode := spread (spacingMode DEFAULT_POLYGON_CONFIG) (given_spacingMode config);
  outerGap := spread (outerGap DEFAULT_POLYGON_CONFIG) (given_outerGap config);
  shrinkage_ := spread (shrinkage_ DEFAULT_POLYGON_CONFIG) (given_shrinkage config);
  rotation := spread (rotation DEFAULT_POLYGON_CONFIG) (given_rotation config);
  bridgeCount := spread (bridgeCount DEFAULT_POLYGON_CONFIG) (given_bridgeCount config);
  bridgeWidth := spread (bridgeWidth DEFAULT_POLYGON_CONFIG) (given_bridgeWidth config);
  showOuterBoundary :=
    spread (showOuterBoundary DEFAULT_POLYGON_CONFIG) (given_showOuterBoundary config);
  center := match given_center config with
            | Some c => Some c
            | None => center DEFAULT_POLYGON_CONFIG
            end
|}.

Record GeneratedPolygon : Type := {
  index : Z;
  radius : R;
  polygon_sides : Z;
  pathData : path
}.

Record GeneratedPolygonPattern : Type := {
  polygons : list GeneratedPolygon;
  outerBoundary : option path;
  pattern_center : Point2D;
  radii : list R
}.

(** *** spacing.ts *)

Record Options : Type := {
  opt_innerRadius : option R;
  opt_outerGap : option R;
  opt_shrinkage : option R
}.

Definition no_options : Options :=
  {| opt_innerRadius := None; opt_outerGap := None; opt_shrinkage := None |}.

Definition calculateShrinkageRadii (outerRadius : R) (polygonCount : Z)
    (outerGap shrinkage : R) : list R :=
  if (polygonCount <=? 0)%Z then []
  else if (polygonCount =? 1)%Z then [outerRadius]
  else
    let multiplier := 1 - shrinkage in
    outerRadius
      :: shrinkage_loop (Z.to_nat (polygonCount - 1)) outerRadius outerGap multiplier.

Definition calculatePolygonRadii (outerRadius : R) (polygonCount : Z)
    (mode : PolygonSpacingMode) (options : Options) : list R :=
  if (polygonCount <=? 0)%Z then []
  else if (polygonCount =? 1)%Z then [outerRadius]
  else
    match mode with
    | shrinkage =>
        calculateShrinkageRadii outerRadius polygonCount
          (or_default (opt_outerGap options) 24)
          (or_default (opt_shrinkage options) 0.05)
    | uniform =>
        let innerRadius := or_default (opt_innerRadius options) (outerRadius * 0.1) in
        let rng := outerRadius - innerRadius in
        uniform_loop outerRadius rng polygonCount
    | graduated =>
        let innerRadius := or_default (opt_innerRadius options) (outerRadius * 0.1) in
        let rng := outerRadius - innerRadius in
        graduated_loop outerRadius rng polygonCount
    end.

(** *** generator.ts *)

Definition interpolate (p1 p2 : Point2D) (t : R) : Point2D :=
  {| x := x p1 + (x p2 - x p1) * t;
     y := y p1 + (y p2 - y p1) * t |}.

Definition getPolygonVertices (center : Point2D) (radius : R) (sides : Z)
    (rotationDeg : R) : list Point2D :=
  let angleStep := (2 * PI) / IZR sides in
  let startAngle := degToRad rotationDeg - PI / 2 in
  map (fun i =>
         let angle := startAngle + IZR i * angleStep in
         pointOnCircle center radius angle)
      (range 0 sides).

(** [vertices[k]] for a position inside the array. *)
Definition vertex (vertices : list Point2D) (k : Z) : Point2D :=
  nth (Z.to_nat k) vertices {| x := 0; y := 0 |}.

(** [generatePolygon]; reading [vertices[0]] of an empty array throws,
    which is the result [None]. *)
Definition generatePolygon (center : Point2D) (radius : R) (sides : Z)
    (rotationDeg : R) : option path :=
  let vertices := getPolygonVertices center radius sides rotationDeg in
  match vertices with
  | [] => None
  | first :: others =>
      let builder := moveTo first newPathBuilder in
      let builder := fold_left (fun b v => lineTo v b) others builder in
      Some (build (closePath builder))
  end.

(** The sub-segment drawn for [j] on one edge: its two parameters
    [tStart] and [tEnd]. *)
Definition segmentBounds (bridgesPerEdge : Z) (segmentLength bridgeGap edgeLength : R)
    (j : Z) : R * R :=
  let tStart := if (j =? 0)%Z then 0
                else (IZR j * segmentLength + bridgeGap) / edgeLength in
  let tEnd := if (j =? bridgesPerEdge)%Z then 1
              else (IZR (j + 1) * segmentLength - bridgeGap) / edgeLength in
  (tStart, tEnd).

(** The paths pushed while the outer loop of [generatePolygonWithBridges]
    is at edge [i].  On an edge of length 0 the quotients by [edgeLength]
    are infinities or NaN in the code and the guard [tStart < tEnd] then
    fails or passes on them: the definition follows the code for edges of
    positive length. *)
Definition edgePaths (vertices : list Point2D) (sides bridgesPerEdge : Z)
    (bridgeGap : R) (i : Z) : list path :=
  let startVertex := vertex vertices i in
  let endVertex := vertex vertices (Z.rem (i + 1) sides) in
  let edgeLength := distance startVertex endVertex in
  if (bridgesPerEdge =? 0)%Z then
    let builder := newPathBuilder in
    [builder |> moveTo startVertex |> lineTo endVertex |> build]
  else
    let segmentLength := edgeLength / IZR (bridgesPerEdge + 1) in
    concat
      (map (fun j =>
              let '(tStart, tEnd) :=
                segmentBounds bridgesPerEdge segmentLength bridgeGap edgeLength j in
              if Rlt_dec tStart tEnd then
                let segStart := interpolate startVertex endVertex tStart in
                let segEnd := interpolate startVertex endVertex tEnd in
                let builder := newPathBuilder in
                [builder |> moveTo segStart |> lineTo segEnd |> build]
              else [])
           (range 0 (bridgesPerEdge + 1))).

Definition generatePolygonWithBridges (center : Point2D) (radius : R) (sides : Z)
    (rotationDeg : R) (bridgeCount : Z) (bridgeWidth : R) : path :=
  let vertices := getPolygonVertices center radius sides rotationDeg in
  let bridgesPerEdge := Math_floor (IZR bridgeCount / IZR sides) in
  let bridgeGap := bridgeWidth / 2 in
  join (concat (map (edgePaths vertices sides bridgesPerEdge bridgeGap)
                    (range 0 sides))).

(** The values of a list of calls, or [None] when one of them throws. *)
Fixpoint all_returned {A : Type} (calls : list (option A)) : option (list A) :=
  match calls with
  | [] => Some []
  | None :: _ => None
  | Some v :: rest =>
      match all_returned rest with
      | Some vs => Some (v :: vs)
      | None => None
      end
  end.

Definition generatePolygonPattern (config : PartialPolygonPatternConfig)
    : option GeneratedPolygonPattern :=
  let cfg := merge config in
  let center :=
    match center cfg with
    | Some c => c
    | None => {| x := outerRadius cfg; y := outerRadius cfg |}
    end in
  let radii :=
    calculatePolygonRadii (outerRadius cfg) (polygonCount cfg) (spacingMode cfg)
      {| opt_innerRadius := Some (innerRadius cfg);
         opt_outerGap := Some (outerGap cfg);
         opt_shrinkage := Some (shrinkage_ cfg) |} in
  let polygons :=
    all_returned
      (mapi (fun radius index =>
               let pathData :=
                 if (bridgeCount cfg >? 0)%Z
                 then Some (generatePolygonWithBridges center radius (sides cfg)
                              (rotation cfg) (bridgeCount cfg) (bridgeWidth cfg))
                 else generatePolygon center radius (sides cfg) (rotation cfg) in
               option_map (fun pathData =>
                             {| index := index; radius := radius;
                                polygon_sides := sides cfg; pathData := pathData |})
                          pathData)
            radii) in
  let outerBoundary :=
    if showOuterBoundary cfg
    then option_map Some (generatePolygon center (outerRadius cfg) (sides cfg) (rotation cfg))
    else Some None in
  match polygons, outerBoundary with
  | Some polygons, Some outerBoundary =>
      Some {| polygons := polygons; outerBoundary := outerBoundary;
              pattern_center := center; radii := radii |}
  | _, _ => None
  end.

End Polygons.

(** ** packages/spirals *)

Module Spirals.
Import JS Core.

Inductive SpiralType : Type := logarithmic | archimedean | fermat.

Record SpiralPatternConfig : Type := {
  armCount : Z;
  outerRadius : R;
  innerRadius : R;
  turns : R;
  spiralType : SpiralType;
  growthFactor : R;
  rotation : R;
  strokeWidth : R;
  showOuterBoundary : bool;
  center : option Point2D
}.

Definition DEFAULT_SPIRAL_CONFIG : SpiralPatternConfig := {|
  armCount := 4;
  outerRadius := 360;
  innerRadius := 10;
  turns := 3;
  spiralType := logarithmic;
  growthFactor := 0.2;
  rotation := 0;
  strokeWidth := 1;
  showOuterBoundary := true;
  center := None
|}.

(** [Partial<SpiralPatternConfig>] *)
Record PartialSpiralPatternConfig : Type := {
  given_armCount : option Z;
  given_outerRadius : option R;
  given_innerRadius : option R;
  given_turns : option R;
  given_spiralType : option SpiralType;
  given_growthFactor : option R;
  given_rotation : option R;
  given_strokeWidth : option R;
  given_showOuterBoundary : option bool;
  given_center : option Point2D
}.

(** [{ ...DEFAULT_SPIRAL_CONFIG, ...config }] *)
Definition merge (config : PartialSpiralPatternConfig) : SpiralPatternConfig := {|
  armCount := spread (armCount DEFAULT_SPIRAL_CONFIG) (given_armCount config);
  outerRadius := spread (outerRadius DEFAULT_SPIRAL_CONFIG) (given_outerRadius config);
  innerRadius := spread (innerRadius DEFAULT_SPIRAL_CONFIG) (given_innerRadius config);
  turns := spread (turns DEFAULT_SPIRAL_CONFIG) (given_turns config);
  spiralType := spread (spiralType DEFAULT_SPIRAL_CONFIG) (given_spiralType config);
  growthFactor := spread (growthFactor DEFAULT_SPIRAL_CONFIG) (given_growthFactor config);
  rotation := spread (rotation DEFAULT_SPIRAL_CONFIG) (given_rotation config);
  strokeWidth := spread (strokeWidth DEFAULT_SPIRAL_CONFIG) (given_strokeWidth config);
  showOuterBoundary :=
    spread (showOuterBoundary DEFAULT_SPIRAL_CONFIG) (given_showOuterBoundary config);
  center := match given_center config with
            | Some c => Some c
            | None => center DEFAULT_SPIRAL_CONFIG
            end
|}.

Record GeneratedSpiralArm : Type := {
  index : Z;
  arm_startAngle : R;
  pathData : path
}.

Record GeneratedSpiralPattern : Type := {
  arms : list GeneratedSpiralArm;
  outerBoundary : option path;
  pattern_center : Point2D
}.

(** In the logarithmic case the code yields NaN when [growthFactor] is 0
    (0 divided by 0) and when [Math.exp] overflows: the definition
    follows the code for growth factors in range
    ([growth_factor_in_range] below). *)
Definition calculateSpiralRadius (innerRadius outerRadius t : R)
    (spiralType : SpiralType) (growthFactor : R) : R :=
  let rng := outerRadius - innerRadius in
  match spiralType with
  | logarithmic =>
      let expT := (exp (growthFactor * t * 10) - 1) / (exp (growthFactor * 10) - 1) in
      innerRadius + rng * expT
  | archimedean => innerRadius + rng * t
  | fermat => innerRadius + rng * sqrt t
  end.

(** [points[k]] for a position inside the array. *)
Definition point (points : list Point2D) (k : nat) : Point2D :=
  nth k points {| x := 0; y := 0 |}.

Definition pointsToBezierPath (points : list Point2D) : path :=
  if (length points <? 2)%nat then []
  else if (length points =? 2)%nat then
    [ BezM (toFixed (x (point points 0)) 3) (toFixed (y (point points 0)) 3);
      BezL (toFixed (x (point points 1)) 3) (toFixed (y (point points 1)) 3) ]
  else
    BezM (toFixed (x (point points 0)) 3) (toFixed (y (point points 0)) 3)
    :: map (fun i =>
              let p0 := point points (Nat.max 0 (i - 1)) in
              let p1 := point points i in
              let p2 := point points (i + 1) in
              let p3 := point points (Nat.min (length points - 1) (i + 2)) in
              let tension := 0.5 in
              let cp1 := {| x := x p1 + (x p2 - x p0) * tension / 3;
                            y := y p1 + (y p2 - y p0) * tension / 3 |} in
              let cp2 := {| x := x p2 - (x p3 - x p1) * tension / 3;
                            y := y p2 - (y p3 - y p1) * tension / 3 |} in
              BezC (toFixed (x cp1) 3) (toFixed (y cp1) 3)
                   (toFixed (x cp2) 3) (toFixed (y cp2) 3)
                   (toFixed (x p2) 3) (toFixed (y p2) 3))
           (seq 0 (length points - 1)).

(** The [points] array filled by the sampling loop of
    [generateSpiralArm]: [for (let i = 0; i <= totalSegments; i++)]. *)
Definition spiralPoints (center : Point2D) (innerRadius outerRadius startAngle turns : R)
    (spiralType : SpiralType) (growthFactor : R) : list Point2D :=
  let segmentsPerTurn := 32 in
  let totalSegments := Math_ceil (turns * segmentsPerTurn) in
  map (fun i =>
         let t := IZR i / IZR totalSegments in
         let angle := startAngle + t * turns * 2 * PI in
         let radius := calculateSpiralRadius innerRadius outerRadius t spiralType growthFactor in
         pointOnCircle center radius angle)
      (range 0 (totalSegments + 1)).

Definition generateSpiralArm (center : Point2D) (innerRadius outerRadius startAngle turns : R)
    (spiralType : SpiralType) (growthFactor : R) : path :=
  pointsToBezierPath
    (spiralPoints center innerRadius outerRadius startAngle turns spiralType growthFactor).

Definition generateSpiralPattern (config : PartialSpiralPatternConfig)
    : GeneratedSpiralPattern :=
  let cfg := merge config in
  let center :=
    match center cfg with
    | Some c => c
    | None => {| x := outerRadius cfg; y := outerRadius cfg |}
    end in
  let armAngleStep := (2 * PI) / IZR (armCount cfg) in
  let arms :=
    map (fun i =>
           let startAngle := degToRad (rotation cfg) + IZR i * armAngleStep in
           let pathData :=
             generateSpiralArm center (innerRadius cfg) (outerRadius cfg) startAngle
               (turns cfg) (spiralType cfg) (growthFactor cfg) in
           {| index := i; arm_startAngle := startAngle; pathData := pathData |})
        (range 0 (armCount cfg)) in
  let outerBoundary :=
    if showOuterBoundary cfg then Some (circleToPath center (outerRadius cfg)) else None in
  {| arms := arms; outerBoundary := outerBoundary; pattern_center := center |}.

End Spirals.

(** ** Vocabulary of the specification *)

Module Props.
Import JS Core.

(** Each element is strictly below the one before it. *)
Fixpoint strictly_decreasing (l : list R) : Prop :=
  match l with
  | a :: (b :: _) as rest => b < a /\ strictly_decreasing rest
  | _ => True
  end.

(** The gaps between neighbours of an extent sequence, outermost first. *)
Fixpoint gaps (l : list R) : list R :=
  match l with
  | a :: (b :: _) as rest => (a - b) :: gaps rest
  | _ => []
  end.

Definition sum (l : list R) : R := fold_right Rplus 0 l.

(** The longest prefix of strictly positive numbers. *)
Fixpoint positive_prefix (l : list R) : list R :=
  match l with
  | [] => []
  | a :: rest => if Rle_dec a 0 then [] else a :: positive_prefix rest
  end.

(** The extents shrinkage spacing would reach in [iters] steps if it never
    stopped: each step subtracts the running gap, which is then scaled. *)
Fixpoint unbounded_shrinkage (iters : nat) (current gap multiplier : R) : list R :=
  match iters with
  | O => []
  | S k => (current - gap) :: unbounded_shrinkage k (current - gap) (gap * multiplier) multiplier
  end.

(** An optional number that is left out, given as 0, or given as the
    built-in default [d] is treated alike by [engine]. *)
Definition zero_means_default (engine : option R -> list R) (d : R) : Prop :=
  engine (Some 0) = engine None /\ engine (Some 0) = engine (Some d).

(** The sum of [PHI^k] for [k] from 0 to [n - 1]. *)
Definition phi_series (n : Z) : R := sum (map (fun k => Math_pow PHI k) (range 0 n)).

(** Inputs on which a spacing engine is asked for a shrinking sequence:
    in shrinkage mode the effective outer gap is positive and the
    effective shrinkage is below 1; in the other modes the effective inner
    extent is below the outer one.  [default_gap] is 18 or 24. *)
Definition well_conditioned (shrinkage_mode : bool) (default_gap outer : R)
    (inner gap shr : option R) : Prop :=
  if shrinkage_mode
  then 0 < or_default gap default_gap /\ or_default shr 0.05 < 1
  else or_default inner (outer * 0.1) < outer.

(** Whether a mode of each family is its shrinkage mode. *)
Definition rings_shrinkage_mode (mode : Rings.SpacingMode) : bool :=
  match mode with Rings.shrinkage => true | _ => false end.

Definition squares_shrinkage_mode (mode : Squares.SquareSpacingMode) : bool :=
  match mode with Squares.shrinkage => true | _ => false end.

Definition polygons_shrinkage_mode (mode : Polygons.PolygonSpacingMode) : bool :=
  match mode with Polygons.shrinkage => true | _ => false end.

(** What shrinkage spacing returns for [count >= 2]: the outer extent
    followed by the unbounded series cut at its first non-positive term. *)
Definition truncated_shrinkage (r : list R) (outer : R) (count : Z)
    (outerGap shrinkage : R) : Prop :=
  r = outer :: positive_prefix
                 (unbounded_shrinkage (Z.to_nat (count - 1)) outer outerGap (1 - shrinkage))
  /\ Forall (fun v => 0 < v) (tl r)
  /\ (1 <= length r <= Z.to_nat count)%nat
  /\ (0 < outer -> Forall (fun v => 0 < v) r).

(** The arc angle computed by [generateRingWithCuts] for one ring:
    [segmentAngle - cutAngle], that is [2 PI / cutCount - cutWidth / radius]. *)
Definition arcAngleOf (radius : R) (cutCount : Z) (cutWidth : R) : R :=
  let cutAngle := cutWidth / radius in
  let segmentAngle := (2 * PI) / IZR cutCount in
  segmentAngle - cutAngle.

(** The number of move commands of a path, that is of its sub-paths. *)
Definition is_move (c : command) : bool :=
  match c with
  | CmdM _ _ | BezM _ _ => true
  | _ => false
  end.

Definition count_moves (p : path) : nat := length (filter is_move p).

(** A sub-path made of one move and one arc. *)
Definition is_arc_subpath (p : path) : Prop :=
  exists mx my rx ry rot large sweep ex ey,
    p = [CmdM mx my; CmdA rx ry rot large sweep ex ey].

(** The closed circle of the given radius about [center], as a path: a
    move to the top point, a half turn to the bottom point, a half turn
    back to the top point and the close command, every number rounded to
    two places. *)
Definition closed_circle (center : Point2D) (radius : R) : path :=
  [ CmdM (round (x center) 2) (round (y center - radius) 2);
    CmdA (round radius 2) (round radius 2) 0 1 1
         (round (x center) 2) (round (y center + radius) 2);
    CmdA (round radius 2) (round radius 2) 0 1 1
         (round (x center) 2) (round (y center - radius) 2);
    CmdZ ].


(** Growth factors at which the logarithmic radius formula is defined in
    doubles: [exp (10 g)] neither rounds to 1, which would make the
    divisor [exp (10 g) - 1] zero, nor overflows.  The range of the
    growth-factor slider, 0.05 to 0.5, lies inside. *)
Definition growth_factor_in_range (growthFactor : R) : Prop :=
  / 1000 <= Rabs growthFactor /\ growthFactor <= 70.

(** A number with at most two, respectively three, decimal places. *)
Definition two_decimals (v : R) : Prop := exists k : Z, v = IZR k / 100.
Definition three_decimals (v : R) : Prop := exists k : Z, v = IZR k / 1000.

Definition flag (z : Z) : Prop := z = 0%Z \/ z = 1%Z.


(** The tokens of the output mini-language: [M x,y], [L x,y],
    [A rx,ry xrot largeArcFlag,sweepFlag x,y] with [rx = ry] and
    [xrot = 0], and [Z], every number rounded to two places. *)
Definition builder_token (c : command) : Prop :=
  match c with
  | CmdM px py | CmdL px py => two_decimals px /\ two_decimals py
  | CmdA rx ry rot large sweep px py =>
      two_decimals rx /\ two_decimals ry /\ rx = ry /\ rot = 0%Z
      /\ flag large /\ flag sweep /\ two_decimals px /\ two_decimals py
  | CmdZ => True
  | BezM _ _ | BezL _ _ | BezC _ _ _ _ _ _ => False
  end.

Definition builder_path (p : path) : Prop := Forall builder_token p.

(** The tokens written by the spiral curve fitter: [M x y], [L x y] and
    [C x y, x y, x y], every number with three places. *)
Definition bezier_token (c : command) : Prop :=
  match c with
  | BezM px py | BezL px py => three_decimals px /\ three_decimals py
  | BezC c1x c1y c2x c2y px py =>
      three_decimals c1x /\ three_decimals c1y /\ three_decimals c2x
      /\ three_decimals c2y /\ three_decimals px /\ three_decimals py
  | CmdM _ _ | CmdL _ _ | CmdA _ _ _ _ _ _ _ | CmdZ => False
  end.

Definition bezier_path (p : path) : Prop := Forall bezier_token p.

Definition is_curve (c : command) : Prop :=
  match c with
  | BezC _ _ _ _ _ _ => True
  | _ => False
  end.

(** The square of half-size 10 about the origin, upright, clockwise, with
    one notch of width 2 per side. *)
Definition notched_square_path : path :=
  Squares.generateSquareWithNotches {| x := 0; y := 0 |} 10 0 true 1 2.

(** The length of edge [i] of a polygon, as [generatePolygonWithBridges]
    measures it. *)
Definition edgeLengthOf (vertices : list Point2D) (sides i : Z) : R :=
  distance (Polygons.vertex vertices i) (Polygons.vertex vertices (Z.rem (i + 1) sides)).

End Props.

(** ** packages/core, continued: the rest of geometry/math.ts,
    geometry/units.ts and [arcToPath] *)

Module Geometry.
Import JS Core.

Definition radToDeg (radians : R) : R := (radians * 180) / PI.

(** [Math.trunc]: the whole part, rounding towards zero. *)
Definition Math_trunc (v : R) : Z :=
  if Rlt_dec v 0 then Math_ceil v else Math_floor v.

(** [a % b] on numbers: the remainder of the division truncated towards
    zero, which takes the sign of [a]. *)
Definition js_rem (a b : R) : R := a - b * IZR (Math_trunc (a / b)).

Definition normalizeAngle (angle : R) : R :=
  let twoPi := 2 * PI in
  let result := js_rem angle twoPi in
  if Rlt_dec result 0 then result + twoPi else result.

Definition arcSweep (startAngle endAngle : R) (clockwise : bool) : R :=
  let sweep := endAngle - startAngle in
  let sweep :=
    if clockwise
    then (if Rgt_dec sweep 0 then sweep - 2 * PI else sweep)
    else (if Rlt_dec sweep 0 then sweep + 2 * PI else sweep) in
  Rabs sweep.

(** A number that may be [Infinity], [-Infinity] or [NaN]: the running
    minima and maxima of [boundingBox] start at the infinities. *)
Inductive extended : Type :=
| Finite (v : R)
| Infinity
| MinusInfinity
| NotANumber.

Definition Math_min (a b : extended) : extended :=
  match a, b with
  | NotANumber, _ | _, NotANumber => NotANumber
  | MinusInfinity, _ | _, MinusInfinity => MinusInfinity
  | Infinity, other | other, Infinity => other
  | Finite u, Finite v => Finite (Rmin u v)
  end.

Definition Math_max (a b : extended) : extended :=
  match a, b with
  | NotANumber, _ | _, NotANumber => NotANumber
  | Infinity, _ | _, Infinity => Infinity
  | MinusInfinity, other | other, MinusInfinity => other
  | Finite u, Finite v => Finite (Rmax u v)
  end.

(** [a - b] *)
Definition minus (a b : extended) : extended :=
  match a, b with
  | NotANumber, _ | _, NotANumber => NotANumber
  | Finite u, Finite v => Finite (u - v)
  | Infinity, Infinity | MinusInfinity, MinusInfinity => NotANumber
  | Infinity, _ | _, MinusInfinity => Infinity
  | MinusInfinity, _ | _, Infinity => MinusInfinity
  end.

Record BoundingBox : Type := {
  minX : extended;
  minY : extended;
  maxX : extended;
  maxY : extended;
  width : extended;
  height : extended
}.

(** The four running bounds of the loop of [boundingBox]. *)
Record Bounds : Type := {
  lowX : extended;
  lowY : extended;
  highX : extended;
  highY : extended
}.

Definition boundingBox (points : list Point2D) : BoundingBox :=
  if (length points =? 0)%nat then
    {| minX := Finite 0; minY := Finite 0; maxX := Finite 0; maxY := Finite 0;
       width := Finite 0; height := Finite 0 |}
  else
    let start :=
      {| lowX := Infinity; lowY := Infinity;
         highX := MinusInfinity; highY := MinusInfinity |} in
    let bounds :=
      fold_left (fun b p =>
                   {| lowX := Math_min (lowX b) (Finite (x p));
                      lowY := Math_min (lowY b) (Finite (y p));
                      highX := Math_max (highX b) (Finite (x p));
                      highY := Math_max (highY b) (Finite (y p)) |})
                points start in
    {| minX := lowX bounds; minY := lowY bounds;
       maxX := highX bounds; maxY := highY bounds;
       width := minus (highX bounds) (lowX bounds);
       height := minus (highY bounds) (lowY bounds) |}.

(** [interface Arc]; [clockwise] is optional and [undefined] is falsy. *)
Record Arc : Type := {
  arc_center : Point2D;
  arc_radius : R;
  startAngle : R;
  endAngle : R;
  clockwise : option bool
}.

Definition truthy (flag : option bool) : bool :=
  match flag with
  | Some b => b
  | None => false
  end.

Definition arcToPath (arc : Arc) : path :=
  let builder := newPathBuilder in
  let startPoint := pointOnCircle (arc_center arc) (arc_radius arc) (startAngle arc) in
  let endPoint := pointOnCircle (arc_center arc) (arc_radius arc) (endAngle arc) in
  let sweepAngle := endAngle arc - startAngle arc in
  let sweepAngle :=
    if truthy (clockwise arc)
    then (if Rgt_dec sweepAngle 0 then sweepAngle - 2 * PI else sweepAngle)
    else (if Rlt_dec sweepAngle 0 then sweepAngle + 2 * PI else sweepAngle) in
  let largeArc := if Rgt_dec (Rabs sweepAngle) PI then true else false in
  let sweepFlag := negb (truthy (clockwise arc)) in
  builder
    |> moveTo startPoint
    |> arcTo (arc_radius arc) endPoint largeArc sweepFlag
    |> build.

(** *** geometry/units.ts *)

Definition DPI : R := 72.

Inductive Unit : Type := inches | mm | px.

Definition Unit_eqb (a b : Unit) : bool :=
  match a, b with
  | inches, inches | mm, mm | px, px => true
  | _, _ => false
  end.

Definition inchesToPixels (v : R) : R := v * DPI.
Definition pixelsToInches (pixels : R) : R := pixels / DPI.
Definition mmToPixels (v : R) : R := (v / 25.4) * DPI.
Definition pixelsToMm (pixels : R) : R := (pixels / DPI) * 25.4.

Definition convertUnits (value : R) (from to : Unit) : R :=
  if Unit_eqb from to then value
  else
    let pixels :=
      match from with
      | inches => inchesToPixels value
      | mm => mmToPixels value
      | px => value
      end in
    match to with
    | inches => pixelsToInches pixels
    | mm => pixelsToMm pixels
    | px => pixels
    end.

(** *** export/svg.ts: kerf compensation *)

Definition applyKerf (radius kerfInches : R) (isOuterCut : bool) : R :=
  let kerfPx := inchesToPixels kerfInches in
  let adjustment := kerfPx / 2 in
  if isOuterCut then radius + adjustment else radius - adjustment.

End Geometry.

(** ** packages/rings, continued: the deprecated percentage spacing *)

Module RingsLegacy.
Import JS Core.

(** [ringCount > 2 ? i / (ringCount - 2) : 0] *)
Definition percentage_t (ringCount i : Z) : R :=
  if (ringCount >? 2)%Z then IZR i / IZR (ringCount - 2) else 0.

(** [for (let i = 0; i < ringCount - 1; i++) { ... currentRadius -=
    spacing; radii.push(currentRadius); }] over the remaining values of
    [i]. *)
Fixpoint percentage_loop (steps : list Z) (ringCount : Z)
    (unit startPercent endPercent currentRadius : R) : list R :=
  match steps with
  | [] => []
  | i :: rest =>
      let t := percentage_t ringCount i in
      let spacing := unit * lerp startPercent endPercent t in
      let currentRadius' := currentRadius - spacing in
      currentRadius'
        :: percentage_loop rest ringCount unit startPercent endPercent currentRadius'
  end.

Definition calculatePercentageRadii (innerRadius outerRadius : R) (ringCount : Z)
    (startPercent endPercent : R) : list R :=
  if (ringCount <=? 0)%Z then []
  else if (ringCount =? 1)%Z then [outerRadius]
  else
    let rng := outerRadius - innerRadius in
    let sumPercent :=
      fold_left (fun sumPercent i =>
                   let t := percentage_t ringCount i in
                   sumPercent + lerp startPercent endPercent t)
                (range 0 (ringCount - 1)) 0 in
    let unit := rng / sumPercent in
    let currentRadius := outerRadius in
    currentRadius
      :: percentage_loop (range 0 (ringCount - 1)) ringCount unit startPercent endPercent
           currentRadius.

End RingsLegacy.

(** ** The same arithmetic in doubles

    [float] is the binary64 format with the IEEE 754 operations rounded
    to nearest, ties to even: the arithmetic of JavaScript numbers.  A
    decimal literal denotes the nearest double, as it does in JavaScript.
    The functions below are the ones of the same name above, operation
    for operation. *)

Module Doubles.
Import PrimFloat.
#[local] Set Warnings "-inexact-float".
Local Open Scope float_scope.

(** geometry/math.ts *)
Definition lerp (a b t : float) : float := a + (b - a) * t.

(** [Math.PI], the double nearest to the number. *)
Definition Math_PI : float := 3.141592653589793.

Definition arcSweep (startAngle endAngle : float) (clockwise : bool) : float :=
  let sweep := endAngle - startAngle in
  let sweep :=
    if clockwise
    then (if ltb 0 sweep then sweep - 2 * Math_PI else sweep)
    else (if ltb sweep 0 then sweep + 2 * Math_PI else sweep) in
  abs sweep.

(** geometry/units.ts and export/svg.ts *)
Definition DPI : float := 72.

Definition inchesToPixels (inches : float) : float := inches * DPI.

Definition applyKerf (radius kerfInches : float) (isOuterCut : bool) : float :=
  let kerfPx := inchesToPixels kerfInches in
  let adjustment := kerfPx / 2 in
  if isOuterCut then radius + adjustment else radius - adjustment.

(** rings/spacing.ts: the loop of [calculateShrinkageRadii]. *)
Fixpoint shrinkage_loop (iters : nat) (current currentGap multiplier : float)
    : list float :=
  match iters with
  | O => []
  | S k =>
      let current' := current - currentGap in
      if leb current' 0 then []
      else current' :: shrinkage_loop k current' (currentGap * multiplier) multiplier
  end.

Definition calculateShrinkageRadii (outerRadius : float) (ringCount : Z)
    (outerGap shrinkage : float) : list float :=
  if (ringCount <=? 0)%Z then []
  else if (ringCount =? 1)%Z then [outerRadius]
  else
    let multiplier := 1 - shrinkage in
    outerRadius
      :: shrinkage_loop (Z.to_nat (ringCount - 1)) outerRadius outerGap multiplier.

(** The gaps between neighbours, outermost first. *)
Fixpoint gaps (l : list float) : list float :=
  match l with
  | a :: (b :: _) as rest => (a - b) :: gaps rest
  | _ => []
  end.

End Doubles.

(** ** Further vocabulary *)

Module MoreProps.
Import JS Core Props.

(** Each element is strictly above the one before it. *)
Fixpoint strictly_increasing (l : list R) : Prop :=
  match l with
  | a :: (b :: _) as rest => a < b /\ strictly_increasing rest
  | _ => True
  end.

(** The first [len] terms of the geometric sequence [first], [first *
    ratio], [first * ratio^2], ... *)
Definition geometric (first ratio : R) (len : nat) : list R :=
  map (fun k => first * ratio ^ k) (seq 0 len).

(** What uniform spacing returns for [count >= 2]: [count] extents from
    [outer] down to [inner] with one constant gap. *)
Definition evenly_spaced (r : list R) (outer inner : R) (count : Z) : Prop :=
  length r = Z.to_nat count
  /\ hd_error r = Some outer
  /\ last r outer = inner
  /\ Forall (fun gap => gap = (outer - inner) / IZR (count - 1)) (gaps r).

(** What graduated spacing returns for [count >= 2]: [count] extents from
    [outer] to [inner], the gap at step [i] being [2 i + 1] times the
    first one. *)
Definition quadratically_spaced (r : list R) (outer inner : R) (count : Z) : Prop :=
  length r = Z.to_nat count
  /\ hd_error r = Some outer
  /\ last r outer = inner
  /\ gaps r
     = map (fun i => (outer - inner) * (IZR (2 * i + 1) / (IZR (count - 1) * IZR (count - 1))))
           (range 0 (count - 1))
  /\ (inner < outer -> strictly_increasing (gaps r)).

(** Every arc command of a path carries the given flags. *)
Definition arc_flags (large sweep : Z) (c : command) : Prop :=
  match c with
  | CmdA _ _ _ largeArcFlag sweepFlag _ _ => largeArcFlag = large /\ sweepFlag = sweep
  | _ => True
  end.

(** Every arc command of a path carries the given sweep flag. *)
Definition sweep_flag (sweep : Z) (c : command) : Prop :=
  match c with
  | CmdA _ _ _ _ sweepFlag _ _ => sweepFlag = sweep
  | _ => True
  end.

(** A closed polygon outline: one move, lines, and a final close. *)
Definition closed_outline (p : path) (vertices : nat) : Prop :=
  length p = S vertices
  /\ count_moves p = 1%nat
  /\ last p (CmdM 0 0) = CmdZ.

Definition is_close (c : command) : bool :=
  match c with
  | CmdZ => true
  | _ => false
  end.

End MoreProps.

(** * Verification *)

Import JS Core SpacingLoops Props.

(** ** Loop ranges *)

Lemma range_nil (lo hi : Z) : (hi <= lo)%Z -> range lo hi = [].
Proof.
  intros H. unfold range.
  replace (Z.to_nat (hi - lo)) with O by lia. reflexivity.
Qed.

Lemma range_cons (lo hi : Z) : (lo < hi)%Z -> range lo hi = lo :: range (lo + 1) hi.
Proof.
  intros H. unfold range.
  replace (Z.to_nat (hi - lo)) with (S (Z.to_nat (hi - (lo + 1)))) by lia.
  cbn [seq map]. f_equal; [lia|].
  rewrite <- seq_shift, map_map.
  apply map_ext. intros k. lia.
Qed.

Lemma range_length (lo hi : Z) : length (range lo hi) = Z.to_nat (hi - lo).
Proof. unfold range. now rewrite length_map, length_seq. Qed.

Lemma range_In (lo hi i : Z) : In i (range lo hi) -> (lo <= i < hi)%Z.
Proof.
  unfold range. rewrite in_map_iff. intros [k [<- Hk]].
  apply in_seq in Hk. lia.
Qed.

(** Induction over the values of a counting loop, first value first. *)
Lemma range_ind (P : Z -> Z -> Prop) :
  (forall lo hi, (hi <= lo)%Z -> P lo hi) ->
  (forall lo hi, (lo < hi)%Z -> P (lo + 1)%Z hi -> P lo hi) ->
  forall lo hi, P lo hi.
Proof.
  intros Hnil Hcons lo hi.
  remember (Z.to_nat (hi - lo)) as n eqn:Hn.
  revert lo Hn. induction n as [|n IH]; intros lo Hn.
  - apply Hnil. lia.
  - apply Hcons; [lia|]. apply IH. lia.
Qed.


(** ** Stagger rotation *)

Lemma rem2_even (n : Z) : Z.even n = true -> Z.rem n 2 = 0%Z.
Proof.
  intros H. apply Z.even_spec in H. destruct H as [k ->].
  rewrite Z.mul_comm. apply Z.rem_mul. lia.
Qed.

Lemma rem2_odd (n : Z) : Z.odd n = true -> Z.rem n 2 <> 0%Z.
Proof.
  intros H Hr. apply Z.odd_spec in H. destruct H as [k Hk].
  pose proof (Z.quot_rem' n 2) as Hq. rewrite Hr in Hq. lia.
Qed.

(** C9: [calculateStaggeredRotation] is exactly 0 at every even ring
    index and [staggerOffset * (2 PI / gridDivisions)] at every odd one,
    for every positive [gridDivisions] and every [staggerOffset]. *)
Theorem staggered_rotation_by_parity :
  forall (ringIndex : Z) (gridDivisions staggerOffset : R),
    0 < gridDivisions ->
    (Z.even ringIndex = true ->
       Rings.calculateStaggeredRotation ringIndex gridDivisions staggerOffset = 0)
    /\ (Z.odd ringIndex = true ->
          Rings.calculateStaggeredRotation ringIndex gridDivisions staggerOffset
          = staggerOffset * ((2 * PI) / gridDivisions)).
Proof.
  intros ringIndex gridDivisions staggerOffset _.
  unfold Rings.calculateStaggeredRotation. split; intros Hpar.
  - rewrite (rem2_even _ Hpar). cbn [Z.eqb]. apply Rmult_0_l.
  - destruct (Z.rem ringIndex 2 =? 0)%Z eqn:E; [|reflexivity].
    apply Z.eqb_eq in E. now apply rem2_odd in E.
Qed.

Lemma staggered_rotation_by_parity_witness :
  0 < 16
  /\ Rings.calculateStaggeredRotation 4 16 1 = 0
  /\ Rings.calculateStaggeredRotation 3 16 1 = 1 * ((2 * PI) / 16).
Proof.
  assert (H16 : 0 < 16) by lra.
  split; [exact H16|]. split.
  - apply (proj1 (staggered_rotation_by_parity 4 16 1 H16)). reflexivity.
  - apply (proj2 (staggered_rotation_by_parity 3 16 1 H16)). reflexivity.
Defined.

(** ** Falsy options *)

Lemma or_default_zero (d : R) : or_default (Some 0) d = d.
Proof.
  unfold or_default. destruct (Req_dec_T 0 0) as [_|H]; [reflexivity|now elim H].
Qed.

Lemma or_default_default (d : R) : or_default (Some d) d = d.
Proof.
  unfold or_default. destruct (Req_dec_T d 0); reflexivity.
Qed.

Lemma or_default_none (d : R) : or_default None d = d.
Proof. reflexivity. Qed.

Lemma or_default_nonzero (v d : R) : v <> 0 -> or_default (Some v) d = v.
Proof.
  intros H. unfold or_default. destruct (Req_dec_T v 0); [contradiction|reflexivity].
Qed.

(** ** Spacing engine: first element and monotonicity *)

Lemma strictly_decreasing_map_range (f : Z -> R) :
  forall lo hi,
    (forall i, (lo <= i)%Z -> (i + 1 < hi)%Z -> f (i + 1)%Z < f i) ->
    strictly_decreasing (map f (range lo hi)).
Proof.
  intros lo hi. revert f.
  apply (range_ind (fun lo hi => forall f,
    (forall i, (lo <= i)%Z -> (i + 1 < hi)%Z -> f (i + 1)%Z < f i) ->
    strictly_decreasing (map f (range lo hi)))); clear lo hi.
  - intros lo hi H f _. now rewrite range_nil.
  - intros lo hi Hlt IH f Hf.
    rewrite range_cons by assumption.
    specialize (IH f).
    destruct (Z_lt_ge_dec (lo + 1) hi) as [Hlt'|Hge].
    + rewrite (range_cons (lo + 1)) in * by assumption.
      cbn [map strictly_decreasing] in *. split.
      * apply Hf; lia.
      * apply IH. intros i Hi Hi'. apply Hf; lia.
    + rewrite (range_nil (lo + 1)) by lia. exact I.
Qed.

Lemma uniform_loop_head (outer rng : R) (count : Z) :
  (1 <= count)%Z -> hd_error (uniform_loop outer rng count) = Some outer.
Proof.
  intros H. unfold uniform_loop. rewrite range_cons by lia.
  cbn [map hd_error]. f_equal. unfold Rdiv. rewrite Rmult_0_l. lra.
Qed.

Lemma graduated_loop_head (outer rng : R) (count : Z) :
  (1 <= count)%Z -> hd_error (graduated_loop outer rng count) = Some outer.
Proof.
  intros H. unfold graduated_loop. rewrite range_cons by lia.
  cbn [map hd_error]. f_equal. unfold Rdiv. rewrite !Rmult_0_l. lra.
Qed.

Lemma uniform_loop_decreasing (outer rng : R) (count : Z) :
  (2 <= count)%Z -> 0 < rng -> strictly_decreasing (uniform_loop outer rng count).
Proof.
  intros Hc Hr. unfold uniform_loop. apply strictly_decreasing_map_range.
  intros i Hi _. cbv zeta.
  assert (Hd : 0 < / IZR (count - 1)).
  { apply Rinv_0_lt_compat. apply IZR_lt. lia. }
  rewrite plus_IZR. unfold Rdiv. nra.
Qed.

Lemma graduated_loop_decreasing (outer rng : R) (count : Z) :
  (2 <= count)%Z -> 0 < rng -> strictly_decreasing (graduated_loop outer rng count).
Proof.
  intros Hc Hr. unfold graduated_loop. apply strictly_decreasing_map_range.
  intros i Hi _. cbv zeta.
  assert (Hd : 0 < / IZR (count - 1)).
  { apply Rinv_0_lt_compat. apply IZR_lt. lia. }
  assert (Hi' : 0 <= IZR i) by (apply IZR_le; lia).
  rewrite plus_IZR. unfold Rdiv.
  set (d := / IZR (count - 1)) in *. set (t := IZR i) in *.
  assert (t * d * (t * d) < (t + 1) * d * ((t + 1) * d)) by nra.
  nra.
Qed.

Lemma shrinkage_loop_decreasing (iters : nat) :
  forall current gap multiplier,
    0 < gap -> 0 < multiplier ->
    strictly_decreasing (current :: shrinkage_loop iters current gap multiplier).
Proof.
  induction iters as [|k IH]; intros current gap multiplier Hg Hm.
  - exact I.
  - cbn [shrinkage_loop]. cbv zeta.
    destruct (Rle_dec (current - gap) 0); [exact I|].
    split; [lra|]. apply IH; [nra|assumption].
Qed.

(** ** The golden ratio *)

Lemma PHI_gt_1 : 1 < PHI.
Proof.
  unfold PHI.
  assert (H : 1 < sqrt 5).
  { rewrite <- sqrt_1 at 1. apply sqrt_lt_1_alt. lra. }
  lra.
Qed.

Lemma PHI_pow_pos (k : Z) : 0 < Math_pow PHI k.
Proof. apply powerRZ_lt. pose proof PHI_gt_1. lra. Qed.

Lemma PHI_pow_succ (k : Z) : Math_pow PHI (k + 1) = PHI * Math_pow PHI k.
Proof.
  unfold Math_pow. rewrite powerRZ_add.
  - rewrite powerRZ_1. ring.
  - pose proof PHI_gt_1. lra.
Qed.

Lemma PHI_pow_gt_1 (n : Z) : (1 <= n)%Z -> 1 < Math_pow PHI n.
Proof.
  intros H. unfold Math_pow. destruct n as [|p|p]; try lia.
  cbn [powerRZ]. apply Rlt_pow_R1; [apply PHI_gt_1|lia].
Qed.

Lemma goldenRatioSum_pos (n : Z) : (1 <= n)%Z -> 0 < Rings.goldenRatioSum n.
Proof.
  intros H. unfold Rings.goldenRatioSum.
  destruct (n <=? 0)%Z eqn:E; [apply Z.leb_le in E; lia|].
  pose proof PHI_gt_1. pose proof (PHI_pow_gt_1 n H).
  apply Rdiv_lt_0_compat; lra.
Qed.

(** ** The golden-ratio loop *)

Lemma PHI_minus_1_neq_0 : PHI - 1 <> 0.
Proof. pose proof PHI_gt_1. lra. Qed.

(** The partial geometric series of [PHI], in closed form. *)
Lemma PHI_series_from (hi : Z) :
  forall lo, (lo <= hi)%Z ->
    sum (map (fun k => Math_pow PHI k) (range lo hi))
    = (Math_pow PHI hi - Math_pow PHI lo) / (PHI - 1).
Proof.
  intros lo. pattern lo, hi.
  apply range_ind; clear lo hi.
  - intros lo hi Hge Hle. assert (lo = hi) by lia. subst lo.
    rewrite range_nil by lia. cbn [map sum fold_right].
    field. apply PHI_minus_1_neq_0.
  - intros lo hi Hlt IH _. rewrite range_cons by assumption.
    cbn [map sum fold_right]. fold (sum (map (fun k => Math_pow PHI k) (range (lo + 1) hi))).
    rewrite IH by lia. rewrite PHI_pow_succ.
    field. apply PHI_minus_1_neq_0.
Qed.

Lemma goldenRatioSum_is_series (n : Z) :
  (0 <= n)%Z -> Rings.goldenRatioSum n = phi_series n.
Proof.
  intros Hn. unfold Rings.goldenRatioSum, phi_series.
  rewrite PHI_series_from by assumption.
  destruct (n <=? 0)%Z eqn:E.
  - apply Z.leb_le in E. assert (n = 0%Z) by lia. subst n.
    unfold Math_pow. cbn [powerRZ]. field. apply PHI_minus_1_neq_0.
  - unfold Math_pow at 3. cbn [powerRZ]. reflexivity.
Qed.

Lemma last_default_irrelevant {A : Type} (l : list A) (d d' : A) :
  l <> [] -> last l d = last l d'.
Proof.
  induction l as [|a [|b rest] IH]; intros Hne.
  - contradiction.
  - reflexivity.
  - change (last (b :: rest) d = last (b :: rest) d'). apply IH. discriminate.
Qed.

Section GoldenRatioLoop.

Variables (ringCount : Z) (unitSize : R).

(** Each pass subtracts [unitSize * PHI^(ringCount-1-i)]. *)
Lemma goldenRatio_loop_gaps (steps : list Z) :
  forall current,
    gaps (current :: Rings.goldenRatio_loop steps ringCount unitSize current)
    = map (fun i => unitSize * Math_pow PHI (ringCount - 1 - i)) steps.
Proof.
  induction steps as [|i rest IH]; intros current.
  - reflexivity.
  - cbn [Rings.goldenRatio_loop map]. cbv zeta.
    change (gaps (current :: ?b :: ?l)) with ((current - b) :: gaps (b :: l)).
    rewrite IH. f_equal. ring.
Qed.

(** The radius reached when the loop has run from step [lo] to the end. *)
Lemma goldenRatio_loop_last :
  forall lo current, (lo <= ringCount)%Z ->
    last (current :: Rings.goldenRatio_loop (range lo ringCount) ringCount unitSize current)
         current
    = current - unitSize * ((Math_pow PHI (ringCount - lo) - 1) / (PHI - 1)).
Proof.
  intros lo. revert unitSize. pattern lo, ringCount.
  apply range_ind; clear lo ringCount.
  - intros lo hi Hge unit current Hle. assert (lo = hi) by lia. subst lo.
    rewrite range_nil by lia. cbn [Rings.goldenRatio_loop last].
    rewrite Z.sub_diag. unfold Math_pow. cbn [powerRZ].
    field. apply PHI_minus_1_neq_0.
  - intros lo hi Hlt IH unit current _. rewrite range_cons by assumption.
    cbn [Rings.goldenRatio_loop]. cbv zeta.
    set (current' := current - unit * Math_pow PHI (hi - 1 - lo)).
    change (last (current :: current' :: ?l) current) with (last (current' :: l) current).
    rewrite (last_default_irrelevant (current' :: _) current current') by discriminate.
    fold current'. rewrite IH by lia. subst current'.
    replace (hi - lo)%Z with ((hi - 1 - lo) + 1)%Z by lia.
    replace (hi - (lo + 1))%Z with (hi - 1 - lo)%Z by lia.
    rewrite PHI_pow_succ. field. apply PHI_minus_1_neq_0.
Qed.

Hypothesis unitSize_positive : 0 < unitSize.

Lemma goldenRatio_loop_decreasing (steps : list Z) :
  forall current,
    strictly_decreasing
      (current :: Rings.goldenRatio_loop steps ringCount unitSize current).
Proof.
  induction steps as [|i rest IH]; intros current.
  - exact I.
  - cbn [Rings.goldenRatio_loop]. cbv zeta. split; [|apply IH].
    pose proof (PHI_pow_pos (ringCount - 1 - i)). nra.
Qed.

End GoldenRatioLoop.

(** The two early returns of every spacing function are not taken when
    at least two elements are asked for. *)
Lemma leb_0_of_ge_2 (count : Z) : (2 <= count)%Z -> (count <=? 0)%Z = false.
Proof. intros H. apply Z.leb_gt. lia. Qed.

Lemma eqb_1_of_ge_2 (count : Z) : (2 <= count)%Z -> (count =? 1)%Z = false.
Proof. intros H. apply Z.eqb_neq. lia. Qed.

Ltac past_early_returns H :=
  rewrite ?(leb_0_of_ge_2 _ H), ?(eqb_1_of_ge_2 _ H).

Lemma rings_first_and_decreasing (outer : R) (count : Z) (mode : Rings.SpacingMode)
    (inner gap shr : option R) :
  (2 <= count)%Z ->
  let r := Rings.calculateRadii outer count mode (Rings.Build_Options inner gap shr) in
  hd_error r = Some outer
  /\ (well_conditioned (rings_shrinkage_mode mode) 18 outer inner gap shr ->
      strictly_decreasing r).
Proof.
  intros Hc. cbv zeta. unfold Rings.calculateRadii, well_conditioned.
  past_early_returns Hc.
  cbn [Rings.opt_innerRadius Rings.opt_outerGap Rings.opt_shrinkage].
  destruct mode; cbn [rings_shrinkage_mode].
  - split; [apply uniform_loop_head; lia|].
    intros H. apply uniform_loop_decreasing; [assumption|lra].
  - unfold Rings.calculateShrinkageRadii. past_early_returns Hc.
    split; [reflexivity|]. intros [Hg Hs].
    apply shrinkage_loop_decreasing; lra.
  - split; [apply graduated_loop_head; lia|].
    intros H. apply graduated_loop_decreasing; [assumption|lra].
  - split; [reflexivity|]. intros H.
    apply goldenRatio_loop_decreasing.
    apply Rdiv_lt_0_compat; [lra|]. apply goldenRatioSum_pos. lia.
Qed.

Lemma squares_first_and_decreasing (outer : R) (count : Z)
    (mode : Squares.SquareSpacingMode) (inner gap shr : option R) :
  (2 <= count)%Z ->
  let r := Squares.calculateSquareSizes outer count mode
             (Squares.Build_Options inner gap shr) in
  hd_error r = Some outer
  /\ (well_conditioned (squares_shrinkage_mode mode) 24 outer inner gap shr ->
      strictly_decreasing r).
Proof.
  intros Hc. cbv zeta. unfold Squares.calculateSquareSizes, well_conditioned.
  past_early_returns Hc.
  cbn [Squares.opt_innerSize Squares.opt_outerGap Squares.opt_shrinkage].
  destruct mode; cbn [squares_shrinkage_mode].
  - split; [apply uniform_loop_head; lia|].
    intros H. apply uniform_loop_decreasing; [assumption|lra].
  - unfold Squares.calculateShrinkageSizes. past_early_returns Hc.
    split; [reflexivity|]. intros [Hg Hs].
    apply shrinkage_loop_decreasing; lra.
  - split; [apply graduated_loop_head; lia|].
    intros H. apply graduated_loop_decreasing; [assumption|lra].
Qed.

Lemma polygons_first_and_decreasing (outer : R) (count : Z)
    (mode : Polygons.PolygonSpacingMode) (inner gap shr : option R) :
  (2 <= count)%Z ->
  let r := Polygons.calculatePolygonRadii outer count mode
             (Polygons.Build_Options inner gap shr) in
  hd_error r = Some outer
  /\ (well_conditioned (polygons_shrinkage_mode mode) 24 outer inner gap shr ->
      strictly_decreasing r).
Proof.
  intros Hc. cbv zeta. unfold Polygons.calculatePolygonRadii, well_conditioned.
  past_early_returns Hc.
  cbn [Polygons.opt_innerRadius Polygons.opt_outerGap Polygons.opt_shrinkage].
  destruct mode; cbn [polygons_shrinkage_mode].
  - split; [apply uniform_loop_head; lia|].
    intros H. apply uniform_loop_decreasing; [assumption|lra].
  - unfold Polygons.calculateShrinkageRadii. past_early_returns Hc.
    split; [reflexivity|]. intros [Hg Hs].
    apply shrinkage_loop_decreasing; lra.
  - split; [apply graduated_loop_head; lia|].
    intros H. apply graduated_loop_decreasing; [assumption|lra].
Qed.

(** C1, as amended: for every call of the three spacing engines with
    [count >= 2], in every mode, the result is non-empty and starts with
    the supplied outer extent; in exact arithmetic it is strictly
    decreasing whenever the inputs are well conditioned (effective inner
    extent below the outer one, or in shrinkage mode a positive effective
    gap and an effective shrinkage below 1).  In doubles neighbouring
    extents can coincide once a gap falls below the rounding step of the
    extents; [doubles_shrinkage_radii_coincide] below is such a run. *)
Theorem spacing_first_is_outer_and_decreasing :
  forall (outer : R) (count : Z) (inner gap shr : option R),
    (2 <= count)%Z ->
    (forall mode,
        let r := Rings.calculateRadii outer count mode
                   (Rings.Build_Options inner gap shr) in
        hd_error r = Some outer
        /\ (well_conditioned (rings_shrinkage_mode mode) 18 outer inner gap shr ->
            strictly_decreasing r))
    /\ (forall mode,
           let r := Squares.calculateSquareSizes outer count mode
                      (Squares.Build_Options inner gap shr) in
           hd_error r = Some outer
           /\ (well_conditioned (squares_shrinkage_mode mode) 24 outer inner gap shr ->
               strictly_decreasing r))
    /\ (forall mode,
           let r := Polygons.calculatePolygonRadii outer count mode
                      (Polygons.Build_Options inner gap shr) in
           hd_error r = Some outer
           /\ (well_conditioned (polygons_shrinkage_mode mode) 24 outer inner gap shr ->
               strictly_decreasing r)).
Proof.
  intros outer count inner gap shr Hc. repeat split.
  - now apply rings_first_and_decreasing.
  - now apply rings_first_and_decreasing.
  - now apply squares_first_and_decreasing.
  - now apply squares_first_and_decreasing.
  - now apply polygons_first_and_decreasing.
  - now apply polygons_first_and_decreasing.
Qed.

Lemma spacing_first_is_outer_and_decreasing_witness :
  (2 <= 5)%Z
  /\ hd_error (Rings.calculateRadii 300 5 Rings.shrinkage
                 (Rings.Build_Options None (Some 20) (Some 0.1))) = Some 300
  /\ strictly_decreasing
       (Rings.calculateRadii 300 5 Rings.shrinkage
          (Rings.Build_Options None (Some 20) (Some 0.1)))
  /\ strictly_decreasing
       (Squares.calculateSquareSizes 360 10 Squares.uniform
          (Squares.Build_Options (Some 36) None None)).
Proof.
  assert (H5 : (2 <= 5)%Z) by lia.
  assert (H10 : (2 <= 10)%Z) by lia.
  split; [exact H5|].
  destruct (spacing_first_is_outer_and_decreasing 300 5 None (Some 20) (Some 0.1) H5)
    as [Hrings _].
  destruct (spacing_first_is_outer_and_decreasing 360 10 (Some 36) None None H10)
    as [_ [Hsquares _]].
  destruct (Hrings Rings.shrinkage) as [Hhd Hdec].
  destruct (Hsquares Squares.uniform) as [_ Hdec'].
  split; [exact Hhd|]. split.
  - apply Hdec. unfold well_conditioned. cbn [rings_shrinkage_mode].
    rewrite !or_default_nonzero by lra. lra.
  - apply Hdec'. unfold well_conditioned. cbn [squares_shrinkage_mode].
    rewrite or_default_nonzero by lra. lra.
Defined.

(** C1 as stated fails: asked for two rings in uniform mode with an
    inner radius of 200 above the outer radius of 100, [calculateRadii]
    returns 100 followed by 200. *)
Lemma spacing_not_always_decreasing :
  (2 <= 2)%Z
  /\ Rings.calculateRadii 100 2 Rings.uniform
       (Rings.Build_Options (Some 200) None None) = [100; 200]
  /\ ~ strictly_decreasing
         (Rings.calculateRadii 100 2 Rings.uniform
            (Rings.Build_Options (Some 200) None None)).
Proof.
  assert (E : Rings.calculateRadii 100 2 Rings.uniform
                (Rings.Build_Options (Some 200) None None) = [100; 200]).
  { assert (H2 : (2 <= 2)%Z) by lia.
    unfold Rings.calculateRadii. past_early_returns H2.
    cbn [Rings.opt_innerRadius]. rewrite or_default_nonzero by lra.
    unfold uniform_loop. rewrite (range_cons 0 2), (range_cons (0 + 1) 2), range_nil by lia.
    cbn [map Z.add Z.sub Pos.add Z.pos_sub Z.opp Pos.pred_double].
    repeat f_equal; lra. }
  split; [lia|]. split; [exact E|].
  rewrite E. cbn [strictly_decreasing]. lra.
Qed.

(** ** Shrinkage mode stops before a non-positive extent *)

Lemma shrinkage_loop_truncates (iters : nat) :
  forall current gap multiplier,
    shrinkage_loop iters current gap multiplier
    = positive_prefix (unbounded_shrinkage iters current gap multiplier).
Proof.
  induction iters as [|k IH]; intros current gap multiplier.
  - reflexivity.
  - cbn [shrinkage_loop unbounded_shrinkage positive_prefix]. cbv zeta.
    destruct (Rle_dec (current - gap) 0); [reflexivity|].
    now rewrite IH.
Qed.

Lemma positive_prefix_positive (l : list R) :
  Forall (fun v => 0 < v) (positive_prefix l).
Proof.
  induction l as [|a rest IH]; cbn [positive_prefix].
  - constructor.
  - destruct (Rle_dec a 0); constructor; [lra|assumption].
Qed.

Lemma positive_prefix_length (l : list R) :
  (length (positive_prefix l) <= length l)%nat.
Proof.
  induction l as [|a rest IH]; cbn [positive_prefix].
  - constructor.
  - destruct (Rle_dec a 0); cbn [length]; lia.
Qed.

Lemma unbounded_shrinkage_length (iters : nat) :
  forall current gap multiplier,
    length (unbounded_shrinkage iters current gap multiplier) = iters.
Proof.
  induction iters as [|k IH]; intros; cbn [unbounded_shrinkage length]; [|rewrite IH];
    reflexivity.
Qed.

Lemma truncated_shrinkage_intro (outer : R) (count : Z) (outerGap shrinkage : R) :
  (2 <= count)%Z ->
  truncated_shrinkage
    (outer :: shrinkage_loop (Z.to_nat (count - 1)) outer outerGap (1 - shrinkage))
    outer count outerGap shrinkage.
Proof.
  intros Hc. unfold truncated_shrinkage. rewrite shrinkage_loop_truncates.
  set (ideal := unbounded_shrinkage _ _ _ _).
  assert (Hlen : length ideal = Z.to_nat (count - 1))
    by apply unbounded_shrinkage_length.
  pose proof (positive_prefix_positive ideal) as Hpos.
  pose proof (positive_prefix_length ideal) as Hle.
  repeat split.
  - exact Hpos.
  - cbn [length]. lia.
  - cbn [length]. lia.
  - intros Ho. constructor; assumption.
Qed.

(** C2, as amended: in shrinkage mode, for every outer extent,
    [count >= 2], outer gap and shrinkage, the result is the outer
    extent followed by the shrinking series cut the instant its next term
    would be [<= 0]; every element after the first is strictly positive
    (so every element is, when the outer extent is positive) and the
    sequence has between one and [count] elements. *)
Theorem shrinkage_truncates_before_nonpositive :
  forall (outer : R) (count : Z) (outerGap shrinkage : R),
    (2 <= count)%Z ->
    truncated_shrinkage (Rings.calculateShrinkageRadii outer count outerGap shrinkage)
      outer count outerGap shrinkage
    /\ truncated_shrinkage (Squares.calculateShrinkageSizes outer count outerGap shrinkage)
         outer count outerGap shrinkage
    /\ truncated_shrinkage (Polygons.calculateShrinkageRadii outer count outerGap shrinkage)
         outer count outerGap shrinkage.
Proof.
  intros outer count outerGap shrinkage Hc.
  unfold Rings.calculateShrinkageRadii, Squares.calculateShrinkageSizes,
    Polygons.calculateShrinkageRadii.
  past_early_returns Hc. cbv zeta.
  repeat split; now apply truncated_shrinkage_intro.
Qed.

(** Ten rings asked for, three returned: 50, 30 and 10; the next extent
    would be -10. *)
Lemma shrinkage_truncates_before_nonpositive_witness :
  (2 <= 10)%Z
  /\ truncated_shrinkage (Rings.calculateShrinkageRadii 50 10 20 0) 50 10 20 0
  /\ Rings.calculateShrinkageRadii 50 10 20 0 = [50; 50 - 20; 50 - 20 - 20 * (1 - 0)].
Proof.
  assert (H10 : (2 <= 10)%Z) by lia.
  split; [exact H10|].
  destruct (shrinkage_truncates_before_nonpositive 50 10 20 0 H10) as [Hr _].
  split; [exact Hr|].
  destruct Hr as [-> _].
  change (Z.to_nat (10 - 1)) with 9%nat.
  cbn [unbounded_shrinkage positive_prefix].
  destruct (Rle_dec (50 - 20) 0); [lra|].
  destruct (Rle_dec (50 - 20 - 20 * (1 - 0)) 0); [lra|].
  destruct (Rle_dec (50 - 20 - 20 * (1 - 0) - 20 * (1 - 0) * (1 - 0)) 0); [|lra].
  reflexivity.
Defined.

(** C2 as stated fails at a non-positive outer extent: the first element
    is pushed before any test, so an outer radius of 0 is returned. *)
Lemma shrinkage_keeps_nonpositive_outer :
  (2 <= 2)%Z
  /\ Rings.calculateShrinkageRadii 0 2 18 0.05 = [0]
  /\ ~ Forall (fun v => 0 < v) (Rings.calculateShrinkageRadii 0 2 18 0.05).
Proof.
  assert (E : Rings.calculateShrinkageRadii 0 2 18 0.05 = [0]).
  { assert (H2 : (2 <= 2)%Z) by lia.
    unfold Rings.calculateShrinkageRadii. past_early_returns H2. cbv zeta.
    change (Z.to_nat (2 - 1)) with 1%nat. cbn [shrinkage_loop].
    destruct (Rle_dec (0 - 18) 0); [reflexivity|lra]. }
  split; [lia|]. split; [exact E|].
  rewrite E. intros H. inversion H; subst. lra.
Qed.

(** ** Golden-ratio spacing: gaps, sum and last radius *)

Lemma sum_gaps_telescopes (l : list R) :
  forall a, sum (gaps (a :: l)) = a - last (a :: l) a.
Proof.
  induction l as [|b rest IH]; intros a.
  - cbn [gaps sum fold_right last]. lra.
  - change (gaps (a :: b :: rest)) with ((a - b) :: gaps (b :: rest)).
    cbn [sum fold_right]. fold (sum (gaps (b :: rest))). rewrite IH.
    change (last (a :: b :: rest) a) with (last (b :: rest) a).
    rewrite (last_default_irrelevant (b :: rest) a b) by discriminate. lra.
Qed.

Lemma calculateRadii_goldenRatio (outer : R) (count : Z) (o : Rings.Options) :
  (2 <= count)%Z ->
  Rings.calculateRadii outer count Rings.goldenRatio o
  = outer :: Rings.goldenRatio_loop (range 1 count) count
               ((outer - or_default (Rings.opt_innerRadius o) (outer * 0.1))
                / phi_series (count - 1))
               outer.
Proof.
  intros Hc. unfold Rings.calculateRadii. past_early_returns Hc. cbv zeta.
  now rewrite goldenRatioSum_is_series by lia.
Qed.

Lemma phi_series_pos (n : Z) : (1 <= n)%Z -> 0 < phi_series n.
Proof.
  intros H. rewrite <- goldenRatioSum_is_series by lia. now apply goldenRatioSum_pos.
Qed.

(** C4, as amended: in goldenRatio mode with [count >= 2] the gap
    applied at step [i] is [unit * PHI^(count-1-i)], where [unit] is
    [outer - inner] divided by the sum of [PHI^k] for [k] from 0 to
    [count-2]; in exact arithmetic the gaps sum to [outer - inner] and the
    last radius is [inner] (the given inner radius, or [outer * 0.1] when
    it is left out or 0), and the gaps strictly shrink moving inward
    whenever [inner] is below [outer].  The running code computes in
    doubles and meets the sum and the last radius up to rounding. *)
Theorem goldenRatio_gaps_fill_the_range :
  forall (outer : R) (count : Z) (o : Rings.Options),
    (2 <= count)%Z ->
    let inner := or_default (Rings.opt_innerRadius o) (outer * 0.1) in
    let unit := (outer - inner) / phi_series (count - 1) in
    let r := Rings.calculateRadii outer count Rings.goldenRatio o in
    gaps r = map (fun i => unit * Math_pow PHI (count - 1 - i)) (range 1 count)
    /\ sum (gaps r) = outer - inner
    /\ last r outer = inner
    /\ (inner < outer -> strictly_decreasing (gaps r)).
Proof.
  intros outer count o Hc inner unit r.
  assert (Hr : r = outer :: Rings.goldenRatio_loop (range 1 count) count unit outer)
    by (apply calculateRadii_goldenRatio; assumption).
  pose proof (phi_series_pos (count - 1) ltac:(lia)) as Hs.
  assert (Hlast : last r outer = inner).
  { rewrite Hr, goldenRatio_loop_last by lia.
    replace ((Math_pow PHI (count - 1) - 1) / (PHI - 1)) with (phi_series (count - 1)).
    - unfold unit. field. lra.
    - rewrite <- goldenRatioSum_is_series by lia. unfold Rings.goldenRatioSum.
      destruct (count - 1 <=? 0)%Z eqn:E; [apply Z.leb_le in E; lia|reflexivity]. }
  assert (Hgaps : gaps r
                  = map (fun i => unit * Math_pow PHI (count - 1 - i)) (range 1 count)).
  { rewrite Hr. apply goldenRatio_loop_gaps. }
  split; [exact Hgaps|]. split; [|split; [exact Hlast|]].
  - rewrite Hr, sum_gaps_telescopes. rewrite <- Hr, Hlast. lra.
  - intros Hlt. rewrite Hgaps. apply strictly_decreasing_map_range.
    intros i Hi Hi'.
    assert (Hu : 0 < unit) by (apply Rdiv_lt_0_compat; lra).
    replace (count - 1 - i)%Z with ((count - 1 - (i + 1)) + 1)%Z by lia.
    rewrite PHI_pow_succ.
    set (p := Math_pow PHI (count - 1 - (i + 1))).
    assert (Hq : 0 < unit * p) by (apply Rmult_lt_0_compat; [assumption|apply PHI_pow_pos]).
    replace (unit * (PHI * p)) with (PHI * (unit * p)) by ring.
    pose proof PHI_gt_1. nra.
Qed.

Lemma goldenRatio_gaps_fill_the_range_witness :
  (2 <= 3)%Z
  /\ sum (gaps (Rings.calculateRadii 360 3 Rings.goldenRatio
                  (Rings.Build_Options (Some 36) None None))) = 360 - 36
  /\ last (Rings.calculateRadii 360 3 Rings.goldenRatio
             (Rings.Build_Options (Some 36) None None)) 360 = 36
  /\ strictly_decreasing
       (gaps (Rings.calculateRadii 360 3 Rings.goldenRatio
                (Rings.Build_Options (Some 36) None None))).
Proof.
  assert (H3 : (2 <= 3)%Z) by lia.
  split; [exact H3|].
  pose proof (goldenRatio_gaps_fill_the_range 360 3
                (Rings.Build_Options (Some 36) None None) H3) as H.
  cbv zeta in H. cbn [Rings.opt_innerRadius] in H.
  rewrite or_default_nonzero in H by lra.
  destruct H as [_ [Hsum [Hlast Hdec]]].
  split; [exact Hsum|]. split; [exact Hlast|]. apply Hdec. lra.
Defined.

(** C4 as stated fails when the inner radius equals the outer one: every
    gap is then 0 and the gaps do not shrink. *)
Lemma goldenRatio_gaps_need_not_shrink :
  (2 <= 3)%Z
  /\ gaps (Rings.calculateRadii 100 3 Rings.goldenRatio
             (Rings.Build_Options (Some 100) None None)) = [0; 0]
  /\ ~ strictly_decreasing
         (gaps (Rings.calculateRadii 100 3 Rings.goldenRatio
                  (Rings.Build_Options (Some 100) None None))).
Proof.
  assert (E : gaps (Rings.calculateRadii 100 3 Rings.goldenRatio
                      (Rings.Build_Options (Some 100) None None)) = [0; 0]).
  { rewrite calculateRadii_goldenRatio by lia. rewrite goldenRatio_loop_gaps.
    cbn [Rings.opt_innerRadius]. rewrite or_default_nonzero by lra.
    rewrite (range_cons 1 3), (range_cons (1 + 1) 3), range_nil by lia.
    cbn [map]. unfold Rdiv. rewrite Rminus_diag.
    repeat f_equal; ring. }
  split; [lia|]. split; [exact E|].
  rewrite E. cbn [strictly_decreasing]. lra.
Qed.

(** ** Ring generator: solid outer ring, segmented inner rings *)



Lemma generateArc_is_arc (center : Point2D) (radius startAngle endAngle : R) :
  is_arc_subpath (Rings.generateArc center radius startAngle endAngle).
Proof.
  unfold is_arc_subpath, Rings.generateArc, build, arcTo, moveTo, newPathBuilder.
  cbn [app]. repeat eexists.
Qed.



Lemma circleToPath_is_closed_circle (center : Point2D) (radius : R) :
  circleToPath center radius = closed_circle center radius.
Proof. reflexivity. Qed.









(** ** Spiral arm: samples and curve commands *)

Lemma Int_part_IZR (k : Z) : Int_part (IZR k) = k.
Proof. symmetry. apply Int_part_spec. lra. Qed.

Lemma Math_ceil_IZR (k : Z) : Math_ceil (IZR k) = k.
Proof.
  unfold Math_ceil. rewrite <- opp_IZR, Int_part_IZR. lia.
Qed.

Lemma spiralPoints_length (center : Point2D) (innerRadius outerRadius startAngle turns : R)
    (spiralType : Spirals.SpiralType) (growthFactor : R) :
  length (Spirals.spiralPoints center innerRadius outerRadius startAngle turns
            spiralType growthFactor)
  = Z.to_nat (Math_ceil (turns * 32) + 1).
Proof.
  unfold Spirals.spiralPoints. cbv zeta.
  rewrite length_map, range_length. f_equal. lia.
Qed.

Lemma pointsToBezierPath_few (points : list Point2D) :
  (length points < 2)%nat -> Spirals.pointsToBezierPath points = [].
Proof.
  intros H. unfold Spirals.pointsToBezierPath.
  apply Nat.ltb_lt in H. now rewrite H.
Qed.

Lemma pointsToBezierPath_two (points : list Point2D) :
  length points = 2%nat ->
  exists ax ay bx_ by_,
    Spirals.pointsToBezierPath points = [BezM ax ay; BezL bx_ by_].
Proof.
  intros H. unfold Spirals.pointsToBezierPath. rewrite H.
  cbn [Nat.ltb Nat.leb Nat.eqb]. repeat eexists.
Qed.

Lemma pointsToBezierPath_many (points : list Point2D) :
  (3 <= length points)%nat ->
  exists ax ay curves,
    Spirals.pointsToBezierPath points = BezM ax ay :: curves
    /\ length curves = (length points - 1)%nat
    /\ Forall is_curve curves.
Proof.
  intros H. unfold Spirals.pointsToBezierPath.
  destruct (length points <? 2)%nat eqn:E2; [apply Nat.ltb_lt in E2; lia|].
  destruct (length points =? 2)%nat eqn:E3; [apply Nat.eqb_eq in E3; lia|].
  do 3 eexists. split; [reflexivity|]. split.
  - now rewrite length_map, length_seq.
  - apply Forall_forall. intros c Hc. apply in_map_iff in Hc.
    destruct Hc as [i [<- _]]. exact I.
Qed.

(** C6, as amended: every spiral arm samples [ceil(turns * 32) + 1]
    points (one per segment end, none when that number is not positive).
    With fewer than 2 samples [generateSpiralArm] returns the empty
    string; with exactly 2 it returns one move and one line and no curve;
    with [n >= 3] it returns one move followed by exactly [n - 1] cubic
    Bezier commands. *)
Theorem spiral_arm_samples_and_commands :
  forall (center : Point2D) (innerRadius outerRadius startAngle turns : R)
         (spiralType : Spirals.SpiralType) (growthFactor : R),
    let points :=
      Spirals.spiralPoints center innerRadius outerRadius startAngle turns
        spiralType growthFactor in
    let arm :=
      Spirals.generateSpiralArm center innerRadius outerRadius startAngle turns
        spiralType growthFactor in
    let n := length points in
    n = Z.to_nat (Math_ceil (turns * 32) + 1)
    /\ ((n < 2)%nat -> arm = [])
    /\ (n = 2%nat -> exists ax ay bx_ by_, arm = [BezM ax ay; BezL bx_ by_])
    /\ ((3 <= n)%nat ->
        exists ax ay curves,
          arm = BezM ax ay :: curves
          /\ length curves = (n - 1)%nat
          /\ Forall is_curve curves).
Proof.
  intros center innerRadius outerRadius startAngle turns spiralType growthFactor
    points arm n.
  split; [apply spiralPoints_length|].
  subst arm n. unfold Spirals.generateSpiralArm. fold points.
  split; [apply pointsToBezierPath_few|].
  split; [apply pointsToBezierPath_two|apply pointsToBezierPath_many].
Qed.

(** C6 as stated fails: for [turns = 1/32] the value of
    [ceil(turns * 32)] is 1, yet two points are sampled and the arm is a
    move and a line rather than the empty string. *)
Lemma spiral_samples_one_more_than_segments :
  let center := {| x := 0; y := 0 |} in
  Math_ceil (1 / 32 * 32) = 1%Z
  /\ length (Spirals.spiralPoints center 10 360 0 (1 / 32) Spirals.archimedean 0.2)
     = 2%nat
  /\ length (Spirals.spiralPoints center 10 360 0 (1 / 32) Spirals.archimedean 0.2)
     <> Z.to_nat (Math_ceil (1 / 32 * 32))
  /\ Spirals.generateSpiralArm center 10 360 0 (1 / 32) Spirals.archimedean 0.2 <> [].
Proof.
  intros center.
  assert (Hceil : Math_ceil (1 / 32 * 32) = 1%Z).
  { replace (1 / 32 * 32) with (IZR 1) by lra. apply Math_ceil_IZR. }
  assert (Hlen : length (Spirals.spiralPoints center 10 360 0 (1 / 32)
                           Spirals.archimedean 0.2) = 2%nat).
  { rewrite spiralPoints_length, Hceil. reflexivity. }
  split; [exact Hceil|]. split; [exact Hlen|]. split.
  - rewrite Hlen, Hceil. discriminate.
  - unfold Spirals.generateSpiralArm.
    destruct (pointsToBezierPath_two _ Hlen) as (ax & ay & bx_ & by_ & ->).
    discriminate.
Qed.

Lemma spiral_arm_samples_and_commands_witness :
  let center := {| x := 0; y := 0 |} in
  length (Spirals.spiralPoints center 10 360 0 3 Spirals.logarithmic 0.2) = 97%nat
  /\ exists ax ay curves,
       Spirals.generateSpiralArm center 10 360 0 3 Spirals.logarithmic 0.2
       = BezM ax ay :: curves
       /\ length curves = 96%nat.
Proof.
  intros center.
  destruct (spiral_arm_samples_and_commands center 10 360 0 3 Spirals.logarithmic 0.2)
    as [Hn [_ [_ Hmany]]].
  assert (Hceil : Math_ceil (3 * 32) = 96%Z).
  { replace (3 * 32) with (IZR 96) by lra. apply Math_ceil_IZR. }
  rewrite Hceil in Hn. change (Z.to_nat (96 + 1)) with 97%nat in Hn.
  split; [exact Hn|].
  rewrite Hn in Hmany.
  destruct (Hmany ltac:(lia)) as (ax & ay & curves & Harm & Hlen & _).
  exists ax, ay, curves. split; [exact Harm|exact Hlen].
Defined.

(** ** The output mini-language *)

Lemma Math_pow_10_2 : Math_pow 10 2 = 100.
Proof. unfold Math_pow. simpl. lra. Qed.

Lemma round_two_decimals (v : R) : two_decimals (round v 2).
Proof.
  exists (Math_round (v * 100)). unfold round. cbv zeta.
  now rewrite Math_pow_10_2.
Qed.

Lemma toFixed_three_decimals (v : R) : three_decimals (toFixed v 3).
Proof.
  unfold toFixed, three_decimals. cbv zeta.
  assert (E : powerRZ 10 3 = 1000) by (simpl; lra).
  rewrite E. destruct (Rlt_dec v 0).
  - exists (- Int_part (- v * 1000 + / 2))%Z. rewrite opp_IZR. lra.
  - now exists (Int_part (v * 1000 + / 2)).
Qed.

Create HintDb tokens discriminated.

Lemma builder_path_new : builder_path newPathBuilder.
Proof. constructor. Qed.

Lemma builder_path_app (p q : path) :
  builder_path p -> builder_path q -> builder_path (p ++ q).
Proof. intros Hp Hq. apply Forall_app. now split. Qed.

Lemma builder_path_moveTo (pt : Point2D) (b : PathBuilder) :
  builder_path b -> builder_path (moveTo pt b).
Proof.
  intros Hb. apply builder_path_app; [assumption|].
  repeat constructor; apply round_two_decimals.
Qed.

Lemma builder_path_lineTo (pt : Point2D) (b : PathBuilder) :
  builder_path b -> builder_path (lineTo pt b).
Proof.
  intros Hb. apply builder_path_app; [assumption|].
  repeat constructor; apply round_two_decimals.
Qed.

Lemma builder_path_arcTo (radius : R) (pt : Point2D) (largeArc sweep : bool)
    (b : PathBuilder) :
  builder_path b -> builder_path (arcTo radius pt largeArc sweep b).
Proof.
  intros Hb. apply builder_path_app; [assumption|].
  constructor; [|constructor]. cbn [builder_token]. unfold flag.
  repeat split; try apply round_two_decimals.
  - destruct largeArc; auto.
  - destruct sweep; auto.
Qed.

Lemma builder_path_closePath (b : PathBuilder) :
  builder_path b -> builder_path (closePath b).
Proof.
  intros Hb. apply builder_path_app; [assumption|]. repeat constructor.
Qed.

Lemma builder_path_build (b : PathBuilder) : builder_path b -> builder_path (build b).
Proof. exact (fun H => H). Qed.

Lemma builder_path_join (paths : list path) :
  Forall builder_path paths -> builder_path (join paths).
Proof.
  unfold join. induction 1 as [|p rest Hp _ IH]; cbn [concat].
  - constructor.
  - now apply builder_path_app.
Qed.

#[local] Hint Resolve builder_path_new builder_path_moveTo builder_path_lineTo
  builder_path_arcTo builder_path_closePath builder_path_build : tokens.

Lemma circleToPath_tokens (center : Point2D) (radius : R) :
  builder_path (circleToPath center radius).
Proof. unfold circleToPath. auto 8 with tokens. Qed.

Lemma lineToPath_tokens (p q : Point2D) : builder_path (lineToPath p q).
Proof. unfold lineToPath. auto with tokens. Qed.

Lemma generateArc_tokens (center : Point2D) (radius startAngle endAngle : R) :
  builder_path (Rings.generateArc center radius startAngle endAngle).
Proof. unfold Rings.generateArc. auto with tokens. Qed.

#[local] Hint Resolve circleToPath_tokens lineToPath_tokens generateArc_tokens : tokens.

Lemma Forall_map_all {A B : Type} (P : B -> Prop) (f : A -> B) (l : list A) :
  (forall a, P (f a)) -> Forall P (map f l).
Proof. intros H. apply Forall_forall. intros b Hb. apply in_map_iff in Hb.
  destruct Hb as [a [<- _]]. apply H. Qed.

Lemma generateRingWithCuts_tokens (center : Point2D) (radius : R) (cutCount : Z)
    (cutWidth rotation : R) :
  builder_path (Rings.generateRingWithCuts center radius cutCount cutWidth rotation).
Proof.
  unfold Rings.generateRingWithCuts. cbv zeta.
  destruct (cutCount <=? 0)%Z; [auto with tokens|].
  destruct (Rle_dec _ 0); [auto with tokens|].
  apply builder_path_join, Forall_map_all. auto with tokens.
Qed.

Lemma Forall_mapi_from {A B : Type} (P : B -> Prop) (f : A -> Z -> B) (l : list A) :
  (forall a k, P (f a k)) -> forall k, Forall P (mapi_from f k l).
Proof.
  intros H. induction l as [|a rest IH]; intros k; cbn [mapi_from]; constructor; auto.
Qed.

Lemma generateRingPattern_tokens (config : Rings.PartialRingPatternConfig) :
  Forall (fun ring => builder_path (Rings.pathData ring))
         (Rings.rings (Rings.generateRingPattern config))
  /\ (forall boundary,
        Rings.outerBoundary (Rings.generateRingPattern config) = Some boundary ->
        builder_path boundary).
Proof.
  unfold Rings.generateRingPattern. cbv zeta.
  cbn [Rings.rings Rings.outerBoundary]. split.
  - unfold mapi. apply Forall_mapi_from. intros radius k. cbn [Rings.pathData].
    destruct ((k =? 0)%Z || _)%bool;
      [apply circleToPath_tokens|apply generateRingWithCuts_tokens].
  - intros boundary. destruct (Rings.showOuterBoundary _); [|discriminate].
    intros [= <-]. apply circleToPath_tokens.
Qed.

Lemma generateHalfCircleRings_tokens (center : Point2D) (radii : list R)
    (bridgeWidth : R) (topHalf : bool) :
  Forall builder_path (Rings.generateHalfCircleRings center radii bridgeWidth topHalf).
Proof.
  unfold Rings.generateHalfCircleRings. apply Forall_map_all. intros radius.
  cbv zeta. destruct topHalf; apply generateArc_tokens.
Qed.

Lemma generateBridgeConnectors_tokens (center : Point2D) (innerRadius outerRadius : R)
    (count : Z) (startAngle : R) :
  Forall builder_path
         (Rings.generateBridgeConnectors center innerRadius outerRadius count startAngle).
Proof.
  unfold Rings.generateBridgeConnectors. cbv zeta. apply Forall_map_all.
  intros i. auto with tokens.
Qed.

Lemma fold_left_preserves {A B : Type} (P : A -> Prop) (f : A -> B -> A) (l : list B) :
  (forall a b, P a -> P (f a b)) -> forall a, P a -> P (fold_left f l a).
Proof.
  intros Hf. induction l as [|b rest IH]; intros a Ha; cbn [fold_left]; auto.
Qed.

Lemma generateSquare_tokens (center : Point2D) (size rotationDeg : R) (clockwise : bool) :
  builder_path (Squares.generateSquare center size rotationDeg clockwise).
Proof.
  unfold Squares.generateSquare. cbv zeta. destruct clockwise; auto 10 with tokens.
Qed.

Lemma drawSideWithNotches_tokens (builder : PathBuilder) (p q : Point2D)
    (notchCount : Z) (notchHalf segmentLength : R) :
  builder_path builder ->
  builder_path (Squares.drawSideWithNotches builder p q notchCount notchHalf segmentLength).
Proof.
  intros Hb. unfold Squares.drawSideWithNotches. cbv zeta.
  destruct (notchCount <=? 0)%Z; [assumption|].
  apply fold_left_preserves; [|assumption].
  intros b i Hb'. unfold Squares.drawNotch. cbv zeta. auto with tokens.
Qed.

#[local] Hint Resolve drawSideWithNotches_tokens : tokens.

Lemma generateSquareWithNotches_tokens (center : Point2D) (size rotationDeg : R)
    (clockwise : bool) (notchesPerSide : Z) (notchWidth : R) :
  builder_path
    (Squares.generateSquareWithNotches center size rotationDeg clockwise
       notchesPerSide notchWidth).
Proof.
  unfold Squares.generateSquareWithNotches. cbv zeta.
  destruct clockwise; auto 12 with tokens.
Qed.

Lemma generateSquarePattern_tokens (config : Squares.PartialSquarePatternConfig) :
  Forall (fun square => builder_path (Squares.pathData square))
         (Squares.squares (Squares.generateSquarePattern config))
  /\ (forall boundary,
        Squares.outerBoundary (Squares.generateSquarePattern config) = Some boundary ->
        builder_path boundary).
Proof.
  unfold Squares.generateSquarePattern. cbv zeta.
  cbn [Squares.squares Squares.outerBoundary]. split.
  - unfold mapi. apply Forall_mapi_from. intros size k. cbn [Squares.pathData].
    destruct (_ >? 0)%Z;
      [apply generateSquareWithNotches_tokens|apply generateSquare_tokens].
  - intros boundary. destruct (Squares.showOuterBoundary _); [|discriminate].
    intros Hb. apply (f_equal (fun o => match o with Some b => b | None => boundary end)) in Hb.
    rewrite <- Hb. apply generateSquare_tokens.
Qed.

Lemma generatePolygon_tokens (center : Point2D) (radius : R) (sides : Z)
    (rotationDeg : R) (p : path) :
  Polygons.generatePolygon center radius sides rotationDeg = Some p -> builder_path p.
Proof.
  unfold Polygons.generatePolygon. cbv zeta.
  destruct (Polygons.getPolygonVertices _ _ _ _) as [|first others]; [discriminate|].
  intros [= <-]. apply builder_path_build, builder_path_closePath.
  apply fold_left_preserves; auto with tokens.
Qed.

Lemma Forall_concat {A : Type} (P : A -> Prop) (ls : list (list A)) :
  Forall (Forall P) ls -> Forall P (concat ls).
Proof.
  induction 1 as [|l rest Hl _ IH]; cbn [concat].
  - constructor.
  - apply Forall_app. now split.
Qed.

Lemma edgePaths_tokens (vertices : list Point2D) (sides bridgesPerEdge : Z)
    (bridgeGap : R) (i : Z) :
  Forall builder_path (Polygons.edgePaths vertices sides bridgesPerEdge bridgeGap i).
Proof.
  unfold Polygons.edgePaths. cbv zeta.
  destruct (bridgesPerEdge =? 0)%Z.
  - constructor; auto with tokens.
  - apply Forall_concat, Forall_map_all. intros j.
    destruct (Polygons.segmentBounds _ _ _ _ j) as [tStart tEnd].
    destruct (Rlt_dec tStart tEnd); constructor; auto with tokens.
Qed.

Lemma generatePolygonWithBridges_tokens (center : Point2D) (radius : R) (sides : Z)
    (rotationDeg : R) (bridgeCount : Z) (bridgeWidth : R) :
  builder_path
    (Polygons.generatePolygonWithBridges center radius sides rotationDeg
       bridgeCount bridgeWidth).
Proof.
  unfold Polygons.generatePolygonWithBridges. cbv zeta.
  apply builder_path_join, Forall_concat, Forall_map_all.
  intros i. apply edgePaths_tokens.
Qed.

Lemma pointsToBezierPath_tokens (points : list Point2D) :
  bezier_path (Spirals.pointsToBezierPath points).
Proof.
  unfold Spirals.pointsToBezierPath, bezier_path.
  destruct (length points <? 2)%nat; [constructor|].
  destruct (length points =? 2)%nat.
  - repeat constructor; apply toFixed_three_decimals.
  - constructor.
    + split; apply toFixed_three_decimals.
    + apply Forall_map_all. intros i. cbv zeta. cbn [bezier_token x y].
      repeat split; apply toFixed_three_decimals.
Qed.

Lemma all_returned_Forall {A : Type} (P : A -> Prop) (calls : list (option A)) :
  Forall (fun call => forall v, call = Some v -> P v) calls ->
  forall vs, Polygons.all_returned calls = Some vs -> Forall P vs.
Proof.
  induction 1 as [|call rest Hcall _ IH]; intros vs; cbn [Polygons.all_returned].
  - intros [= <-]. constructor.
  - destruct call as [v|]; [|discriminate].
    destruct (Polygons.all_returned rest) as [vs'|]; [|discriminate].
    intros [= <-]. constructor; [now apply Hcall|now apply IH].
Qed.

Lemma generatePolygonPattern_tokens (config : Polygons.PartialPolygonPatternConfig)
    (pattern : Polygons.GeneratedPolygonPattern) :
  Polygons.generatePolygonPattern config = Some pattern ->
  Forall (fun polygon => builder_path (Polygons.pathData polygon))
         (Polygons.polygons pattern)
  /\ (forall boundary,
        Polygons.outerBoundary pattern = Some boundary -> builder_path boundary).
Proof.
  unfold Polygons.generatePolygonPattern. cbv zeta.
  destruct (Polygons.all_returned _) as [polygons|] eqn:Hall; [|discriminate].
  destruct (Polygons.showOuterBoundary _).
  - destruct (Polygons.generatePolygon _ _ _ _) as [boundary|] eqn:Hb; [|discriminate].
    cbn [option_map]. intros [= <-]. cbn [Polygons.polygons Polygons.outerBoundary].
    split.
    + revert Hall. apply all_returned_Forall. unfold mapi.
      apply Forall_mapi_from. intros radius k polygon.
      destruct (_ >? 0)%Z; cbn [option_map].
      * intros [= <-]. apply generatePolygonWithBridges_tokens.
      * destruct (Polygons.generatePolygon _ radius _ _) as [p|] eqn:Hp; [|discriminate].
        cbn [option_map]. intros [= <-]. exact (generatePolygon_tokens _ _ _ _ _ Hp).
    + intros b [= <-]. exact (generatePolygon_tokens _ _ _ _ _ Hb).
  - intros [= <-]. cbn [Polygons.polygons Polygons.outerBoundary].
    split; [|discriminate].
    revert Hall. apply all_returned_Forall. unfold mapi.
    apply Forall_mapi_from. intros radius k polygon.
    destruct (_ >? 0)%Z; cbn [option_map].
    + intros [= <-]. apply generatePolygonWithBridges_tokens.
    + destruct (Polygons.generatePolygon _ radius _ _) as [p|] eqn:Hp; [|discriminate].
      cbn [option_map]. intros [= <-]. exact (generatePolygon_tokens _ _ _ _ _ Hp).
Qed.

Lemma generateSpiralPattern_tokens (config : Spirals.PartialSpiralPatternConfig) :
  Forall (fun arm => bezier_path (Spirals.pathData arm))
         (Spirals.arms (Spirals.generateSpiralPattern config))
  /\ (forall boundary,
        Spirals.outerBoundary (Spirals.generateSpiralPattern config) = Some boundary ->
        builder_path boundary).
Proof.
  unfold Spirals.generateSpiralPattern. cbv zeta.
  cbn [Spirals.arms Spirals.outerBoundary]. split.
  - apply Forall_map_all. intros i. cbn [Spirals.pathData].
    apply pointsToBezierPath_tokens.
  - intros boundary. destruct (Spirals.showOuterBoundary _); [|discriminate].
    intros [= <-]. apply circleToPath_tokens.
Qed.

(** C5, as amended: every path string emitted by the ring, square and
    polygon generators is built by [PathBuilder] and uses only the tokens
    [M x,y], [L x,y], [A rx,ry 0 largeArcFlag,sweepFlag x,y] and [Z], with
    every coordinate rounded to 2 decimal places; the spiral arm paths are
    written by [pointsToBezierPath] instead and use only [M x y], [L x y]
    and [C x y, x y, x y] with 3 decimal places (the outer boundary of a
    spiral pattern is again a [PathBuilder] circle).  This holds at every
    input at which the generator divides by no zero and [Math.exp] stays
    in range: a ring that is cut has a radius other than 0, and a ring
    pattern with cuts a [gridDivisions] other than 0; a square that is
    notched has a size other than 0; a polygon whose edges carry bridges
    has a radius other than 0 and two sides or more; a logarithmic spiral
    has a growth factor in range.  At the inputs left out the code prints
    [NaN] in place of a coordinate. *)
Theorem generator_paths_use_their_tokens :
  (forall center radius, builder_path (circleToPath center radius))
  /\ (forall center radius cutCount cutWidth rotation,
         ((0 < cutCount)%Z -> radius <> 0) ->
         builder_path (Rings.generateRingWithCuts center radius cutCount cutWidth rotation))
  /\ (forall config,
         ((0 < Rings.cutCount (Rings.merge config))%Z ->
          Rings.gridDivisions (Rings.merge config) <> 0
          /\ Forall (fun radius => radius <> 0)
                    (tl (Rings.radii (Rings.generateRingPattern config)))) ->
         Forall (fun ring => builder_path (Rings.pathData ring))
                (Rings.rings (Rings.generateRingPattern config))
         /\ (forall boundary,
               Rings.outerBoundary (Rings.generateRingPattern config) = Some boundary ->
               builder_path boundary))
  /\ (forall center radii bridgeWidth topHalf,
         Forall (fun radius => radius <> 0) radii ->
         Forall builder_path
                (Rings.generateHalfCircleRings center radii bridgeWidth topHalf))
  /\ (forall center innerRadius outerRadius count startAngle,
         Forall builder_path
                (Rings.generateBridgeConnectors center innerRadius outerRadius count
                   startAngle))
  /\ (forall center size rotationDeg clockwise,
         builder_path (Squares.generateSquare center size rotationDeg clockwise))
  /\ (forall center size rotationDeg clockwise notchesPerSide notchWidth,
         ((0 < notchesPerSide)%Z -> size <> 0) ->
         builder_path
           (Squares.generateSquareWithNotches center size rotationDeg clockwise
              notchesPerSide notchWidth))
  /\ (forall config,
         ((0 < Squares.notchesPerSide (Squares.merge config))%Z ->
          Forall (fun size => size <> 0)
                 (Squares.sizes (Squares.generateSquarePattern config))) ->
         Forall (fun square => builder_path (Squares.pathData square))
                (Squares.squares (Squares.generateSquarePattern config))
         /\ (forall boundary,
               Squares.outerBoundary (Squares.generateSquarePattern config)
               = Some boundary ->
               builder_path boundary))
  /\ (forall center radius sides rotationDeg p,
         Polygons.generatePolygon center radius sides rotationDeg = Some p ->
         builder_path p)
  /\ (forall center radius sides rotationDeg bridgeCount bridgeWidth,
         ((1 <= sides <= bridgeCount)%Z -> radius <> 0 /\ (2 <= sides)%Z) ->
         builder_path
           (Polygons.generatePolygonWithBridges center radius sides rotationDeg
              bridgeCount bridgeWidth))
  /\ (forall config pattern,
         Polygons.generatePolygonPattern config = Some pattern ->
         ((1 <= Polygons.sides (Polygons.merge config)
             <= Polygons.bridgeCount (Polygons.merge config))%Z ->
          (2 <= Polygons.sides (Polygons.merge config))%Z
          /\ Forall (fun radius => radius <> 0) (Polygons.radii pattern)) ->
         Forall (fun polygon => builder_path (Polygons.pathData polygon))
                (Polygons.polygons pattern)
         /\ (forall boundary,
               Polygons.outerBoundary pattern = Some boundary -> builder_path boundary))
  /\ (forall center innerRadius outerRadius startAngle turns spiralType growthFactor,
         (spiralType = Spirals.logarithmic -> growth_factor_in_range growthFactor) ->
         bezier_path
           (Spirals.generateSpiralArm center innerRadius outerRadius startAngle turns
              spiralType growthFactor))
  /\ (forall config,
         (Spirals.spiralType (Spirals.merge config) = Spirals.logarithmic ->
          growth_factor_in_range (Spirals.growthFactor (Spirals.merge config))) ->
         Forall (fun arm => bezier_path (Spirals.pathData arm))
                (Spirals.arms (Spirals.generateSpiralPattern config))
         /\ (forall boundary,
               Spirals.outerBoundary (Spirals.generateSpiralPattern config)
               = Some boundary ->
               builder_path boundary)).
Proof.
  split; [exact circleToPath_tokens|].
  split; [intros; apply generateRingWithCuts_tokens|].
  split; [intros config _; exact (generateRingPattern_tokens config)|].
  split; [intros; apply generateHalfCircleRings_tokens|].
  split; [exact generateBridgeConnectors_tokens|].
  split; [exact generateSquare_tokens|].
  split; [intros; apply generateSquareWithNotches_tokens|].
  split; [intros config _; exact (generateSquarePattern_tokens config)|].
  split; [exact generatePolygon_tokens|].
  split; [intros; apply generatePolygonWithBridges_tokens|].
  split; [intros config pattern Hp _; exact (generatePolygonPattern_tokens config pattern Hp)|].
  split; [|intros config _; exact (generateSpiralPattern_tokens config)].
  intros. apply pointsToBezierPath_tokens.
Qed.

(** C5 as stated fails on the spiral arm paths: the default three-turn
    arm begins with the curve fitter's own move command and holds 96
    cubic commands, none of which is a token of the mini-language. *)
Lemma spiral_arm_is_not_builder_path :
  ~ builder_path
      (Spirals.generateSpiralArm {| x := 0; y := 0 |} 10 360 0 3 Spirals.logarithmic 0.2).
Proof.
  assert (Hlen : length (Spirals.spiralPoints {| x := 0; y := 0 |} 10 360 0 3
                           Spirals.logarithmic 0.2) = 97%nat).
  { rewrite spiralPoints_length. replace (3 * 32) with (IZR 96) by lra.
    now rewrite Math_ceil_IZR. }
  unfold Spirals.generateSpiralArm.
  destruct (pointsToBezierPath_many
              (Spirals.spiralPoints {| x := 0; y := 0 |} 10 360 0 3
                 Spirals.logarithmic 0.2)) as (ax & ay & curves & -> & _ & _).
  - rewrite Hlen. lia.
  - intros H. inversion H as [|c l Hc _]. exact Hc.
Qed.

Lemma generator_paths_use_their_tokens_witness :
  builder_path (circleToPath {| x := 100; y := 100 |} 50)
  /\ builder_path (Rings.generateRingWithCuts {| x := 0; y := 0 |} 100 8 8 0)
  /\ builder_path
       (Squares.generateSquareWithNotches {| x := 0; y := 0 |} 10 0 true 1 2)
  /\ builder_path
       (Polygons.generatePolygonWithBridges {| x := 0; y := 0 |} 100 6 0 6 8)
  /\ bezier_path
       (Spirals.generateSpiralArm {| x := 0; y := 0 |} 10 360 0 3 Spirals.logarithmic 0.2).
Proof.
  destruct generator_paths_use_their_tokens
    as (Hcircle & Hcuts & _ & _ & _ & _ & Hnotch & _ & _ & Hbridge & _ & Hspiral & _).
  split; [apply Hcircle|].
  split; [apply Hcuts; intros _; lra|].
  split; [apply Hnotch; intros _; lra|].
  split; [apply Hbridge; intros _; split; [lra|lia]|].
  apply Hspiral. intros _. unfold growth_factor_in_range.
  rewrite Rabs_right by lra. lra.
Defined.

(** ** Notched squares: the walk stops short of its starting point *)

Lemma range_snoc (lo hi : Z) : (lo <= hi)%Z -> range lo (hi + 1) = range lo hi ++ [hi].
Proof.
  intros H. unfold range.
  replace (Z.to_nat (hi + 1 - lo)) with (S (Z.to_nat (hi - lo))) by lia.
  rewrite seq_S, map_app. cbn [map Nat.add]. do 2 f_equal. lia.
Qed.

(** A side with at least one notch leaves the pen lifted: the last
    command it writes is the move past the last notch. *)
Lemma drawSideWithNotches_ends_lifted (builder : PathBuilder) (p q : Point2D)
    (notchCount : Z) (notchHalf segmentLength : R) :
  (1 <= notchCount)%Z ->
  exists before mx my,
    Squares.drawSideWithNotches builder p q notchCount notchHalf segmentLength
    = before ++ [CmdM mx my].
Proof.
  intros Hn. unfold Squares.drawSideWithNotches. cbv zeta.
  destruct (notchCount <=? 0)%Z eqn:E; [apply Z.leb_le in E; lia|].
  rewrite range_snoc by lia. rewrite fold_left_app. cbn [fold_left].
  unfold Squares.drawNotch at 1. cbv zeta. unfold moveTo at 1.
  eexists _, _, _. reflexivity.
Qed.

(** Whatever the square, the walk of [generateSquareWithNotches] ends
    either with the line to the first corner (no notch on the final half
    side) or with the pen lifted past the last notch of that half side;
    in neither case with a line to the starting midpoint. *)
Lemma generateSquareWithNotches_end (center : Point2D) (size rotationDeg : R)
    (clockwise : bool) (notchesPerSide : Z) (notchWidth : R) :
  let walk :=
    Squares.generateSquareWithNotches center size rotationDeg clockwise
      notchesPerSide notchWidth in
  let corner0 :=
    Squares.corner (Squares.getSquareCorners center size rotationDeg) 0 in
  ((Math_floor (IZR notchesPerSide / 2) <= 0)%Z ->
   last walk CmdZ = CmdL (round (x corner0) 2) (round (y corner0) 2))
  /\ ((1 <= Math_floor (IZR notchesPerSide / 2))%Z ->
      exists mx my, last walk CmdZ = CmdM mx my).
Proof.
  cbv zeta. unfold Squares.generateSquareWithNotches. cbv zeta. split.
  - intros Hhalf. apply Z.leb_le in Hhalf.
    destruct clockwise; unfold Squares.drawSideWithNotches at 1; rewrite Hhalf;
      unfold build, lineTo at 1; apply last_last.
  - intros Hhalf.
    destruct clockwise;
      match goal with
      | |- context [Squares.drawSideWithNotches ?b ?p ?q (Math_floor _) ?h ?s] =>
          destruct (drawSideWithNotches_ends_lifted b p q _ h s Hhalf)
            as (before & mx & my & ->)
      end;
      exists mx, my; unfold build; apply last_last.
Qed.

Lemma round_exact (e : R) (k : Z) : e = IZR k -> round e 2 = IZR k.
Proof.
  intros ->. unfold round. cbv zeta. rewrite Math_pow_10_2.
  unfold Math_round. rewrite <- (Int_part_spec (IZR k * 100 + / 2) (k * 100)).
  - rewrite mult_IZR. field.
  - rewrite mult_IZR. lra.
Qed.

Lemma degToRad_0 : degToRad 0 = 0.
Proof. unfold degToRad. lra. Qed.

Lemma getSquareCorners_upright (size : R) :
  Squares.getSquareCorners {| x := 0; y := 0 |} size 0
  = [ {| x := - size; y := - size |}; {| x := size; y := - size |};
      {| x := size; y := size |}; {| x := - size; y := size |} ].
Proof.
  unfold Squares.getSquareCorners. cbv zeta.
  rewrite degToRad_0, cos_0, sin_0. cbn [map x y].
  repeat f_equal; lra.
Qed.

Lemma Math_floor_half : Math_floor (IZR 1 / 2) = 0%Z.
Proof. unfold Math_floor. symmetry. apply Int_part_spec. lra. Qed.

Ltac side_length :=
  match goal with
  | |- context [sqrt ?a] =>
      replace (sqrt a) with 20 by (symmetry; apply sqrt_lem_1; lra)
  end.

(** C7: the commands written for that square.  The walk starts at the
    midpoint (0,-10) of the top side, notches the three full sides once
    each, reaches the corner (-10,-10) and stops there: nothing is drawn
    along the final half side and the path does not come back to
    (0,-10). *)
Theorem notched_square_stops_at_corner :
  notched_square_path
  = [ CmdM 0 (-10); CmdL 10 (-10);
      CmdL 10 (-1); CmdM 10 1; CmdL 10 10;
      CmdL 1 10; CmdM (-1) 10; CmdL (-10) 10;
      CmdL (-10) 1; CmdM (-10) (-1); CmdL (-10) (-10) ]
  /\ hd_error notched_square_path = Some (CmdM 0 (-10))
  /\ last notched_square_path CmdZ = CmdL (-10) (-10)
  /\ last notched_square_path CmdZ <> CmdL 0 (-10).
Proof.
  assert (E : notched_square_path
              = [ CmdM 0 (-10); CmdL 10 (-10);
                  CmdL 10 (-1); CmdM 10 1; CmdL 10 10;
                  CmdL 1 10; CmdM (-1) 10; CmdL (-10) 10;
                  CmdL (-10) 1; CmdM (-10) (-1); CmdL (-10) (-10) ]).
  { unfold notched_square_path, Squares.generateSquareWithNotches. cbv zeta.
    rewrite getSquareCorners_upright, Math_floor_half.
    unfold Squares.drawSideWithNotches, Squares.corner. cbv zeta.
    cbn [nth Z.leb Z.compare Pos.compare].
    rewrite (range_cons 1 (1 + 1)), range_nil by lia.
    cbn [fold_left]. unfold Squares.drawNotch, Squares.interpolate. cbv zeta.
    unfold build, moveTo, lineTo, newPathBuilder. cbn [app x y].
    repeat side_length.
    change (IZR (1 + 1)) with 2.
    repeat f_equal; apply round_exact; lra. }
  rewrite E. cbn [hd_error last].
  repeat split; try reflexivity.
  intros H. injection H as H. lra.
Qed.

(** ** Degenerate cuts and bridges *)



Section BridgedEdge.

Variables (bridgesPerEdge : Z) (bridgeGap edgeLength : R).

Hypothesis at_least_one_bridge : (1 <= bridgesPerEdge)%Z.
Hypothesis positive_length : 0 < edgeLength.
Hypothesis gap_reaches_segment : edgeLength / IZR (bridgesPerEdge + 1) <= bridgeGap.

Let segmentLength : R := edgeLength / IZR (bridgesPerEdge + 1).

Lemma segmentLength_positive : 0 < segmentLength.
Proof.
  apply Rdiv_lt_0_compat; [assumption|]. apply IZR_lt. lia.
Qed.

Lemma segments_fill_edge : IZR (bridgesPerEdge + 1) * segmentLength = edgeLength.
Proof.
  unfold segmentLength. field.
  assert (0 < IZR (bridgesPerEdge + 1)) by (apply IZR_lt; lia). lra.
Qed.


End BridgedEdge.





Lemma sqrt_2_bounds (a : R) : a = 2 -> 0 < sqrt a <= 2.
Proof.
  intros ->. split.
  - apply sqrt_lt_R0. lra.
  - replace 2 with (sqrt (2 * 2)) at 2 by (apply sqrt_square; lra).
    apply sqrt_le_1_alt. lra.
Qed.

Ltac eval_index :=
  repeat match goal with
         | |- context [Z.to_nat ?z] =>
             let n := eval vm_compute in (Z.to_nat z) in
             change (Z.to_nat z) with n
         end.

Lemma unit_square_edge_length (i : Z) :
  In i [0; 1; 2; 3]%Z ->
  0 < edgeLengthOf [ {| x := 0; y := -1 |}; {| x := 1; y := 0 |};
                     {| x := 0; y := 1 |}; {| x := -1; y := 0 |} ] 4 i <= 2.
Proof.
  intros Hi. unfold edgeLengthOf, distance. cbv zeta.
  cbn [In] in Hi. unfold Polygons.vertex.
  destruct Hi as [<-|[<-|[<-|[<-|[]]]]];
    eval_index; cbn [nth x y]; apply sqrt_2_bounds; lra.
Qed.




(** ** Falsy options: the built-in default is the value used *)

Lemma last_map_range (f : Z -> R) (d : R) :
  forall lo hi, (lo < hi)%Z -> last (map f (range lo hi)) d = f (hi - 1)%Z.
Proof.
  intros lo hi Hlt.
  replace hi with ((hi - 1) + 1)%Z at 1 by lia.
  rewrite range_snoc by lia. rewrite map_app. cbn [map]. apply last_last.
Qed.

Lemma uniform_loop_last (outer inner d : R) (count : Z) :
  (2 <= count)%Z -> last (uniform_loop outer (outer - inner) count) d = inner.
Proof.
  intros Hc. unfold uniform_loop.
  assert (Hn : 0 < IZR (count - 1)) by (apply IZR_lt; lia).
  rewrite last_map_range by lia. cbv zeta. field. lra.
Qed.

Lemma shrinkage_loop_second (k : nat) (current gap multiplier : R) :
  0 < current - gap ->
  nth_error (current :: shrinkage_loop (S k) current gap multiplier) 1
  = Some (current - gap).
Proof.
  intros H. cbn [shrinkage_loop]. cbv zeta.
  destruct (Rle_dec (current - gap) 0); [lra|reflexivity].
Qed.

Lemma shrinkage_loop_third (k : nat) (current gap multiplier : R) :
  0 < current - gap ->
  0 < current - gap - gap * multiplier ->
  nth_error (current :: shrinkage_loop (S (S k)) current gap multiplier) 2
  = Some (current - gap - gap * multiplier).
Proof.
  intros H1 H2. cbn [shrinkage_loop]. cbv zeta.
  destruct (Rle_dec (current - gap) 0); [lra|].
  destruct (Rle_dec (current - gap - gap * multiplier) 0); [lra|reflexivity].
Qed.

Lemma steps_of_count (count : Z) (m : nat) :
  (Z.of_nat m + 1 <= count)%Z -> exists k, Z.to_nat (count - 1) = (m + k)%nat.
Proof. intros H. exists (Z.to_nat (count - 1) - m)%nat. lia. Qed.

(** C10: in each of the three spacing engines an option given as 0 is
    treated like an option left out, and both like the built-in default
    given explicitly: the inner extent defaults to [outer * 0.1], the
    outer gap to 18 (rings) or 24 (squares, polygons), the shrinkage to
    0.05.  The default is the value that shows in the result, the 0 is
    not: with the inner extent given as 0 the uniform sequence ends at
    [outer * 0.1]; with the outer gap given as 0 the second shrinkage
    extent is [outer - 18] (rings) or [outer - 24] (squares, polygons);
    with the shrinkage given as 0 the second shrinkage gap is the first
    one times [1 - 0.05]. *)
Theorem explicit_zero_option_is_ignored :
  forall (outer : R) (count : Z) (inner gap shr : option R),
    (forall mode,
        zero_means_default
          (fun v => Rings.calculateRadii outer count mode
                      (Rings.Build_Options v gap shr)) (outer * 0.1)
        /\ zero_means_default
             (fun v => Rings.calculateRadii outer count mode
                         (Rings.Build_Options inner v shr)) 18
        /\ zero_means_default
             (fun v => Rings.calculateRadii outer count mode
                         (Rings.Build_Options inner gap v)) 0.05)
    /\ (forall mode,
           zero_means_default
             (fun v => Squares.calculateSquareSizes outer count mode
                         (Squares.Build_Options v gap shr)) (outer * 0.1)
           /\ zero_means_default
                (fun v => Squares.calculateSquareSizes outer count mode
                            (Squares.Build_Options inner v shr)) 24
           /\ zero_means_default
                (fun v => Squares.calculateSquareSizes outer count mode
                            (Squares.Build_Options inner gap v)) 0.05)
    /\ (forall mode,
           zero_means_default
             (fun v => Polygons.calculatePolygonRadii outer count mode
                         (Polygons.Build_Options v gap shr)) (outer * 0.1)
           /\ zero_means_default
                (fun v => Polygons.calculatePolygonRadii outer count mode
                            (Polygons.Build_Options inner v shr)) 24
           /\ zero_means_default
                (fun v => Polygons.calculatePolygonRadii outer count mode
                            (Polygons.Build_Options inner gap v)) 0.05)
    /\ ((2 <= count)%Z ->
        last (Rings.calculateRadii outer count Rings.uniform
                (Rings.Build_Options (Some 0) gap shr)) outer
        = outer * 0.1
        /\ last (Squares.calculateSquareSizes outer count Squares.uniform
                   (Squares.Build_Options (Some 0) gap shr)) outer
           = outer * 0.1
        /\ last (Polygons.calculatePolygonRadii outer count Polygons.uniform
                   (Polygons.Build_Options (Some 0) gap shr)) outer
           = outer * 0.1)
    /\ ((2 <= count)%Z ->
        (18 < outer ->
         nth_error (Rings.calculateRadii outer count Rings.shrinkage
                      (Rings.Build_Options inner (Some 0) shr)) 1
         = Some (outer - 18))
        /\ (24 < outer ->
            nth_error (Squares.calculateSquareSizes outer count Squares.shrinkage
                         (Squares.Build_Options inner (Some 0) shr)) 1
            = Some (outer - 24))
        /\ (24 < outer ->
            nth_error (Polygons.calculatePolygonRadii outer count Polygons.shrinkage
                         (Polygons.Build_Options inner (Some 0) shr)) 1
            = Some (outer - 24)))
    /\ ((3 <= count)%Z ->
        forall g : R,
          g <> 0 -> 0 < outer - g -> 0 < outer - g - g * (1 - 0.05) ->
          nth_error (Rings.calculateRadii outer count Rings.shrinkage
                       (Rings.Build_Options inner (Some g) (Some 0))) 2
          = Some (outer - g - g * (1 - 0.05))
          /\ nth_error (Squares.calculateSquareSizes outer count Squares.shrinkage
                          (Squares.Build_Options inner (Some g) (Some 0))) 2
             = Some (outer - g - g * (1 - 0.05))
          /\ nth_error (Polygons.calculatePolygonRadii outer count Polygons.shrinkage
                          (Polygons.Build_Options inner (Some g) (Some 0))) 2
             = Some (outer - g - g * (1 - 0.05))).
Proof.
  intros outer count inner gap shr.
  split; [|split; [|split; [|split; [|split]]]].
  1-3: unfold zero_means_default, Rings.calculateRadii, Squares.calculateSquareSizes,
         Polygons.calculatePolygonRadii;
       repeat split;
       cbn [Rings.opt_innerRadius Rings.opt_outerGap Rings.opt_shrinkage
            Squares.opt_innerSize Squares.opt_outerGap Squares.opt_shrinkage
            Polygons.opt_innerRadius Polygons.opt_outerGap Polygons.opt_shrinkage];
       rewrite ?or_default_zero, ?or_default_default, ?or_default_none; reflexivity.
  - intros Hc.
    unfold Rings.calculateRadii, Squares.calculateSquareSizes,
      Polygons.calculatePolygonRadii.
    past_early_returns Hc. cbv zeta.
    cbn [Rings.opt_innerRadius Squares.opt_innerSize Polygons.opt_innerRadius].
    rewrite or_default_zero.
    repeat split; now apply uniform_loop_last.
  - intros Hc.
    destruct (steps_of_count count 1 ltac:(lia)) as [k Hk].
    unfold Rings.calculateRadii, Squares.calculateSquareSizes,
      Polygons.calculatePolygonRadii,
      Rings.calculateShrinkageRadii, Squares.calculateShrinkageSizes,
      Polygons.calculateShrinkageRadii.
    past_early_returns Hc. cbv zeta.
    cbn [Rings.opt_outerGap Squares.opt_outerGap Polygons.opt_outerGap].
    rewrite !or_default_zero, Hk.
    repeat split; intros Ho; apply shrinkage_loop_second; lra.
  - intros Hc g Hg H1 H2.
    assert (Hc2 : (2 <= count)%Z) by lia.
    destruct (steps_of_count count 2 ltac:(lia)) as [k Hk].
    unfold Rings.calculateRadii, Squares.calculateSquareSizes,
      Polygons.calculatePolygonRadii,
      Rings.calculateShrinkageRadii, Squares.calculateShrinkageSizes,
      Polygons.calculateShrinkageRadii.
    past_early_returns Hc2. cbv zeta.
    cbn [Rings.opt_outerGap Squares.opt_outerGap Polygons.opt_outerGap
         Rings.opt_shrinkage Squares.opt_shrinkage Polygons.opt_shrinkage].
    rewrite or_default_zero, !(or_default_nonzero g) by assumption. rewrite Hk.
    repeat split; now apply shrinkage_loop_third.
Qed.

(** Three rings of outer radius 360 with every option given as 0: the
    uniform radii end at 36, the shrinkage radii are 360, 342 and 324.9. *)
Lemma explicit_zero_option_is_ignored_witness :
  last (Rings.calculateRadii 360 3 Rings.uniform
          (Rings.Build_Options (Some 0) (Some 0) (Some 0))) 360
  = 360 * 0.1
  /\ nth_error (Rings.calculateRadii 360 3 Rings.shrinkage
                  (Rings.Build_Options (Some 0) (Some 0) (Some 0))) 1
     = Some (360 - 18)
  /\ nth_error (Rings.calculateRadii 360 3 Rings.shrinkage
                  (Rings.Build_Options (Some 0) (Some 18) (Some 0))) 2
     = Some (360 - 18 - 18 * (1 - 0.05)).
Proof.
  destruct (explicit_zero_option_is_ignored 360 3 (Some 0) (Some 0) (Some 0))
    as (_ & _ & _ & Hinner & Hgap & Hshr).
  split; [apply Hinner; lia|].
  split; [apply Hgap; [lia|lra]|].
  apply Hshr; [lia|lra|lra|lra].
Defined.

(** ** Where doubles depart from exact arithmetic

    The theorems of this development are stated over the reals.  The
    runs below evaluate the binary64 functions of module [Doubles] at
    ordinary inputs and show how far the statements carry over to the
    running code: equalities hold up to rounding, and a strict inequality
    can turn into an equality once a difference falls below the rounding
    step. *)

Module DoubleRuns.
Import PrimFloat.
#[local] Set Warnings "-inexact-float".
Local Open Scope float_scope.

(** Shrinkage spacing with outer radius 360, 50 rings, an outer gap of
    3.6 and a shrinkage of 0.5: all 50 radii are returned, and the last
    two are the same double, the gap between them having fallen below
    half the rounding step of 352.8. *)
Lemma doubles_shrinkage_radii_coincide :
  let radii := Doubles.calculateShrinkageRadii 360 50 3.6 0.5 in
  length radii = 50%nat
  /\ eqb (nth 48 radii 0) (nth 49 radii 0) = true.
Proof. vm_compute. split; reflexivity. Qed.

(** With the default gap 18 and shrinkage 0.05 the second gap of the
    returned radii, 342 - 324.9, is not the double [18 * (1 - 0.05)]. *)
Lemma doubles_shrinkage_gap_inexact :
  let radii := Doubles.calculateShrinkageRadii 360 3 18 0.05 in
  length radii = 3%nat
  /\ eqb (nth 1 (Doubles.gaps radii) 0) (18 * (1 - 0.05)) = false.
Proof. vm_compute. split; reflexivity. Qed.

(** The clockwise sweep from 0 to [1e-20] is the double [2 * Math.PI]
    itself, not a number below it. *)
Lemma doubles_arcSweep_reaches_full_turn :
  eqb (Doubles.arcSweep 0 1e-20 true) (2 * Doubles.Math_PI) = true.
Proof. vm_compute. reflexivity. Qed.

(** [lerp(0.7, 0.1, 1)] is below 0.1, and [lerp(1e16, 1, 1)] is 0. *)
Lemma doubles_lerp_misses_endpoint :
  ltb (Doubles.lerp 0.7 0.1 1) 0.1 = true
  /\ eqb (Doubles.lerp 1e16 1 1) 0 = true.
Proof. vm_compute. split; reflexivity. Qed.

(** Compensating the radius 0.1 for a kerf of 0.01 inches as an outer
    cut and then as an inner cut does not give back 0.1. *)
Lemma doubles_applyKerf_round_trip_off :
  eqb (Doubles.applyKerf (Doubles.applyKerf 0.1 0.01 true) 0.01 false) 0.1 = false.
Proof. vm_compute. reflexivity. Qed.

End DoubleRuns.

(** * Further properties of the code *)

(** ** Angles, circles and interpolation *)

(** X1: degrees to radians and back, and radians to degrees and back,
    return the number one started with. *)
Theorem degrees_radians_round_trip :
  forall v : R,
    Geometry.radToDeg (degToRad v) = v /\ degToRad (Geometry.radToDeg v) = v.
Proof.
  intros v. unfold Geometry.radToDeg, degToRad.
  pose proof PI_RGT_0. split; field; lra.
Qed.

Lemma sum_of_squares_on_circle (r a : R) :
  (r * cos a) * (r * cos a) + (r * sin a) * (r * sin a) = r * r.
Proof.
  pose proof (sin2_cos2 a) as H. unfold Rsqr in H.
  replace (r * cos a * (r * cos a) + r * sin a * (r * sin a))
    with (r * r * (sin a * sin a + cos a * cos a)) by ring.
  rewrite H. ring.
Qed.

Lemma sqrt_square_abs (r : R) : sqrt (r * r) = Rabs r.
Proof. apply sqrt_Rsqr_abs. Qed.

Lemma pointOnCircle_radius (center : Point2D) (radius angle : R) :
  distance center (pointOnCircle center radius angle) = Rabs radius.
Proof.
  unfold distance, pointOnCircle. cbv zeta. cbn [x y].
  rewrite <- sqrt_square_abs. f_equal.
  rewrite <- (sum_of_squares_on_circle radius angle). ring.
Qed.

(** X2: in exact arithmetic the point [pointOnCircle] returns lies at
    distance [|radius|] from the center, whatever the angle, and turning
    the angle by a full turn gives the same point.  (In doubles both hold
    up to rounding: [Math.sin(2 * Math.PI)] is about [-2.4e-16], not 0.) *)
Theorem pointOnCircle_at_radius :
  forall (center : Point2D) (radius angle : R),
    distance center (pointOnCircle center radius angle) = Rabs radius
    /\ pointOnCircle center radius (angle + 2 * PI) = pointOnCircle center radius angle.
Proof.
  intros center radius angle. split; [apply pointOnCircle_radius|].
  unfold pointOnCircle. now rewrite cos_plus, sin_plus, cos_2PI, sin_2PI,
    !Rmult_1_r, !Rmult_0_r, Rminus_0_r, Rplus_0_r.
Qed.

Lemma Int_part_bounds (v : R) : IZR (Int_part v) <= v < IZR (Int_part v) + 1.
Proof. pose proof (base_Int_part v). lra. Qed.

Lemma Math_trunc_bounds (v : R) :
  (v < 0 -> v <= IZR (Geometry.Math_trunc v) < v + 1)
  /\ (0 <= v -> v - 1 < IZR (Geometry.Math_trunc v) <= v).
Proof.
  unfold Geometry.Math_trunc, Math_ceil, Math_floor.
  destruct (Rlt_dec v 0) as [Hneg|Hpos]; split; intros H; try lra.
  - rewrite opp_IZR. pose proof (Int_part_bounds (- v)). lra.
  - pose proof (Int_part_bounds v). lra.
Qed.

(** The remainder by a positive number is smaller than it in size and
    has the sign of the dividend. *)
Lemma js_rem_bounds (a b : R) :
  0 < b ->
  (a < 0 -> - b < Geometry.js_rem a b <= 0)
  /\ (0 <= a -> 0 <= Geometry.js_rem a b < b).
Proof.
  intros Hb. unfold Geometry.js_rem.
  assert (Hq : a = b * (a / b)) by (field; lra).
  destruct (Math_trunc_bounds (a / b)) as [Hneg Hpos].
  split; intros Ha.
  - assert (Hlt : a / b < 0).
    { unfold Rdiv. apply Rmult_neg_pos; [assumption|now apply Rinv_0_lt_compat]. }
    specialize (Hneg Hlt). set (k := IZR (Geometry.Math_trunc (a / b))) in *.
    set (q := a / b) in *. split; nra.
  - assert (Hge : 0 <= a / b).
    { unfold Rdiv. apply Rmult_le_pos; [assumption|]. left. now apply Rinv_0_lt_compat. }
    specialize (Hpos Hge). set (k := IZR (Geometry.Math_trunc (a / b))) in *.
    set (q := a / b) in *. split; nra.
Qed.

(** X3: in exact arithmetic [normalizeAngle] returns an angle in
    [0, 2 PI) that differs from its argument by a whole number of turns.
    (In doubles the upper bound can be reached: adding [2 * Math.PI] to a
    tiny negative remainder such as [-1e-20] rounds to [2 * Math.PI].) *)
Theorem normalizeAngle_in_range :
  forall angle : R,
    0 <= Geometry.normalizeAngle angle < 2 * PI
    /\ exists turns : Z, Geometry.normalizeAngle angle = angle + IZR turns * (2 * PI).
Proof.
  intros angle. unfold Geometry.normalizeAngle. cbv zeta.
  assert (H2pi : 0 < 2 * PI) by (pose proof PI_RGT_0; lra).
  destruct (js_rem_bounds angle (2 * PI) H2pi) as [Hneg Hpos].
  destruct (Rlt_dec (Geometry.js_rem angle (2 * PI)) 0) as [Hlt|Hge].
  - split.
    + destruct (Rlt_dec angle 0) as [Ha|Ha]; [specialize (Hneg Ha); lra|].
      specialize (Hpos ltac:(lra)). lra.
    + exists (1 - Geometry.Math_trunc (angle / (2 * PI)))%Z.
      unfold Geometry.js_rem. rewrite minus_IZR. ring.
  - split.
    + destruct (Rlt_dec angle 0) as [Ha|Ha]; [specialize (Hneg Ha); lra|].
      specialize (Hpos ltac:(lra)). lra.
    + exists (- Geometry.Math_trunc (angle / (2 * PI)))%Z.
      unfold Geometry.js_rem. rewrite opp_IZR. ring.
Qed.

(** X4: in exact arithmetic, between two angles less than a full turn
    apart [arcSweep] is below [2 PI], and when the angles differ the
    clockwise and the counter-clockwise sweeps add up to one full turn.
    (In doubles both hold up to rounding, and the sweep can round to a
    full turn: [doubles_arcSweep_reaches_full_turn].) *)
Theorem arcSweep_complementary :
  forall startAngle endAngle : R,
    Rabs (endAngle - startAngle) < 2 * PI ->
    (forall clockwise,
        0 <= Geometry.arcSweep startAngle endAngle clockwise < 2 * PI)
    /\ (startAngle <> endAngle ->
        Geometry.arcSweep startAngle endAngle true
        + Geometry.arcSweep startAngle endAngle false = 2 * PI).
Proof.
  intros startAngle endAngle Hclose.
  assert (Hd : - (2 * PI) < endAngle - startAngle < 2 * PI).
  { revert Hclose. unfold Rabs. destruct (Rcase_abs _); lra. }
  unfold Geometry.arcSweep. cbv zeta. split.
  - intros [|].
    + destruct (Rgt_dec (endAngle - startAngle) 0); unfold Rabs;
        destruct (Rcase_abs _); lra.
    + destruct (Rlt_dec (endAngle - startAngle) 0); unfold Rabs;
        destruct (Rcase_abs _); lra.
  - intros Hne.
    destruct (Rgt_dec (endAngle - startAngle) 0);
      destruct (Rlt_dec (endAngle - startAngle) 0);
      unfold Rabs; repeat destruct (Rcase_abs _); lra.
Qed.

Lemma arcSweep_complementary_witness :
  Rabs (PI / 2 - 0) < 2 * PI
  /\ Geometry.arcSweep 0 (PI / 2) true + Geometry.arcSweep 0 (PI / 2) false = 2 * PI.
Proof.
  assert (H : Rabs (PI / 2 - 0) < 2 * PI).
  { pose proof PI_RGT_0. unfold Rabs. destruct (Rcase_abs _); lra. }
  split; [exact H|].
  apply (proj2 (arcSweep_complementary 0 (PI / 2) H)).
  pose proof PI_RGT_0. lra.
Defined.

(** X5: [arcToPath] writes one move to the start point and one arc to
    the end point; the large-arc flag is set exactly when the sweep
    [arcSweep] computes for the same angles and direction exceeds [PI],
    and the sweep flag is set exactly when the arc is not clockwise. *)
Theorem arcToPath_flags_follow_arcSweep :
  forall arc : Geometry.Arc,
    let dir := Geometry.truthy (Geometry.clockwise arc) in
    let startPoint :=
      pointOnCircle (Geometry.arc_center arc) (Geometry.arc_radius arc)
        (Geometry.startAngle arc) in
    let endPoint :=
      pointOnCircle (Geometry.arc_center arc) (Geometry.arc_radius arc)
        (Geometry.endAngle arc) in
    Geometry.arcToPath arc
    = [ CmdM (round (x startPoint) 2) (round (y startPoint) 2);
        CmdA (round (Geometry.arc_radius arc) 2) (round (Geometry.arc_radius arc) 2) 0
          (if Rgt_dec (Geometry.arcSweep (Geometry.startAngle arc)
                         (Geometry.endAngle arc) dir) PI
           then 1 else 0)%Z
          (if dir then 0 else 1)%Z
          (round (x endPoint) 2) (round (y endPoint) 2) ].
Proof.
  intros arc dir startPoint endPoint.
  unfold Geometry.arcToPath, Geometry.arcSweep. cbv zeta. fold dir.
  unfold build, arcTo, moveTo, newPathBuilder. cbn [app].
  destruct dir; cbn [negb];
    match goal with
    | |- context [Rgt_dec (Rabs ?s) PI] => destruct (Rgt_dec (Rabs s) PI)
    end; reflexivity.
Qed.

(** X6: in exact arithmetic [lerp] returns its first argument at 0, its
    second at 1, and a value between the two for every parameter between
    0 and 1.  (In doubles the second endpoint is met up to rounding only:
    [doubles_lerp_misses_endpoint].) *)
Theorem lerp_between_endpoints :
  forall a b t : R,
    lerp a b 0 = a
    /\ lerp a b 1 = b
    /\ (0 <= t <= 1 -> Rmin a b <= lerp a b t <= Rmax a b).
Proof.
  intros a b t. unfold lerp. repeat split; try ring.
  - unfold Rmin. destruct (Rle_dec a b); nra.
  - unfold Rmax. destruct (Rle_dec a b); nra.
Qed.

Lemma lerp_between_endpoints_witness :
  0 <= 0.5 <= 1 /\ Rmin 10 20 <= lerp 10 20 0.5 <= Rmax 10 20.
Proof.
  assert (H : 0 <= 0.5 <= 1) by lra.
  split; [exact H|].
  destruct (lerp_between_endpoints 10 20 0.5) as [_ [_ Hmid]]. exact (Hmid H).
Defined.

(** ** Bounding boxes *)

Section RunningBounds.

Variable coordinate : Point2D -> R.

Lemma running_minimum (points : list Point2D) :
  forall m0,
  exists m,
    fold_left (fun m p => Geometry.Math_min m (Geometry.Finite (coordinate p)))
              points (Geometry.Finite m0) = Geometry.Finite m
    /\ m <= m0
    /\ (forall p, In p points -> m <= coordinate p)
    /\ (m = m0 \/ exists p, In p points /\ coordinate p = m).
Proof.
  induction points as [|p rest IH]; intros m0; cbn [fold_left Geometry.Math_min].
  - exists m0. repeat split; [lra|contradiction|now left].
  - destruct (IH (Rmin m0 (coordinate p))) as (m & Hfold & Hle & Hall & Hatt).
    exists m. split; [exact Hfold|].
    pose proof (Rmin_l m0 (coordinate p)). pose proof (Rmin_r m0 (coordinate p)).
    split; [lra|]. split.
    + intros q [<-|Hq]; [lra|now apply Hall].
    + destruct Hatt as [Hm|(q & Hq & Hcq)].
      * destruct (Rmin_case m0 (coordinate p) (fun v => v = m0 \/ v = coordinate p));
          [now left|now right| |]; [left; lra|].
        right. exists p. split; [now left|lra].
      * right. exists q. split; [now right|assumption].
Qed.

Lemma running_maximum (points : list Point2D) :
  forall m0,
  exists m,
    fold_left (fun m p => Geometry.Math_max m (Geometry.Finite (coordinate p)))
              points (Geometry.Finite m0) = Geometry.Finite m
    /\ m0 <= m
    /\ (forall p, In p points -> coordinate p <= m)
    /\ (m = m0 \/ exists p, In p points /\ coordinate p = m).
Proof.
  induction points as [|p rest IH]; intros m0; cbn [fold_left Geometry.Math_max].
  - exists m0. repeat split; [lra|contradiction|now left].
  - destruct (IH (Rmax m0 (coordinate p))) as (m & Hfold & Hle & Hall & Hatt).
    exists m. split; [exact Hfold|].
    pose proof (Rmax_l m0 (coordinate p)). pose proof (Rmax_r m0 (coordinate p)).
    split; [lra|]. split.
    + intros q [<-|Hq]; [lra|now apply Hall].
    + destruct Hatt as [Hm|(q & Hq & Hcq)].
      * destruct (Rmax_case m0 (coordinate p) (fun v => v = m0 \/ v = coordinate p));
          [now left|now right| |]; [left; lra|].
        right. exists p. split; [now left|lra].
      * right. exists q. split; [now right|assumption].
Qed.

(** Started at an infinity, the running bound of a non-empty list is the
    least, respectively greatest, coordinate met. *)
Lemma minimum_from_infinity (points : list Point2D) :
  points <> [] ->
  exists m,
    fold_left (fun m p => Geometry.Math_min m (Geometry.Finite (coordinate p)))
              points Geometry.Infinity = Geometry.Finite m
    /\ (forall p, In p points -> m <= coordinate p)
    /\ (exists p, In p points /\ coordinate p = m).
Proof.
  destruct points as [|p rest]; [contradiction|]. intros _.
  cbn [fold_left Geometry.Math_min].
  destruct (running_minimum rest (coordinate p)) as (m & Hfold & Hle & Hall & Hatt).
  exists m. split; [exact Hfold|]. split.
  - intros q [<-|Hq]; [assumption|now apply Hall].
  - destruct Hatt as [->|(q & Hq & Hcq)].
    + exists p. split; [now left|reflexivity].
    + exists q. split; [now right|assumption].
Qed.

Lemma maximum_from_infinity (points : list Point2D) :
  points <> [] ->
  exists m,
    fold_left (fun m p => Geometry.Math_max m (Geometry.Finite (coordinate p)))
              points Geometry.MinusInfinity = Geometry.Finite m
    /\ (forall p, In p points -> coordinate p <= m)
    /\ (exists p, In p points /\ coordinate p = m).
Proof.
  destruct points as [|p rest]; [contradiction|]. intros _.
  cbn [fold_left Geometry.Math_max].
  destruct (running_maximum rest (coordinate p)) as (m & Hfold & Hle & Hall & Hatt).
  exists m. split; [exact Hfold|]. split.
  - intros q [<-|Hq]; [assumption|now apply Hall].
  - destruct Hatt as [->|(q & Hq & Hcq)].
    + exists p. split; [now left|reflexivity].
    + exists q. split; [now right|assumption].
Qed.

End RunningBounds.

(** Each bound of the loop of [boundingBox] runs on its own. *)
Lemma bounds_loop_split (points : list Point2D) :
  forall start : Geometry.Bounds,
    fold_left (fun b p =>
                 {| Geometry.lowX := Geometry.Math_min (Geometry.lowX b) (Geometry.Finite (x p));
                    Geometry.lowY := Geometry.Math_min (Geometry.lowY b) (Geometry.Finite (y p));
                    Geometry.highX := Geometry.Math_max (Geometry.highX b) (Geometry.Finite (x p));
                    Geometry.highY := Geometry.Math_max (Geometry.highY b) (Geometry.Finite (y p)) |})
              points start
    = {| Geometry.lowX :=
           fold_left (fun m p => Geometry.Math_min m (Geometry.Finite (x p)))
                     points (Geometry.lowX start);
         Geometry.lowY :=
           fold_left (fun m p => Geometry.Math_min m (Geometry.Finite (y p)))
                     points (Geometry.lowY start);
         Geometry.highX :=
           fold_left (fun m p => Geometry.Math_max m (Geometry.Finite (x p)))
                     points (Geometry.highX start);
         Geometry.highY :=
           fold_left (fun m p => Geometry.Math_max m (Geometry.Finite (y p)))
                     points (Geometry.highY start) |}.
Proof.
  induction points as [|p rest IH]; intros start; cbn [fold_left].
  - now destruct start.
  - rewrite IH. reflexivity.
Qed.

(** X7: the bounding box of no points is the zero box; the bounding box
    of at least one point is finite, contains every point, touches a
    point on each of its four sides, and its width and height are the
    differences of its bounds. *)
Theorem boundingBox_is_tight :
  Geometry.boundingBox []
  = {| Geometry.minX := Geometry.Finite 0; Geometry.minY := Geometry.Finite 0;
       Geometry.maxX := Geometry.Finite 0; Geometry.maxY := Geometry.Finite 0;
       Geometry.width := Geometry.Finite 0; Geometry.height := Geometry.Finite 0 |}
  /\ forall points : list Point2D,
       points <> [] ->
       exists lx ly hx hy : R,
         Geometry.boundingBox points
         = {| Geometry.minX := Geometry.Finite lx; Geometry.minY := Geometry.Finite ly;
              Geometry.maxX := Geometry.Finite hx; Geometry.maxY := Geometry.Finite hy;
              Geometry.width := Geometry.Finite (hx - lx);
              Geometry.height := Geometry.Finite (hy - ly) |}
         /\ (forall p, In p points -> lx <= x p <= hx /\ ly <= y p <= hy)
         /\ (exists p, In p points /\ x p = lx)
         /\ (exists p, In p points /\ y p = ly)
         /\ (exists p, In p points /\ x p = hx)
         /\ (exists p, In p points /\ y p = hy).
Proof.
  split; [reflexivity|].
  intros points Hne. unfold Geometry.boundingBox.
  destruct points as [|p0 rest] eqn:E; [contradiction|]. rewrite <- E in *.
  replace (length points =? 0)%nat with false by (rewrite E; reflexivity).
  cbv zeta. rewrite bounds_loop_split.
  cbn [Geometry.lowX Geometry.lowY Geometry.highX Geometry.highY].
  destruct (minimum_from_infinity x points Hne) as (lx & -> & Hlx & Hax).
  destruct (minimum_from_infinity y points Hne) as (ly & -> & Hly & Hay).
  destruct (maximum_from_infinity x points Hne) as (hx & -> & Hhx & Hbx).
  destruct (maximum_from_infinity y points Hne) as (hy & -> & Hhy & Hby).
  exists lx, ly, hx, hy. cbn [Geometry.minus].
  split; [reflexivity|]. split; [|now repeat split].
  intros p Hp. specialize (Hlx p Hp). specialize (Hly p Hp).
  specialize (Hhx p Hp). specialize (Hhy p Hp). lra.
Qed.

(** ** Rounding *)

Lemma Math_pow_10_pos (decimals : Z) : 0 < Math_pow 10 decimals.
Proof. apply powerRZ_lt. lra. Qed.

Lemma Math_round_bounds (v : R) : v - / 2 < IZR (Math_round v) <= v + / 2.
Proof.
  unfold Math_round. pose proof (Int_part_bounds (v + / 2)). lra.
Qed.

Lemma Math_round_IZR (k : Z) : Math_round (IZR k) = k.
Proof.
  unfold Math_round. symmetry. apply Int_part_spec. lra.
Qed.

(** X8: in exact arithmetic [round] moves a number by at most half a
    unit of the last kept decimal place, and rounding an already rounded
    number changes nothing. *)
Theorem round_is_close_and_idempotent :
  forall (value : R) (decimals : Z),
    Rabs (round value decimals - value) <= / 2 * / Math_pow 10 decimals
    /\ round (round value decimals) decimals = round value decimals.
Proof.
  intros value decimals. unfold round. cbv zeta.
  pose proof (Math_pow_10_pos decimals) as Hf.
  set (f := Math_pow 10 decimals) in *.
  pose proof (Math_round_bounds (value * f)) as Hk.
  set (k := Math_round (value * f)) in *.
  split.
  - replace (IZR k / f - value) with ((IZR k - value * f) * / f) by (field; lra).
    rewrite Rabs_mult, (Rabs_pos_eq (/ f)) by (left; now apply Rinv_0_lt_compat).
    apply Rmult_le_compat_r; [left; now apply Rinv_0_lt_compat|].
    unfold Rabs. destruct (Rcase_abs _); lra.
  - replace (IZR k / f * f) with (IZR k) by (field; lra).
    now rewrite Math_round_IZR.
Qed.

(** ** Units and kerf *)

(** X9: converting a value to another unit and back returns the value,
    and converting through an intermediate unit gives the same result as
    converting directly. *)
Theorem convertUnits_round_trip :
  forall (value : R) (a b c : Geometry.Unit),
    Geometry.convertUnits (Geometry.convertUnits value a b) b a = value
    /\ Geometry.convertUnits (Geometry.convertUnits value a b) b c
       = Geometry.convertUnits value a c.
Proof.
  intros value a b c.
  unfold Geometry.convertUnits, Geometry.inchesToPixels, Geometry.pixelsToInches,
    Geometry.mmToPixels, Geometry.pixelsToMm, Geometry.DPI.
  split; destruct a, b; try destruct c; cbn [Geometry.Unit_eqb]; lra.
Qed.

(** X10: kerf compensation moves an outer cut outward and an inner cut
    inward by half the kerf, 36 pixels per inch of kerf; in exact
    arithmetic, compensating a radius as an outer cut and then as an
    inner cut restores it.  (In doubles it is restored up to rounding:
    [doubles_applyKerf_round_trip_off].) *)
Theorem applyKerf_offsets :
  forall radius kerfInches : R,
    Geometry.applyKerf radius kerfInches true = radius + 36 * kerfInches
    /\ Geometry.applyKerf radius kerfInches false = radius - 36 * kerfInches
    /\ Geometry.applyKerf (Geometry.applyKerf radius kerfInches true) kerfInches false
       = radius.
Proof.
  intros radius kerfInches.
  unfold Geometry.applyKerf, Geometry.inchesToPixels, Geometry.DPI. cbv zeta.
  repeat split; lra.
Qed.

(** ** Spacing engine: lengths, last element and gaps *)

Import MoreProps.

Lemma gaps_map_range (f : Z -> R) :
  forall lo hi,
    gaps (map f (range lo hi)) = map (fun i => f i - f (i + 1)%Z) (range lo (hi - 1)).
Proof.
  intros lo hi. pattern lo, hi. apply range_ind; clear lo hi.
  - intros lo hi Hge. rewrite !range_nil by lia. reflexivity.
  - intros lo hi Hlt IH. rewrite (range_cons lo hi) by assumption.
    destruct (Z_lt_ge_dec (lo + 1) hi) as [Hlt'|Hge].
    + rewrite (range_cons lo (hi - 1)) by lia.
      rewrite (range_cons (lo + 1) hi) in * by assumption.
      cbn [map] in *.
      change (gaps (f lo :: f (lo + 1)%Z :: ?l))
        with ((f lo - f (lo + 1)%Z) :: gaps (f (lo + 1)%Z :: l)).
      now rewrite IH.
    + rewrite (range_nil (lo + 1) hi), (range_nil lo (hi - 1)) by lia. reflexivity.
Qed.

Lemma uniform_loop_evenly_spaced (outer inner : R) (count : Z) :
  (2 <= count)%Z ->
  evenly_spaced (uniform_loop outer (outer - inner) count) outer inner count.
Proof.
  intros Hc. unfold evenly_spaced.
  assert (Hn : 0 < IZR (count - 1)) by (apply IZR_lt; lia).
  split; [|split; [|split]].
  - unfold uniform_loop. rewrite length_map, range_length. f_equal. lia.
  - apply uniform_loop_head. lia.
  - unfold uniform_loop. rewrite last_map_range by lia. cbv zeta. field. lra.
  - unfold uniform_loop. rewrite gaps_map_range. apply Forall_map_all.
    intros i. cbv zeta. rewrite plus_IZR. field. lra.
Qed.

Lemma strictly_increasing_map_range (f : Z -> R) :
  forall lo hi,
    (forall i, (lo <= i)%Z -> (i + 1 < hi)%Z -> f i < f (i + 1)%Z) ->
    strictly_increasing (map f (range lo hi)).
Proof.
  intros lo hi. revert f.
  apply (range_ind (fun lo hi => forall f,
    (forall i, (lo <= i)%Z -> (i + 1 < hi)%Z -> f i < f (i + 1)%Z) ->
    strictly_increasing (map f (range lo hi)))); clear lo hi.
  - intros lo hi H f _. now rewrite range_nil.
  - intros lo hi Hlt IH f Hf.
    rewrite range_cons by assumption.
    specialize (IH f).
    destruct (Z_lt_ge_dec (lo + 1) hi) as [Hlt'|Hge].
    + rewrite (range_cons (lo + 1)) in * by assumption.
      cbn [map strictly_increasing] in *. split.
      * apply Hf; lia.
      * apply IH. intros i Hi Hi'. apply Hf; lia.
    + rewrite (range_nil (lo + 1)) by lia. exact I.
Qed.

Lemma graduated_loop_quadratically_spaced (outer inner : R) (count : Z) :
  (2 <= count)%Z ->
  quadratically_spaced (graduated_loop outer (outer - inner) count) outer inner count.
Proof.
  intros Hc. unfold quadratically_spaced.
  assert (Hn : 0 < IZR (count - 1)) by (apply IZR_lt; lia).
  assert (Hgaps : gaps (graduated_loop outer (outer - inner) count)
                  = map (fun i => (outer - inner)
                                  * (IZR (2 * i + 1) / (IZR (count - 1) * IZR (count - 1))))
                        (range 0 (count - 1))).
  { unfold graduated_loop. rewrite gaps_map_range. apply map_ext.
    intros i. cbv zeta. rewrite !plus_IZR, mult_IZR. field. lra. }
  split; [|split; [|split; [|split]]].
  - unfold graduated_loop. rewrite length_map, range_length. f_equal. lia.
  - apply graduated_loop_head. lia.
  - unfold graduated_loop. rewrite last_map_range by lia. cbv zeta. field. lra.
  - exact Hgaps.
  - intros Hlt. rewrite Hgaps. apply strictly_increasing_map_range.
    intros i _ _. rewrite !plus_IZR, !mult_IZR, plus_IZR.
    assert (Hd : 0 < / (IZR (count - 1) * IZR (count - 1))).
    { apply Rinv_0_lt_compat. nra. }
    unfold Rdiv. set (d := / (IZR (count - 1) * IZR (count - 1))) in *.
    assert (Hrd : 0 < (outer - inner) * d) by (apply Rmult_lt_0_compat; lra).
    nra.
Qed.

(** X11: in uniform mode with [count >= 2] each of the three engines
    returns exactly [count] extents, from the outer extent down to the
    effective inner one, and every gap between neighbours is
    [(outer - inner) / (count - 1)]; the values are those of exact
    arithmetic, which the doubles of the code meet up to rounding. *)
Theorem uniform_mode_is_evenly_spaced :
  forall (outer : R) (count : Z) (inner gap shr : option R),
    (2 <= count)%Z ->
    let inner' := or_default inner (outer * 0.1) in
    evenly_spaced
      (Rings.calculateRadii outer count Rings.uniform (Rings.Build_Options inner gap shr))
      outer inner' count
    /\ evenly_spaced
         (Squares.calculateSquareSizes outer count Squares.uniform
            (Squares.Build_Options inner gap shr))
         outer inner' count
    /\ evenly_spaced
         (Polygons.calculatePolygonRadii outer count Polygons.uniform
            (Polygons.Build_Options inner gap shr))
         outer inner' count.
Proof.
  intros outer count inner gap shr Hc inner'.
  unfold Rings.calculateRadii, Squares.calculateSquareSizes,
    Polygons.calculatePolygonRadii.
  past_early_returns Hc. cbv zeta.
  repeat split; now apply uniform_loop_evenly_spaced.
Qed.

Lemma uniform_mode_is_evenly_spaced_witness :
  (2 <= 10)%Z
  /\ evenly_spaced
       (Rings.calculateRadii 360 10 Rings.uniform (Rings.Build_Options (Some 36) None None))
       360 36 10.
Proof.
  assert (H10 : (2 <= 10)%Z) by lia.
  split; [exact H10|].
  pose proof (uniform_mode_is_evenly_spaced 360 10 (Some 36) None None H10) as H.
  cbv zeta in H. rewrite or_default_nonzero in H by lra. exact (proj1 H).
Defined.

(** X12: in graduated mode with [count >= 2] each of the three engines
    returns exactly [count] extents from the outer extent to the effective
    inner one; the gap at step [i] is [(2 i + 1) (outer - inner) /
    (count - 1)^2], so when the inner extent is below the outer one the
    gaps strictly grow from the outside towards the center; the values
    are those of exact arithmetic, which the doubles of the code meet up
    to rounding. *)
Theorem graduated_mode_gaps_grow_inward :
  forall (outer : R) (count : Z) (inner gap shr : option R),
    (2 <= count)%Z ->
    let inner' := or_default inner (outer * 0.1) in
    quadratically_spaced
      (Rings.calculateRadii outer count Rings.graduated (Rings.Build_Options inner gap shr))
      outer inner' count
    /\ quadratically_spaced
         (Squares.calculateSquareSizes outer count Squares.graduated
            (Squares.Build_Options inner gap shr))
         outer inner' count
    /\ quadratically_spaced
         (Polygons.calculatePolygonRadii outer count Polygons.graduated
            (Polygons.Build_Options inner gap shr))
         outer inner' count.
Proof.
  intros outer count inner gap shr Hc inner'.
  unfold Rings.calculateRadii, Squares.calculateSquareSizes,
    Polygons.calculatePolygonRadii.
  past_early_returns Hc. cbv zeta.
  repeat split; now apply graduated_loop_quadratically_spaced.
Qed.

Lemma graduated_mode_gaps_grow_inward_witness :
  (2 <= 4)%Z
  /\ strictly_increasing
       (gaps (Rings.calculateRadii 360 4 Rings.graduated
                (Rings.Build_Options (Some 36) None None))).
Proof.
  assert (H4 : (2 <= 4)%Z) by lia.
  split; [exact H4|].
  destruct (graduated_mode_gaps_grow_inward 360 4 (Some 36) None None H4)
    as [(_ & _ & _ & _ & Hgrow) _].
  apply Hgrow. rewrite or_default_nonzero by lra. lra.
Defined.

Lemma geometric_cons (first ratio : R) (len : nat) :
  geometric first ratio (S len) = first :: geometric (first * ratio) ratio len.
Proof.
  unfold geometric. cbn [seq map]. f_equal; [cbn [pow]; ring|].
  rewrite <- seq_shift, map_map. apply map_ext. intros k. cbn [pow]. ring.
Qed.

Lemma shrinkage_loop_gaps (iters : nat) (multiplier : R) :
  forall current gap,
    gaps (current :: shrinkage_loop iters current gap multiplier)
    = geometric gap multiplier (length (shrinkage_loop iters current gap multiplier)).
Proof.
  induction iters as [|k IH]; intros current gap; cbn [shrinkage_loop]; cbv zeta.
  - reflexivity.
  - destruct (Rle_dec (current - gap) 0); [reflexivity|].
    change (gaps (current :: ?b :: ?l)) with ((current - b) :: gaps (b :: l)).
    cbn [length]. rewrite geometric_cons, IH. f_equal. ring.
Qed.

(** X13: in exact arithmetic, whatever shrinkage spacing returns, its
    gaps form a geometric sequence: the first gap is [outerGap] and every
    later gap is the one before it times [1 - shrinkage].  (In doubles
    the differences of the returned extents are these gaps up to
    rounding: [doubles_shrinkage_gap_inexact].) *)
Theorem shrinkage_gaps_are_geometric :
  forall (outer : R) (count : Z) (outerGap shrinkage : R),
    (let r := Rings.calculateShrinkageRadii outer count outerGap shrinkage in
     gaps r = geometric outerGap (1 - shrinkage) (length r - 1))
    /\ (let r := Squares.calculateShrinkageSizes outer count outerGap shrinkage in
        gaps r = geometric outerGap (1 - shrinkage) (length r - 1))
    /\ (let r := Polygons.calculateShrinkageRadii outer count outerGap shrinkage in
        gaps r = geometric outerGap (1 - shrinkage) (length r - 1)).
Proof.
  intros outer count outerGap shrinkage.
  unfold Rings.calculateShrinkageRadii, Squares.calculateShrinkageSizes,
    Polygons.calculateShrinkageRadii. cbv zeta.
  destruct (count <=? 0)%Z; [repeat split|].
  destruct (count =? 1)%Z; [repeat split|].
  cbn [length]. rewrite Nat.sub_succ, Nat.sub_0_r.
  repeat split; apply shrinkage_loop_gaps.
Qed.

Lemma shrinkage_loop_length (iters : nat) :
  forall current gap multiplier,
    (length (shrinkage_loop iters current gap multiplier) <= iters)%nat.
Proof.
  intros. rewrite shrinkage_loop_truncates.
  etransitivity; [apply positive_prefix_length|].
  now rewrite unbounded_shrinkage_length.
Qed.

Lemma goldenRatio_loop_length (steps : list Z) (ringCount : Z) (unitSize : R) :
  forall current,
    length (Rings.goldenRatio_loop steps ringCount unitSize current) = length steps.
Proof.
  induction steps as [|i rest IH]; intros current; cbn [Rings.goldenRatio_loop length].
  - reflexivity.
  - cbv zeta. now rewrite IH.
Qed.

Lemma loop_lengths (outer rng : R) (count : Z) :
  length (uniform_loop outer rng count) = Z.to_nat count
  /\ length (graduated_loop outer rng count) = Z.to_nat count.
Proof.
  unfold uniform_loop, graduated_loop. rewrite !length_map, range_length.
  split; f_equal; lia.
Qed.

(** X14: for every requested count, also zero, negative or one, no
    spacing engine returns more than [count] extents; outside shrinkage
    mode it returns exactly [count] of them (none for a count of zero or
    less). *)
Theorem spacing_length :
  forall (outer : R) (count : Z) (inner gap shr : option R),
    (forall mode,
        let r := Rings.calculateRadii outer count mode (Rings.Build_Options inner gap shr) in
        (length r <= Z.to_nat count)%nat
        /\ (mode <> Rings.shrinkage -> length r = Z.to_nat count))
    /\ (forall mode,
           let r := Squares.calculateSquareSizes outer count mode
                      (Squares.Build_Options inner gap shr) in
           (length r <= Z.to_nat count)%nat
           /\ (mode <> Squares.shrinkage -> length r = Z.to_nat count))
    /\ (forall mode,
           let r := Polygons.calculatePolygonRadii outer count mode
                      (Polygons.Build_Options inner gap shr) in
           (length r <= Z.to_nat count)%nat
           /\ (mode <> Polygons.shrinkage -> length r = Z.to_nat count)).
Proof.
  intros outer count inner gap shr.
  assert (Hshrink : forall o g m,
             (0 < count)%Z -> count <> 1%Z ->
             (length (o :: shrinkage_loop (Z.to_nat (count - 1)) o g m)
              <= Z.to_nat count)%nat).
  { intros o g m H0 H1. cbn [length].
    pose proof (shrinkage_loop_length (Z.to_nat (count - 1)) o g m). lia. }
  unfold Rings.calculateRadii, Squares.calculateSquareSizes,
    Polygons.calculatePolygonRadii, Rings.calculateShrinkageRadii,
    Squares.calculateShrinkageSizes, Polygons.calculateShrinkageRadii.
  destruct (count <=? 0)%Z eqn:E0.
  { apply Z.leb_le in E0. replace (Z.to_nat count) with 0%nat by lia.
    repeat split; cbn [length]; lia. }
  apply Z.leb_gt in E0.
  destruct (count =? 1)%Z eqn:E1.
  { apply Z.eqb_eq in E1. subst count. repeat split; cbn [length]; lia. }
  apply Z.eqb_neq in E1. cbv zeta.
  repeat split; intros; destruct mode; try contradiction;
    rewrite ?(proj1 (loop_lengths _ _ _)), ?(proj2 (loop_lengths _ _ _));
    first [ now apply Hshrink
          | lia
          | cbn [length]; rewrite goldenRatio_loop_length, range_length; lia ].
Qed.

(** ** The deprecated percentage spacing *)

Lemma fold_left_running_sum {A : Type} (g : A -> R) (l : list A) :
  forall a, fold_left (fun acc i => acc + g i) l a = a + Props.sum (map g l).
Proof.
  induction l as [|i rest IH]; intros a; cbn [fold_left map Props.sum fold_right].
  - lra.
  - rewrite IH. unfold Props.sum. lra.
Qed.

Lemma sum_positive (l : list R) :
  l <> [] -> Forall (fun v => 0 < v) l -> 0 < Props.sum l.
Proof.
  intros Hne Hall. induction Hall as [|v rest Hv Hrest IH]; [contradiction|].
  cbn [Props.sum fold_right]. destruct rest as [|w rest'].
  - cbn [fold_right]. lra.
  - assert (0 < Props.sum (w :: rest')) by (apply IH; discriminate).
    unfold Props.sum in *. lra.
Qed.

Section PercentageSpacing.

Variables (ringCount : Z) (startPercent endPercent : R).

Hypothesis at_least_two : (2 <= ringCount)%Z.
Hypothesis start_positive : 0 < startPercent.
Hypothesis end_positive : 0 < endPercent.

Let weight (i : Z) : R :=
  lerp startPercent endPercent (RingsLegacy.percentage_t ringCount i).

Lemma percentage_t_in_unit_interval (i : Z) :
  (0 <= i < ringCount - 1)%Z -> 0 <= RingsLegacy.percentage_t ringCount i <= 1.
Proof.
  intros Hi. unfold RingsLegacy.percentage_t.
  destruct (ringCount >? 2)%Z eqn:E; [|lra].
  apply Z.gtb_lt in E.
  assert (Hn : 0 < IZR (ringCount - 2)) by (apply IZR_lt; lia).
  assert (Hi0 : 0 <= IZR i) by (apply IZR_le; lia).
  assert (Hi1 : IZR i <= IZR (ringCount - 2)) by (apply IZR_le; lia).
  split.
  - apply Rmult_le_pos; [assumption|]. left. now apply Rinv_0_lt_compat.
  - apply Rmult_le_reg_r with (IZR (ringCount - 2)); [assumption|].
    unfold Rdiv. rewrite Rmult_assoc, Rinv_l by lra. lra.
Qed.

Lemma weight_positive (i : Z) : (0 <= i < ringCount - 1)%Z -> 0 < weight i.
Proof.
  intros Hi. pose proof (percentage_t_in_unit_interval i Hi) as Ht.
  unfold weight, lerp. set (t := RingsLegacy.percentage_t ringCount i) in *.
  replace (startPercent + (endPercent - startPercent) * t)
    with (startPercent * (1 - t) + endPercent * t) by ring.
  destruct (Req_dec t 1) as [->|Hne]; [lra|].
  assert (0 < startPercent * (1 - t)) by (apply Rmult_lt_0_compat; lra).
  assert (0 <= endPercent * t) by (apply Rmult_le_pos; lra).
  lra.
Qed.

Lemma weights_sum_positive :
  0 < Props.sum (map weight (range 0 (ringCount - 1))).
Proof.
  apply sum_positive.
  - rewrite range_cons by lia. discriminate.
  - apply Forall_forall. intros v Hv. apply in_map_iff in Hv.
    destruct Hv as [i [<- Hi]]. apply range_In in Hi. now apply weight_positive.
Qed.

Variable unit : R.

Lemma percentage_loop_length (steps : list Z) :
  forall current,
    length (RingsLegacy.percentage_loop steps ringCount unit startPercent endPercent current)
    = length steps.
Proof.
  induction steps as [|i rest IH]; intros current;
    cbn [RingsLegacy.percentage_loop length]; [reflexivity|].
  cbv zeta. now rewrite IH.
Qed.

Lemma percentage_loop_last (steps : list Z) :
  forall current,
    last (current
            :: RingsLegacy.percentage_loop steps ringCount unit startPercent endPercent
                 current) current
    = current - unit * Props.sum (map weight steps).
Proof.
  induction steps as [|i rest IH]; intros current;
    cbn [RingsLegacy.percentage_loop map Props.sum fold_right].
  - cbn [last]. lra.
  - cbv zeta. set (current' := current - _).
    change (last (current :: current' :: ?l) current) with (last (current' :: l) current).
    rewrite (last_default_irrelevant (current' :: _) current current') by discriminate.
    rewrite IH. subst current'. unfold weight, Props.sum. fold weight. lra.
Qed.

Lemma percentage_loop_decreasing (steps : list Z) :
  0 < unit ->
  Forall (fun i => (0 <= i < ringCount - 1)%Z) steps ->
  forall current,
    strictly_decreasing
      (current
         :: RingsLegacy.percentage_loop steps ringCount unit startPercent endPercent current).
Proof.
  intros Hu Hsteps. induction Hsteps as [|i rest Hi _ IH]; intros current.
  - exact I.
  - cbn [RingsLegacy.percentage_loop]. cbv zeta. split; [|apply IH].
    pose proof (weight_positive i Hi) as Hw. unfold weight in Hw.
    assert (0 < unit * lerp startPercent endPercent (RingsLegacy.percentage_t ringCount i))
      by (now apply Rmult_lt_0_compat).
    lra.
Qed.

End PercentageSpacing.

(** X15: with at least two rings and positive start and end percentages,
    [calculatePercentageRadii] returns exactly [ringCount] radii, the
    first equal to the outer radius; in exact arithmetic the last is the
    inner radius, and the radii are strictly decreasing when the inner
    radius is below the outer one.  (In doubles the last radius is the
    inner one up to rounding.) *)
Theorem percentage_radii_span_outer_to_inner :
  forall (innerRadius outerRadius : R) (ringCount : Z) (startPercent endPercent : R),
    (2 <= ringCount)%Z -> 0 < startPercent -> 0 < endPercent ->
    let r :=
      RingsLegacy.calculatePercentageRadii innerRadius outerRadius ringCount
        startPercent endPercent in
    length r = Z.to_nat ringCount
    /\ hd_error r = Some outerRadius
    /\ last r outerRadius = innerRadius
    /\ (innerRadius < outerRadius -> strictly_decreasing r).
Proof.
  intros innerRadius outerRadius ringCount startPercent endPercent Hc Hs He.
  unfold RingsLegacy.calculatePercentageRadii. past_early_returns Hc. cbv zeta.
  rewrite (fold_left_running_sum
             (fun i => lerp startPercent endPercent (RingsLegacy.percentage_t ringCount i))).
  rewrite Rplus_0_l.
  pose proof (weights_sum_positive ringCount startPercent endPercent Hc Hs He) as Hsum.
  cbv zeta in Hsum.
  set (total := Props.sum _) in *.
  split; [|split; [reflexivity|split]].
  - cbn [length]. rewrite percentage_loop_length, range_length. lia.
  - rewrite percentage_loop_last. fold total. field. lra.
  - intros Hlt. apply percentage_loop_decreasing; try assumption.
    + apply Rdiv_lt_0_compat; lra.
    + apply Forall_forall. intros i Hi. now apply range_In in Hi.
Qed.

Lemma percentage_radii_span_outer_to_inner_witness :
  (2 <= 5)%Z /\ 0 < 100 /\ 0 < 10
  /\ last (RingsLegacy.calculatePercentageRadii 36 360 5 100 10) 360 = 36
  /\ strictly_decreasing (RingsLegacy.calculatePercentageRadii 36 360 5 100 10).
Proof.
  assert (H5 : (2 <= 5)%Z) by lia.
  assert (H100 : 0 < 100) by lra.
  assert (H10 : 0 < 10) by lra.
  destruct (percentage_radii_span_outer_to_inner 36 360 5 100 10 H5 H100 H10)
    as (_ & _ & Hlast & Hdec).
  split; [exact H5|]. split; [exact H100|]. split; [exact H10|].
  split; [exact Hlast|]. apply Hdec. lra.
Defined.

(** ** Patterns: elements, extents and the outer boundary *)

Lemma map_mapi_from {A B C : Type} (f : A -> Z -> B) (g : B -> C) (h : A -> Z -> C)
    (xs : list A) :
  (forall v k, g (f v k) = h v k) ->
  forall k, map g (mapi_from f k xs) = mapi_from h k xs.
Proof.
  intros Hgf. induction xs as [|v rest IH]; intros k; cbn [mapi_from map].
  - reflexivity.
  - now rewrite Hgf, IH.
Qed.

Lemma mapi_from_values {A : Type} (xs : list A) :
  forall k, mapi_from (fun v _ => v) k xs = xs.
Proof.
  induction xs as [|v rest IH]; intros k; cbn [mapi_from]; [reflexivity|now rewrite IH].
Qed.

Lemma mapi_from_indices {A : Type} (xs : list A) :
  forall k, mapi_from (fun _ i => i) k xs = range k (k + Z.of_nat (length xs)).
Proof.
  induction xs as [|v rest IH]; intros k; cbn [mapi_from length].
  - rewrite range_nil by lia. reflexivity.
  - rewrite range_cons by lia. rewrite IH. do 2 f_equal. lia.
Qed.

(** X16: in a generated ring or square pattern the elements line up with
    the extents: the radii (sizes) of the elements, in order, are the
    pattern's [radii] ([sizes]) list, and the elements are numbered 0, 1,
    2, ... without gap. *)
Theorem pattern_elements_follow_extents :
  (forall config : Rings.PartialRingPatternConfig,
      let pattern := Rings.generateRingPattern config in
      map Rings.radius (Rings.rings pattern) = Rings.radii pattern
      /\ map Rings.index (Rings.rings pattern)
         = range 0 (Z.of_nat (length (Rings.radii pattern))))
  /\ (forall config : Squares.PartialSquarePatternConfig,
         let pattern := Squares.generateSquarePattern config in
         map Squares.size (Squares.squares pattern) = Squares.sizes pattern
         /\ map Squares.index (Squares.squares pattern)
            = range 0 (Z.of_nat (length (Squares.sizes pattern)))).
Proof.
  split; intros config pattern; subst pattern.
  - unfold Rings.generateRingPattern. cbv zeta.
    cbn [Rings.rings Rings.radii]. unfold mapi. split.
    + rewrite (map_mapi_from _ Rings.radius (fun v _ => v)) by reflexivity.
      apply mapi_from_values.
    + rewrite (map_mapi_from _ Rings.index (fun _ i => i)) by reflexivity.
      now rewrite mapi_from_indices, Z.add_0_l.
  - unfold Squares.generateSquarePattern. cbv zeta.
    cbn [Squares.squares Squares.sizes]. unfold mapi. split.
    + rewrite (map_mapi_from _ Squares.size (fun v _ => v)) by reflexivity.
      apply mapi_from_values.
    + rewrite (map_mapi_from _ Squares.index (fun _ i => i)) by reflexivity.
      now rewrite mapi_from_indices, Z.add_0_l.
Qed.

Lemma calculateRadii_head (outer : R) (count : Z) (mode : Rings.SpacingMode)
    (o : Rings.Options) :
  (1 <= count)%Z ->
  exists rest, Rings.calculateRadii outer count mode o = outer :: rest.
Proof.
  intros Hc. destruct (Z.eq_dec count 1) as [->|Hne].
  - exists []. reflexivity.
  - destruct o as [inner gap shr].
    destruct (rings_first_and_decreasing outer count mode inner gap shr ltac:(lia))
      as [Hhd _].
    destruct (Rings.calculateRadii outer count mode _) as [|v rest]; [discriminate|].
    injection Hhd as ->. now exists rest.
Qed.

Lemma calculateSquareSizes_head (outer : R) (count : Z) (mode : Squares.SquareSpacingMode)
    (o : Squares.Options) :
  (1 <= count)%Z ->
  exists rest, Squares.calculateSquareSizes outer count mode o = outer :: rest.
Proof.
  intros Hc. destruct (Z.eq_dec count 1) as [->|Hne].
  - exists []. reflexivity.
  - destruct o as [inner gap shr].
    destruct (squares_first_and_decreasing outer count mode inner gap shr ltac:(lia))
      as [Hhd _].
    destruct (Squares.calculateSquareSizes outer count mode _) as [|v rest]; [discriminate|].
    injection Hhd as ->. now exists rest.
Qed.

(** X17: when at least one element is generated and the outer boundary
    is shown, the outermost element repeats the boundary: ring 0 has the
    outer radius and its path is the boundary path, and so has square 0
    when the squares carry no notches. *)
Theorem outermost_element_repeats_boundary :
  (forall config : Rings.PartialRingPatternConfig,
      (1 <= Rings.ringCount (Rings.merge config))%Z ->
      Rings.showOuterBoundary (Rings.merge config) = true ->
      let pattern := Rings.generateRingPattern config in
      exists ring,
        nth_error (Rings.rings pattern) 0 = Some ring
        /\ Rings.radius ring = Rings.outerRadius (Rings.merge config)
        /\ Rings.outerBoundary pattern = Some (Rings.pathData ring))
  /\ (forall config : Squares.PartialSquarePatternConfig,
         (1 <= Squares.squareCount (Squares.merge config))%Z ->
         Squares.showOuterBoundary (Squares.merge config) = true ->
         (Squares.notchesPerSide (Squares.merge config) <= 0)%Z ->
         let pattern := Squares.generateSquarePattern config in
         exists square,
           nth_error (Squares.squares pattern) 0 = Some square
           /\ Squares.size square = Squares.outerSize (Squares.merge config)
           /\ Squares.outerBoundary pattern = Some (Squares.pathData square)).
Proof.
  split.
  - intros config Hc Hshow pattern. subst pattern.
    unfold Rings.generateRingPattern. cbv zeta.
    cbn [Rings.rings Rings.outerBoundary]. rewrite Hshow.
    destruct (calculateRadii_head (Rings.outerRadius (Rings.merge config))
                (Rings.ringCount (Rings.merge config))
                (Rings.spacingMode (Rings.merge config))
                {| Rings.opt_innerRadius := Some (Rings.innerRadius (Rings.merge config));
                   Rings.opt_outerGap := Some (Rings.outerGap (Rings.merge config));
                   Rings.opt_shrinkage := Some (Rings.shrinkage_ (Rings.merge config)) |}
                Hc) as [rest ->].
    unfold mapi. cbn [mapi_from nth_error Z.eqb orb].
    eexists. split; [reflexivity|]. split; reflexivity.
  - intros config Hc Hshow Hnotch pattern. subst pattern.
    unfold Squares.generateSquarePattern. cbv zeta.
    cbn [Squares.squares Squares.outerBoundary]. rewrite Hshow.
    destruct (calculateSquareSizes_head (Squares.outerSize (Squares.merge config))
                (Squares.squareCount (Squares.merge config))
                (Squares.spacingMode (Squares.merge config))
                {| Squares.opt_innerSize := Some (Squares.innerSize (Squares.merge config));
                   Squares.opt_outerGap := Some (Squares.outerGap (Squares.merge config));
                   Squares.opt_shrinkage := Some (Squares.shrinkage_ (Squares.merge config)) |}
                Hc) as [rest ->].
    unfold mapi. cbn [mapi_from nth_error].
    replace (Squares.notchesPerSide (Squares.merge config) >? 0)%Z with false
      by (symmetry; rewrite Z.gtb_ltb; apply Z.ltb_ge; lia).
    eexists. split; [reflexivity|]. cbn [Squares.size Squares.pathData].
    split; [reflexivity|].
    destruct (Squares.alternating (Squares.merge config)); reflexivity.
Qed.

Lemma outermost_element_repeats_boundary_witness :
  let config :=
    {| Rings.given_outerRadius := None; Rings.given_innerRadius := None;
       Rings.given_ringCount := None; Rings.given_spacingMode := None;
       Rings.given_outerGap := None; Rings.given_shrinkage := None;
       Rings.given_cutCount := None; Rings.given_gridDivisions := None;
       Rings.given_staggerOffset := None; Rings.given_cutWidth := None;
       Rings.given_showOuterBoundary := None; Rings.given_center := None |} in
  exists ring,
    nth_error (Rings.rings (Rings.generateRingPattern config)) 0 = Some ring
    /\ Rings.radius ring = 360
    /\ Rings.outerBoundary (Rings.generateRingPattern config)
       = Some (Rings.pathData ring).
Proof.
  intros config.
  destruct outermost_element_repeats_boundary as [Hrings _].
  apply (Hrings config); [subst config; cbn; lia|reflexivity].
Defined.

(** ** Ring arcs *)

Lemma generateArc_flags (center : Point2D) (radius startAngle arcAngle : R) :
  (arcAngle <= PI ->
   Forall (arc_flags 0 1)
          (Rings.generateArc center radius startAngle (startAngle + arcAngle)))
  /\ (PI < arcAngle ->
      Forall (arc_flags 1 1)
             (Rings.generateArc center radius startAngle (startAngle + arcAngle))).
Proof.
  unfold Rings.generateArc. cbv zeta.
  unfold build, arcTo, moveTo, newPathBuilder. cbn [app].
  split; intros H; destruct (Rgt_dec (startAngle + arcAngle - startAngle) PI);
    try lra; repeat constructor.
Qed.

Lemma circleToPath_flags (center : Point2D) (radius : R) :
  Forall (arc_flags 1 1) (circleToPath center radius).
Proof. rewrite circleToPath_is_closed_circle. repeat constructor. Qed.

Lemma arc_flags_sweep (large sweep : Z) (p : path) :
  Forall (arc_flags large sweep) p -> Forall (sweep_flag sweep) p.
Proof.
  apply Forall_impl. intros c. destruct c; cbn [arc_flags sweep_flag]; tauto.
Qed.

(** X18: on a ring of positive radius with a cut width that is not
    negative, every arc command of [generateRingWithCuts] has sweep flag
    1, whether the ring is cut or drawn as the full circle.  When the ring
    is cut (the arc angle is positive), in exact arithmetic no arc is a
    large arc with three cuts or more, nor with two cuts of positive
    width; with a single cut the one arc is a large arc when the cut is
    narrower than half the circumference and is not when it is wider.
    (The flag compares the sweep with [PI]: a sweep within rounding
    distance of [PI], as with two cuts of width 0, can fall on either
    side in doubles.) *)
Theorem ring_arc_flags :
  forall (center : Point2D) (radius : R) (cutCount : Z) (cutWidth rotation : R),
    0 < radius -> 0 <= cutWidth ->
    let ringPath := Rings.generateRingWithCuts center radius cutCount cutWidth rotation in
    Forall (sweep_flag 1) ringPath
    /\ (0 < arcAngleOf radius cutCount cutWidth ->
        ((3 <= cutCount)%Z -> Forall (arc_flags 0 1) ringPath)
        /\ (cutCount = 2%Z -> 0 < cutWidth -> Forall (arc_flags 0 1) ringPath)
        /\ (cutCount = 1%Z -> cutWidth < PI * radius -> Forall (arc_flags 1 1) ringPath)
        /\ (cutCount = 1%Z -> PI * radius < cutWidth -> Forall (arc_flags 0 1) ringPath)).
Proof.
  intros center radius cutCount cutWidth rotation Hr Hw ringPath. subst ringPath.
  assert (Hcut : 0 <= cutWidth / radius).
  { apply Rmult_le_pos; [assumption|]. left. now apply Rinv_0_lt_compat. }
  assert (Hscale : cutWidth = cutWidth / radius * radius) by (field; lra).
  pose proof PI_RGT_0 as Hpi.
  split.
  - unfold Rings.generateRingWithCuts. cbv zeta.
    destruct (cutCount <=? 0)%Z;
      [apply (arc_flags_sweep 1), circleToPath_flags|].
    destruct (Rle_dec _ 0);
      [apply (arc_flags_sweep 1), circleToPath_flags|].
    apply Forall_concat, Forall_map_all. intros i.
    destruct (Rle_dec (2 * PI / IZR cutCount - cutWidth / radius) PI).
    + apply (arc_flags_sweep 0). now apply generateArc_flags.
    + apply (arc_flags_sweep 1). apply generateArc_flags. lra.
  - intros Harc.
    assert (Harcs : forall large,
               (0 < cutCount)%Z ->
               (forall i,
                   Forall (arc_flags large 1)
                     (Rings.generateArc center radius
                        (rotation + IZR i * (2 * PI / IZR cutCount) + cutWidth / radius / 2)
                        (rotation + IZR i * (2 * PI / IZR cutCount) + cutWidth / radius / 2
                         + (2 * PI / IZR cutCount - cutWidth / radius)))) ->
               Forall (arc_flags large 1)
                 (Rings.generateRingWithCuts center radius cutCount cutWidth rotation)).
    { intros large Hc Hall. unfold Rings.generateRingWithCuts, arcAngleOf in *.
      cbv zeta in *.
      destruct (cutCount <=? 0)%Z eqn:E; [apply Z.leb_le in E; lia|].
      destruct (Rle_dec _ 0) as [Hle|_]; [lra|].
      apply Forall_concat, Forall_map_all. exact Hall. }
    unfold arcAngleOf in Harc. cbv zeta in Harc.
    split; [|split; [|split]].
    + intros Hc. apply Harcs; [lia|]. intros i. apply generateArc_flags.
      assert (H3 : 3 <= IZR cutCount) by (apply IZR_le; lia).
      assert (Hinv : / IZR cutCount <= / 3) by (apply Rinv_le_contravar; lra).
      unfold Rdiv in *. nra.
    + intros -> Hpos. apply Harcs; [lia|]. intros i. apply generateArc_flags.
      assert (0 < cutWidth / radius).
      { apply Rmult_lt_0_compat; [assumption|]. now apply Rinv_0_lt_compat. }
      lra.
    + intros -> Hnarrow. apply Harcs; [lia|]. intros i. apply generateArc_flags.
      assert (cutWidth / radius < PI) by nra. lra.
    + intros -> Hwide. apply Harcs; [lia|]. intros i. apply generateArc_flags.
      assert (PI < cutWidth / radius) by nra. lra.
Qed.

Lemma ring_arc_flags_witness :
  0 < 100 /\ 0 <= 8 /\ 0 < arcAngleOf 100 8 8
  /\ Forall (sweep_flag 1) (Rings.generateRingWithCuts {| x := 0; y := 0 |} 100 8 8 0)
  /\ Forall (arc_flags 0 1)
            (Rings.generateRingWithCuts {| x := 0; y := 0 |} 100 8 8 0).
Proof.
  assert (Hr : 0 < 100) by lra.
  assert (Hw : 0 <= 8) by lra.
  assert (Ha : 0 < arcAngleOf 100 8 8).
  { unfold arcAngleOf. pose proof PI2_1. lra. }
  split; [exact Hr|]. split; [exact Hw|]. split; [exact Ha|].
  destruct (ring_arc_flags {| x := 0; y := 0 |} 100 8 8 0 Hr Hw) as [Hsweep Hlarge].
  split; [exact Hsweep|].
  apply (proj1 (Hlarge Ha)). lia.
Defined.

(** ** Squares *)

Lemma sqrt_of_square (a b : R) : a = b * b -> sqrt a = Rabs b.
Proof. intros ->. apply sqrt_square_abs. Qed.

Lemma sqrt_of_double_square (a b : R) : a = 2 * (b * b) -> sqrt a = sqrt 2 * Rabs b.
Proof.
  intros ->. rewrite sqrt_mult_alt by lra. now rewrite sqrt_square_abs.
Qed.

Lemma Rabs_double (b : R) : Rabs (2 * b) = 2 * Rabs b.
Proof. rewrite Rabs_mult. now rewrite (Rabs_pos_eq 2) by lra. Qed.

(** X19: whatever the rotation, [getSquareCorners] returns four corners;
    in exact arithmetic each is at distance [sqrt 2 * |size|] from the
    center, and each side of the square, from one corner to the next, has
    length [2 * |size|]. *)
Theorem square_corners_form_a_square :
  forall (center : Point2D) (size rotationDeg : R),
    let corners := Squares.getSquareCorners center size rotationDeg in
    length corners = 4%nat
    /\ (forall k, (k < 4)%nat ->
          distance center (Squares.corner corners k) = sqrt 2 * Rabs size)
    /\ (forall k, (k < 4)%nat ->
          distance (Squares.corner corners k)
                   (Squares.corner corners (Nat.modulo (k + 1) 4))
          = 2 * Rabs size).
Proof.
  intros center size rotationDeg corners. subst corners.
  unfold Squares.getSquareCorners. cbv zeta.
  pose proof (sin2_cos2 (degToRad rotationDeg)) as Hsc. unfold Rsqr in Hsc.
  set (c := cos (degToRad rotationDeg)) in *.
  set (s := sin (degToRad rotationDeg)) in *.
  cbn [map x y]. split; [reflexivity|]. split.
  - intros k Hk. unfold distance, Squares.corner. cbv zeta.
    destruct k as [|[|[|[|k]]]]; try lia; cbn [nth x y];
      apply sqrt_of_double_square; nra.
  - intros k Hk. unfold distance, Squares.corner. cbv zeta.
    rewrite <- Rabs_double.
    destruct k as [|[|[|[|k]]]]; try lia;
      cbn [Nat.modulo Nat.divmod Nat.add fst snd Nat.sub nth x y];
      apply sqrt_of_square; nra.
Qed.

Lemma rem2_is_even (n : Z) : (Z.rem n 2 =? 0)%Z = Z.even n.
Proof.
  destruct (Z.even n) eqn:E.
  - apply Z.eqb_eq. now apply rem2_even.
  - apply Z.eqb_neq. apply rem2_odd. rewrite <- Z.negb_even, E. reflexivity.
Qed.

Lemma generateSquare_closed (center : Point2D) (size rotationDeg : R) (clockwise : bool) :
  closed_outline (Squares.generateSquare center size rotationDeg clockwise) 4.
Proof.
  unfold closed_outline, Squares.generateSquare. cbv zeta.
  destruct clockwise; repeat split.
Qed.

(** X20: without notches every square of a generated pattern is a closed
    outline of four corners: five commands, a single move, the close
    command last.  With [alternating] set the squares at even positions
    are drawn clockwise and those at odd positions counter-clockwise;
    without it all are clockwise. *)
Theorem plain_squares_are_closed_and_alternate :
  forall config : Squares.PartialSquarePatternConfig,
    (Squares.notchesPerSide (Squares.merge config) <= 0)%Z ->
    Forall (fun square =>
              closed_outline (Squares.pathData square) 4
              /\ Squares.clockwise square
                 = (if Squares.alternating (Squares.merge config)
                    then Z.even (Squares.index square) else true)
              /\ Squares.pathData square
                 = Squares.generateSquare
                     (Squares.pattern_center (Squares.generateSquarePattern config))
                     (Squares.size square) (Squares.rotation (Squares.merge config))
                     (Squares.clockwise square))
           (Squares.squares (Squares.generateSquarePattern config)).
Proof.
  intros config Hnotch. unfold Squares.generateSquarePattern. cbv zeta.
  cbn [Squares.squares Squares.pattern_center]. unfold mapi.
  apply Forall_mapi_from. intros size k.
  cbn [Squares.pathData Squares.clockwise Squares.index Squares.size].
  replace (Squares.notchesPerSide (Squares.merge config) >? 0)%Z with false
    by (symmetry; rewrite Z.gtb_ltb; apply Z.ltb_ge; lia).
  split; [apply generateSquare_closed|]. split; [|reflexivity].
  destruct (Squares.alternating (Squares.merge config)); [apply rem2_is_even|reflexivity].
Qed.

Lemma plain_squares_are_closed_and_alternate_witness :
  let config :=
    {| Squares.given_outerSize := None; Squares.given_innerSize := None;
       Squares.given_squareCount := None; Squares.given_spacingMode := None;
       Squares.given_outerGap := None; Squares.given_shrinkage := None;
       Squares.given_rotation := None; Squares.given_alternating := None;
       Squares.given_notchesPerSide := None; Squares.given_notchWidth := None;
       Squares.given_showOuterBoundary := None; Squares.given_center := None |} in
  Forall (fun square => closed_outline (Squares.pathData square) 4)
         (Squares.squares (Squares.generateSquarePattern config)).
Proof.
  intros config.
  assert (Hn : (Squares.notchesPerSide (Squares.merge config) <= 0)%Z)
    by (subst config; cbn; lia).
  eapply Forall_impl; [|exact (plain_squares_are_closed_and_alternate config Hn)].
  intros square [H _]. exact H.
Defined.

(** What one notch appends does not depend on what the builder holds. *)
Lemma drawNotch_appends (p q : Point2D) (notchCount : Z) (notchHalf ux uy : R)
    (builder : PathBuilder) (i : Z) :
  exists lx ly mx my,
    Squares.drawNotch p q notchCount notchHalf ux uy builder i
    = builder ++ [CmdL lx ly; CmdM mx my].
Proof.
  unfold Squares.drawNotch. cbv zeta. unfold moveTo, lineTo.
  rewrite <- app_assoc. cbn [app]. now eexists _, _, _, _.
Qed.

Lemma notches_appended (p q : Point2D) (notchCount : Z) (notchHalf ux uy : R)
    (steps : list Z) :
  forall builder,
  exists notches,
    fold_left (Squares.drawNotch p q notchCount notchHalf ux uy) steps builder
    = builder ++ notches
    /\ length notches = (2 * length steps)%nat
    /\ count_moves notches = length steps
    /\ filter is_close notches = [].
Proof.
  induction steps as [|i rest IH]; intros builder; cbn [fold_left].
  - exists []. rewrite app_nil_r. repeat split.
  - destruct (drawNotch_appends p q notchCount notchHalf ux uy builder i)
      as (lx & ly & mx & my & ->).
    destruct (IH (builder ++ [CmdL lx ly; CmdM mx my])) as (notches & -> & Hl & Hm & Hz).
    exists ([CmdL lx ly; CmdM mx my] ++ notches).
    rewrite <- app_assoc. split; [reflexivity|].
    unfold count_moves in *. cbn [app length filter is_move is_close].
    rewrite Hl, Hm, Hz. repeat split. lia.
Qed.

Lemma drawSideWithNotches_appends (builder : PathBuilder) (p q : Point2D)
    (notchCount : Z) (notchHalf segmentLength : R) :
  exists notches,
    Squares.drawSideWithNotches builder p q notchCount notchHalf segmentLength
    = builder ++ notches
    /\ length notches = (2 * Z.to_nat notchCount)%nat
    /\ count_moves notches = Z.to_nat notchCount
    /\ filter is_close notches = [].
Proof.
  unfold Squares.drawSideWithNotches. cbv zeta.
  destruct (notchCount <=? 0)%Z eqn:E.
  - apply Z.leb_le in E. exists []. rewrite app_nil_r.
    replace (Z.to_nat notchCount) with 0%nat by lia. repeat split.
  - apply Z.leb_gt in E.
    destruct (notches_appended p q notchCount notchHalf
                ((x q - x p) / sqrt ((x q - x p) * (x q - x p) + (y q - y p) * (y q - y p)))
                ((y q - y p) / sqrt ((x q - x p) * (x q - x p) + (y q - y p) * (y q - y p)))
                (range 1 (notchCount + 1)) builder)
      as (notches & Hfold & Hl & Hm & Hz).
    exists notches. rewrite range_length in *.
    replace (Z.to_nat (notchCount + 1 - 1)) with (Z.to_nat notchCount) in * by lia.
    now repeat split.
Qed.

Lemma Math_floor_half_is_div (n : Z) : Math_floor (IZR n / 2) = (n / 2)%Z.
Proof.
  unfold Math_floor. symmetry. apply Int_part_spec.
  pose proof (Z.div_mod n 2 ltac:(lia)) as Hdm.
  pose proof (Z.mod_pos_bound n 2 ltac:(lia)) as Hm.
  assert (Hn : IZR n = 2 * IZR (n / 2) + IZR (n mod 2)).
  { rewrite Hdm at 1. now rewrite plus_IZR, mult_IZR. }
  assert (H0 : 0 <= IZR (n mod 2)) by (apply IZR_le; lia).
  assert (H1 : IZR (n mod 2) <= 1) by (apply IZR_le; lia).
  lra.
Qed.

(** X21: with [notchesPerSide = n >= 1] the notched square is an open
    path: it holds no close command, [5 + 2 (3 n + floor(n/2))] commands
    in all, and [1 + 3 n + floor(n/2)] moves, one for the start and one
    past each notch of the three full sides and of the final half
    side. *)
Theorem notched_square_command_count :
  forall (center : Point2D) (size rotationDeg : R) (clockwise : bool)
         (notchesPerSide : Z) (notchWidth : R),
    (1 <= notchesPerSide)%Z ->
    let walk :=
      Squares.generateSquareWithNotches center size rotationDeg clockwise
        notchesPerSide notchWidth in
    let n := Z.to_nat notchesPerSide in
    let half := Z.to_nat (notchesPerSide / 2) in
    length walk = (5 + 2 * (3 * n + half))%nat
    /\ count_moves walk = (1 + 3 * n + half)%nat
    /\ filter is_close walk = [].
Proof.
  intros center size rotationDeg clockwise notchesPerSide notchWidth Hn.
  cbv zeta. unfold Squares.generateSquareWithNotches. cbv zeta.
  rewrite Math_floor_half_is_div.
  destruct clockwise;
    repeat match goal with
           | |- context [Squares.drawSideWithNotches ?b ?p ?q ?k ?h ?s] =>
               let notches := fresh "notches" in
               let Hl := fresh "Hl" in
               let Hm := fresh "Hm" in
               let Hz := fresh "Hz" in
               destruct (drawSideWithNotches_appends b p q k h s)
                 as (notches & -> & Hl & Hm & Hz)
           end;
    unfold build, lineTo, moveTo, newPathBuilder, count_moves in *;
    rewrite ?filter_app, ?length_app; cbn [app filter is_move is_close length];
    rewrite ?filter_app, ?length_app; cbn [app filter is_move is_close length];
    rewrite ?Hl, ?Hl0, ?Hl1, ?Hl2, ?Hm, ?Hm0, ?Hm1, ?Hm2, ?Hz, ?Hz0, ?Hz1, ?Hz2;
    cbn [app length]; repeat split; lia.
Qed.

Lemma notched_square_command_count_witness :
  (1 <= 3)%Z
  /\ length (Squares.generateSquareWithNotches {| x := 0; y := 0 |} 100 0 true 3 8)
     = 25%nat
  /\ count_moves (Squares.generateSquareWithNotches {| x := 0; y := 0 |} 100 0 true 3 8)
     = 11%nat.
Proof.
  assert (H3 : (1 <= 3)%Z) by lia.
  split; [exact H3|].
  destruct (notched_square_command_count {| x := 0; y := 0 |} 100 0 true 3 8 H3)
    as (Hlen & Hmoves & _).
  split; [exact Hlen|exact Hmoves].
Defined.

(** ** Polygons *)

Lemma nth_map_range {A : Type} (f : Z -> A) (d : A) (hi i : Z) :
  (0 <= i < hi)%Z -> nth (Z.to_nat i) (map f (range 0 hi)) d = f i.
Proof.
  intros Hi. unfold range. rewrite map_map.
  rewrite (nth_indep _ d (f (0 + Z.of_nat 0)%Z)) by (rewrite length_map, length_seq; lia).
  rewrite (map_nth (fun k => f (0 + Z.of_nat k)%Z)).
  rewrite seq_nth by lia. f_equal. lia.
Qed.

(** The chord between two points of one circle depends only on the
    difference of their angles. *)
Lemma chord_length (center : Point2D) (radius a b : R) :
  distance (pointOnCircle center radius a) (pointOnCircle center radius b)
  = sqrt (radius * radius * (2 - 2 * cos (b - a))).
Proof.
  unfold distance, pointOnCircle. cbv zeta. cbn [x y]. f_equal.
  rewrite cos_minus.
  pose proof (sin2_cos2 a) as Ha. pose proof (sin2_cos2 b) as Hb.
  unfold Rsqr in Ha, Hb.
  replace ((x center + radius * cos b - (x center + radius * cos a))
           * (x center + radius * cos b - (x center + radius * cos a))
           + (y center + radius * sin b - (y center + radius * sin a))
             * (y center + radius * sin b - (y center + radius * sin a)))
    with (radius * radius
          * ((sin a * sin a + cos a * cos a) + (sin b * sin b + cos b * cos b)
             - 2 * (cos b * cos a + sin b * sin a))) by ring.
  rewrite Ha, Hb. ring.
Qed.

Lemma cos_less_full_turn (s : R) : cos (s - 2 * PI) = cos s.
Proof. rewrite cos_minus, cos_2PI, sin_2PI. ring. Qed.

Lemma polygon_vertex (center : Point2D) (radius : R) (sides : Z) (rotationDeg : R) (i : Z) :
  (0 <= i < sides)%Z ->
  Polygons.vertex (Polygons.getPolygonVertices center radius sides rotationDeg) i
  = pointOnCircle center radius
      (degToRad rotationDeg - PI / 2 + IZR i * ((2 * PI) / IZR sides)).
Proof.
  intros Hi. unfold Polygons.vertex, Polygons.getPolygonVertices. cbv zeta.
  now rewrite nth_map_range.
Qed.

(** X22: [getPolygonVertices] returns [sides] vertices; in exact
    arithmetic all are at distance [|radius|] from the center, and every
    edge of the polygon, the closing one from the last vertex back to the
    first included, has the same length, the chord of the angle
    [2 PI / sides]. *)
Theorem polygon_is_regular :
  forall (center : Point2D) (radius : R) (sides : Z) (rotationDeg : R),
    let vertices := Polygons.getPolygonVertices center radius sides rotationDeg in
    length vertices = Z.to_nat sides
    /\ (forall v, In v vertices -> distance center v = Rabs radius)
    /\ (forall i, (0 <= i < sides)%Z ->
          edgeLengthOf vertices sides i
          = sqrt (radius * radius * (2 - 2 * cos ((2 * PI) / IZR sides)))).
Proof.
  intros center radius sides rotationDeg vertices. subst vertices.
  split; [|split].
  - unfold Polygons.getPolygonVertices. cbv zeta.
    rewrite length_map, range_length. f_equal. lia.
  - intros v Hv. unfold Polygons.getPolygonVertices in Hv. cbv zeta in Hv.
    apply in_map_iff in Hv. destruct Hv as [i [<- _]]. apply pointOnCircle_radius.
  - intros i Hi. unfold edgeLengthOf.
    assert (Hn : 0 < IZR sides) by (apply IZR_lt; lia).
    rewrite polygon_vertex by assumption.
    destruct (Z.eq_dec (i + 1) sides) as [Hlast|Hmid].
    + rewrite Hlast, Z.rem_same by lia.
      rewrite polygon_vertex by lia. rewrite chord_length.
      assert (Ei : IZR i = IZR sides - 1) by (rewrite <- Hlast, plus_IZR; lra).
      match goal with
      | |- sqrt (_ * (2 - 2 * cos ?d)) = _ =>
          replace d with (2 * PI / IZR sides - 2 * PI) by (rewrite Ei; field; lra)
      end.
      now rewrite cos_less_full_turn.
    + rewrite Z.rem_small by lia.
      rewrite polygon_vertex by lia. rewrite chord_length.
      match goal with
      | |- sqrt (_ * (2 - 2 * cos ?d)) = _ =>
          replace d with (2 * PI / IZR sides) by (rewrite plus_IZR; field; lra)
      end.
      reflexivity.
Qed.

Lemma lines_appended (others : list Point2D) :
  forall builder : PathBuilder,
    fold_left (fun b v => lineTo v b) others builder
    = builder ++ map (fun v => CmdL (round (x v) 2) (round (y v) 2)) others.
Proof.
  induction others as [|v rest IH]; intros builder; cbn [fold_left map].
  - now rewrite app_nil_r.
  - rewrite IH. unfold lineTo. now rewrite <- app_assoc.
Qed.

Lemma count_moves_lines (others : list Point2D) :
  count_moves (map (fun v => CmdL (round (x v) 2) (round (y v) 2)) others) = 0%nat.
Proof.
  unfold count_moves. induction others as [|v rest IH]; cbn [map filter is_move length];
    [reflexivity|assumption].
Qed.

Lemma generatePolygon_returns (center : Point2D) (radius : R) (sides : Z)
    (rotationDeg : R) :
  (1 <= sides)%Z ->
  exists p,
    Polygons.generatePolygon center radius sides rotationDeg = Some p
    /\ closed_outline p (Z.to_nat sides).
Proof.
  intros Hs. unfold Polygons.generatePolygon, Polygons.getPolygonVertices. cbv zeta.
  rewrite range_cons by lia. cbn [map]. eexists. split; [reflexivity|].
  unfold closed_outline, build, closePath. rewrite lines_appended.
  unfold moveTo, newPathBuilder. cbn [app].
  split; [|split].
  - cbn [length]. rewrite length_app, !length_map, range_length. cbn [length]. lia.
  - unfold count_moves. cbn [filter is_move length]. rewrite filter_app.
    fold (count_moves (map (fun v => CmdL (round (x v) 2) (round (y v) 2))
                           (map (fun i => pointOnCircle center radius
                                            (degToRad rotationDeg - PI / 2
                                             + IZR i * (2 * PI / IZR sides)))
                                (range (0 + 1) sides)))).
    rewrite length_app. fold (count_moves (map (fun v => CmdL (round (x v) 2) (round (y v) 2))
                           (map (fun i => pointOnCircle center radius
                                            (degToRad rotationDeg - PI / 2
                                             + IZR i * (2 * PI / IZR sides)))
                                (range (0 + 1) sides)))).
    rewrite count_moves_lines. reflexivity.
  - rewrite app_comm_cons. apply last_last.
Qed.

(** X23: [generatePolygon] throws when [sides] is zero or negative, for
    it reads the first of no vertices; for [sides >= 1] it returns a
    closed outline of [sides] vertices: one move, [sides - 1] lines and
    the close command. *)
Theorem generatePolygon_outline_or_throw :
  forall (center : Point2D) (radius : R) (sides : Z) (rotationDeg : R),
    ((sides <= 0)%Z -> Polygons.generatePolygon center radius sides rotationDeg = None)
    /\ ((1 <= sides)%Z ->
        exists p,
          Polygons.generatePolygon center radius sides rotationDeg = Some p
          /\ closed_outline p (Z.to_nat sides)).
Proof.
  intros center radius sides rotationDeg. split.
  - intros Hs. unfold Polygons.generatePolygon, Polygons.getPolygonVertices. cbv zeta.
    now rewrite range_nil by lia.
  - apply generatePolygon_returns.
Qed.

Lemma generatePolygon_outline_or_throw_witness :
  (0 <= 0)%Z /\ (1 <= 6)%Z
  /\ Polygons.generatePolygon {| x := 0; y := 0 |} 100 0 0 = None
  /\ exists p,
       Polygons.generatePolygon {| x := 0; y := 0 |} 100 6 0 = Some p
       /\ closed_outline p 6.
Proof.
  assert (H0 : (0 <= 0)%Z) by lia.
  assert (H6 : (1 <= 6)%Z) by lia.
  split; [exact H0|]. split; [exact H6|]. split.
  - exact (proj1 (generatePolygon_outline_or_throw {| x := 0; y := 0 |} 100 0 0) H0).
  - exact (proj2 (generatePolygon_outline_or_throw {| x := 0; y := 0 |} 100 6 0) H6).
Defined.

Lemma Math_floor_proper_fraction (a b : Z) :
  (0 <= a < b)%Z -> Math_floor (IZR a / IZR b) = 0%Z.
Proof.
  intros Hab. unfold Math_floor. symmetry. apply Int_part_spec.
  assert (Hb : 0 < IZR b) by (apply IZR_lt; lia).
  assert (Ha : 0 <= IZR a) by (apply IZR_le; lia).
  assert (Hlt : IZR a < IZR b) by (apply IZR_lt; lia).
  assert (Hq : 0 <= IZR a / IZR b < 1).
  { split.
    - apply Rmult_le_pos; [assumption|]. left. now apply Rinv_0_lt_compat.
    - apply Rmult_lt_reg_r with (IZR b); [assumption|].
      unfold Rdiv. rewrite Rmult_assoc, Rinv_l by lra. lra. }
  lra.
Qed.

Lemma length_concat_singletons {A B : Type} (g : A -> list B) (l : list A) :
  (forall a, In a l -> length (g a) = 1%nat) -> length (concat (map g l)) = length l.
Proof.
  induction l as [|a rest IH]; intros H; cbn [map concat length]; [reflexivity|].
  rewrite length_app, (H a) by now left. rewrite IH; [reflexivity|].
  intros b Hb. apply H. now right.
Qed.

Section NarrowBridges.

Variables (bridgesPerEdge : Z) (bridgeGap edgeLength : R).

Hypothesis at_least_one_bridge : (1 <= bridgesPerEdge)%Z.
Hypothesis positive_length : 0 < edgeLength.
Hypothesis bridge_fits : 2 * bridgeGap < edgeLength / IZR (bridgesPerEdge + 1).

(** When the whole bridge width is below the sub-segment length, every
    sub-segment of the edge has its start parameter below its end
    parameter. *)
Lemma segmentBounds_open (j : Z) :
  (0 <= j <= bridgesPerEdge)%Z ->
  let '(tStart, tEnd) :=
    Polygons.segmentBounds bridgesPerEdge (edgeLength / IZR (bridgesPerEdge + 1))
      bridgeGap edgeLength j in
  tStart < tEnd.
Proof.
  intros Hj. unfold Polygons.segmentBounds. cbv zeta.
  pose proof (segmentLength_positive bridgesPerEdge edgeLength
                at_least_one_bridge positive_length) as Hseg.
  pose proof (segments_fill_edge bridgesPerEdge edgeLength at_least_one_bridge) as Hfull.
  cbv zeta in Hseg, Hfull.
  set (seg := edgeLength / IZR (bridgesPerEdge + 1)) in *.
  assert (Hinv : 0 < / edgeLength) by now apply Rinv_0_lt_compat.
  assert (Hj0 : 0 <= IZR j) by (apply IZR_le; lia).
  assert (Hdiv : forall a b, a < b -> a / edgeLength < b / edgeLength).
  { intros a b Hab. unfold Rdiv. now apply Rmult_lt_compat_r. }
  destruct (j =? 0)%Z eqn:E0; destruct (j =? bridgesPerEdge)%Z eqn:Eb.
  - lra.
  - apply Z.eqb_eq in E0. subst j. cbn [Z.add].
    apply Rle_lt_trans with (0 / edgeLength); [unfold Rdiv; rewrite Rmult_0_l; lra|].
    apply Hdiv. lra.
  - apply Z.eqb_eq in Eb. subst j.
    replace 1 with (edgeLength / edgeLength) by (field; lra).
    apply Hdiv. rewrite <- Hfull, plus_IZR. lra.
  - apply Hdiv. rewrite plus_IZR. lra.
Qed.

End NarrowBridges.

(** X24: a polygon with fewer bridges than sides is drawn as its [sides]
    whole edges, each a move and a line.  With at least one bridge per
    edge and a bridge width below the sub-segment length, an edge of
    positive length is drawn as exactly [bridgesPerEdge + 1]
    sub-segments. *)
Theorem polygon_edges_and_sub_segments :
  (forall (center : Point2D) (radius : R) (sides : Z) (rotationDeg : R)
          (bridgeCount : Z) (bridgeWidth : R),
      (0 <= bridgeCount < sides)%Z ->
      let vertices := Polygons.getPolygonVertices center radius sides rotationDeg in
      Polygons.generatePolygonWithBridges center radius sides rotationDeg
        bridgeCount bridgeWidth
      = join (map (fun i =>
                     lineToPath (Polygons.vertex vertices i)
                                (Polygons.vertex vertices (Z.rem (i + 1) sides)))
                  (range 0 sides)))
  /\ (forall (vertices : list Point2D) (sides bridgesPerEdge : Z) (bridgeGap : R) (i : Z),
         (1 <= bridgesPerEdge)%Z ->
         0 < edgeLengthOf vertices sides i ->
         2 * bridgeGap < edgeLengthOf vertices sides i / IZR (bridgesPerEdge + 1) ->
         length (Polygons.edgePaths vertices sides bridgesPerEdge bridgeGap i)
         = Z.to_nat (bridgesPerEdge + 1)).
Proof.
  split.
  - intros center radius sides rotationDeg bridgeCount bridgeWidth Hb vertices.
    unfold Polygons.generatePolygonWithBridges. cbv zeta. fold vertices.
    rewrite Math_floor_proper_fraction by assumption.
    f_equal. unfold Polygons.edgePaths. cbn [Z.eqb].
    induction (range 0 sides) as [|i rest IH]; cbn [map concat app]; [reflexivity|].
    now rewrite IH.
  - intros vertices sides bridgesPerEdge bridgeGap i Hb Hlen Hfit.
    unfold Polygons.edgePaths. cbv zeta. fold (edgeLengthOf vertices sides i).
    destruct (bridgesPerEdge =? 0)%Z eqn:E; [apply Z.eqb_eq in E; lia|].
    rewrite length_concat_singletons.
    + rewrite range_length. f_equal. lia.
    + intros j Hj. apply range_In in Hj.
      pose proof (segmentBounds_open bridgesPerEdge bridgeGap
                    (edgeLengthOf vertices sides i) Hb Hlen Hfit j ltac:(lia)) as Hopen.
      destruct (Polygons.segmentBounds _ _ _ _ j) as [tStart tEnd].
      destruct (Rlt_dec tStart tEnd); [reflexivity|contradiction].
Qed.

Lemma polygon_edges_and_sub_segments_witness :
  let vertices := [ {| x := 0; y := -1 |}; {| x := 1; y := 0 |};
                    {| x := 0; y := 1 |}; {| x := -1; y := 0 |} ] in
  (0 <= 3 < 4)%Z
  /\ length (Polygons.edgePaths vertices 4 1 0.125 0) = 2%nat.
Proof.
  intros vertices. subst vertices. split; [lia|].
  destruct polygon_edges_and_sub_segments as [_ Hedge].
  set (vertices := [ {| x := 0; y := -1 |}; {| x := 1; y := 0 |};
                     {| x := 0; y := 1 |}; {| x := -1; y := 0 |} ]).
  assert (Hlen : 0 < edgeLengthOf vertices 4 0 <= 2)
    by (apply unit_square_edge_length; now left).
  assert (Hone : 1 <= edgeLengthOf vertices 4 0).
  { subst vertices. unfold edgeLengthOf, distance, Polygons.vertex. cbv zeta. eval_index.
    cbn [nth x y]. rewrite <- sqrt_1 at 1. apply sqrt_le_1_alt. lra. }
  apply (Hedge vertices 4%Z 1%Z 0.125 0%Z); [lia|lra|].
  change (IZR (1 + 1)) with 2. lra.
Defined.

(** ** Spirals *)

Lemma exp_growth_fraction (g t : R) :
  g <> 0 -> 0 <= t <= 1 ->
  0 <= (exp (g * t * 10) - 1) / (exp (g * 10) - 1) <= 1.
Proof.
  intros Hg Ht.
  assert (Hmono : forall a b, a <= b -> exp a <= exp b).
  { intros a b [Hlt | ->]; [left; now apply exp_increasing|right; reflexivity]. }
  destruct (Rlt_dec 0 g) as [Hpos|Hneg].
  - assert (Hden : 0 < exp (g * 10) - 1).
    { pose proof (exp_increasing 0 (g * 10) ltac:(lra)) as H. rewrite exp_0 in H. lra. }
    assert (Hnum0 : 0 <= exp (g * t * 10) - 1).
    { pose proof (Hmono 0 (g * t * 10) ltac:(nra)) as H. rewrite exp_0 in H. lra. }
    assert (Hnum1 : exp (g * t * 10) <= exp (g * 10)) by (apply Hmono; nra).
    split.
    + apply Rmult_le_pos; [assumption|]. left. now apply Rinv_0_lt_compat.
    + apply Rmult_le_reg_r with (exp (g * 10) - 1); [assumption|].
      unfold Rdiv. rewrite Rmult_assoc, Rinv_l by lra. lra.
  - assert (Hg' : g < 0) by lra.
    assert (Hden : exp (g * 10) - 1 < 0).
    { pose proof (exp_increasing (g * 10) 0 ltac:(lra)) as H. rewrite exp_0 in H. lra. }
    assert (Hnum0 : exp (g * t * 10) - 1 <= 0).
    { pose proof (Hmono (g * t * 10) 0 ltac:(nra)) as H. rewrite exp_0 in H. lra. }
    assert (Hnum1 : exp (g * 10) <= exp (g * t * 10)) by (apply Hmono; nra).
    replace ((exp (g * t * 10) - 1) / (exp (g * 10) - 1))
      with ((1 - exp (g * t * 10)) / (1 - exp (g * 10))) by (field; lra).
    split.
    + apply Rmult_le_pos; [lra|]. left. apply Rinv_0_lt_compat. lra.
    + apply Rmult_le_reg_r with (1 - exp (g * 10)); [lra|].
      unfold Rdiv. rewrite Rmult_assoc, Rinv_l by lra. lra.
Qed.

Lemma exp_growth_nonzero (g : R) : g <> 0 -> exp (g * 10) - 1 <> 0.
Proof.
  intros Hg. destruct (Rlt_dec 0 g).
  - pose proof (exp_increasing 0 (g * 10) ltac:(lra)) as H. rewrite exp_0 in H. lra.
  - pose proof (exp_increasing (g * 10) 0 ltac:(lra)) as H. rewrite exp_0 in H. lra.
Qed.

Lemma calculateSpiralRadius_ends (innerRadius outerRadius : R)
    (spiralType : Spirals.SpiralType) (growthFactor : R) :
  (spiralType = Spirals.logarithmic -> growthFactor <> 0) ->
  Spirals.calculateSpiralRadius innerRadius outerRadius 0 spiralType growthFactor
  = innerRadius
  /\ Spirals.calculateSpiralRadius innerRadius outerRadius 1 spiralType growthFactor
     = outerRadius.
Proof.
  intros Hlog. unfold Spirals.calculateSpiralRadius. cbv zeta.
  destruct spiralType.
  - pose proof (exp_growth_nonzero growthFactor (Hlog eq_refl)) as Hden.
    split.
    + replace (growthFactor * 0 * 10) with 0 by ring. rewrite exp_0. field. exact Hden.
    + replace (growthFactor * 1 * 10) with (growthFactor * 10) by ring. field. exact Hden.
  - split; ring.
  - rewrite sqrt_0, sqrt_1. split; ring.
Qed.

Lemma growth_factor_nonzero (growthFactor : R) :
  growth_factor_in_range growthFactor -> growthFactor <> 0.
Proof.
  intros [Hlow _] ->. rewrite Rabs_R0 in Hlow.
  assert (0 < / 1000) by (apply Rinv_0_lt_compat; lra). lra.
Qed.

(** X25: in exact arithmetic the radius along a spiral starts at the
    inner radius ([t = 0]) and ends at the outer radius ([t = 1]) and,
    when the inner radius is not above the outer one, stays between the
    two for every [t] from 0 to 1, for each of the three spiral types.  A
    logarithmic spiral needs a growth factor [g] in range, [|g| >= 0.001]
    and [g <= 70]: at 0 the code divides 0 by 0, and past 70.9
    [Math.exp] overflows and the code divides infinity by infinity. *)
Theorem spiral_radius_stays_in_annulus :
  forall (innerRadius outerRadius : R) (spiralType : Spirals.SpiralType)
         (growthFactor : R),
    (spiralType = Spirals.logarithmic -> growth_factor_in_range growthFactor) ->
    Spirals.calculateSpiralRadius innerRadius outerRadius 0 spiralType growthFactor
    = innerRadius
    /\ Spirals.calculateSpiralRadius innerRadius outerRadius 1 spiralType growthFactor
       = outerRadius
    /\ (innerRadius <= outerRadius ->
        forall t, 0 <= t <= 1 ->
          innerRadius
          <= Spirals.calculateSpiralRadius innerRadius outerRadius t spiralType growthFactor
          <= outerRadius).
Proof.
  intros innerRadius outerRadius spiralType growthFactor Hrange.
  assert (Hlog : spiralType = Spirals.logarithmic -> growthFactor <> 0)
    by (intros E; now apply growth_factor_nonzero, Hrange).
  destruct (calculateSpiralRadius_ends innerRadius outerRadius spiralType growthFactor Hlog)
    as [H0 H1].
  split; [exact H0|]. split; [exact H1|].
  intros Hio t Ht. unfold Spirals.calculateSpiralRadius. cbv zeta.
  assert (Hfrac : forall f, 0 <= f <= 1 ->
            innerRadius <= innerRadius + (outerRadius - innerRadius) * f <= outerRadius).
  { intros f Hf. nra. }
  destruct spiralType; apply Hfrac.
  - apply exp_growth_fraction; [now apply Hlog|assumption].
  - assumption.
  - split; [apply sqrt_pos|]. rewrite <- sqrt_1. apply sqrt_le_1_alt. lra.
Qed.

Lemma spiral_radius_stays_in_annulus_witness :
  10 <= Spirals.calculateSpiralRadius 10 360 0.5 Spirals.logarithmic 0.2 <= 360.
Proof.
  assert (Hlog : Spirals.logarithmic = Spirals.logarithmic -> growth_factor_in_range 0.2).
  { intros _. unfold growth_factor_in_range. rewrite Rabs_right by lra. lra. }
  destruct (spiral_radius_stays_in_annulus 10 360 Spirals.logarithmic 0.2 Hlog)
    as (_ & _ & Hin).
  apply Hin; lra.
Defined.

Lemma Math_ceil_positive (v : R) : 0 < v -> (1 <= Math_ceil v)%Z.
Proof.
  intros Hv. unfold Math_ceil.
  pose proof (Int_part_bounds (- v)) as H.
  assert (IZR (Int_part (- v)) < 0) by lra.
  assert (Int_part (- v) < 0)%Z by (apply lt_IZR; assumption). lia.
Qed.

Lemma last_map_range_points {A : Type} (f : Z -> A) (d : A) :
  forall lo hi, (lo < hi)%Z -> last (map f (range lo hi)) d = f (hi - 1)%Z.
Proof.
  intros lo hi Hlt.
  replace hi with ((hi - 1) + 1)%Z at 1 by lia.
  rewrite range_snoc by lia. rewrite map_app. cbn [map]. apply last_last.
Qed.

(** X26: in exact arithmetic an arm with a positive number of turns
    starts on the inner circle at its start angle and ends on the outer
    circle [turns] full turns further on (a logarithmic arm needs a
    growth factor in range, as above). *)
Theorem spiral_arm_runs_from_inner_to_outer :
  forall (center : Point2D) (innerRadius outerRadius startAngle turns : R)
         (spiralType : Spirals.SpiralType) (growthFactor : R),
    0 < turns ->
    (spiralType = Spirals.logarithmic -> growth_factor_in_range growthFactor) ->
    let points :=
      Spirals.spiralPoints center innerRadius outerRadius startAngle turns
        spiralType growthFactor in
    hd_error points = Some (pointOnCircle center innerRadius startAngle)
    /\ last points center
       = pointOnCircle center outerRadius (startAngle + turns * 2 * PI).
Proof.
  intros center innerRadius outerRadius startAngle turns spiralType growthFactor
    Hturns Hrange points. subst points.
  assert (Hlog : spiralType = Spirals.logarithmic -> growthFactor <> 0)
    by (intros E; now apply growth_factor_nonzero, Hrange). unfold Spirals.spiralPoints. cbv zeta.
  pose proof (Math_ceil_positive (turns * 32) ltac:(lra)) as Hn.
  set (n := Math_ceil (turns * 32)) in *.
  assert (Hn' : 0 < IZR n) by (apply IZR_lt; lia).
  destruct (calculateSpiralRadius_ends innerRadius outerRadius spiralType growthFactor Hlog)
    as [H0 H1].
  split.
  - rewrite range_cons by lia. cbn [map hd_error]. f_equal.
    replace (0 / IZR n) with 0 by (field; lra). rewrite H0. f_equal. ring.
  - rewrite last_map_range_points by lia.
    replace (n + 1 - 1)%Z with n by lia.
    replace (IZR n / IZR n) with 1 by (field; lra). rewrite H1. f_equal. ring.
Qed.

Lemma spiral_arm_runs_from_inner_to_outer_witness :
  0 < 1
  /\ hd_error (Spirals.spiralPoints {| x := 0; y := 0 |} 10 100 0 1 Spirals.archimedean 0.2)
     = Some (pointOnCircle {| x := 0; y := 0 |} 10 0)
  /\ last (Spirals.spiralPoints {| x := 0; y := 0 |} 10 100 0 1 Spirals.archimedean 0.2)
          {| x := 0; y := 0 |}
     = pointOnCircle {| x := 0; y := 0 |} 100 (0 + 1 * 2 * PI).
Proof.
  split; [lra|].
  exact (spiral_arm_runs_from_inner_to_outer {| x := 0; y := 0 |} 10 100 0 1
           Spirals.archimedean 0.2 ltac:(lra) ltac:(discriminate)).
Defined.

Lemma nth_error_map_seq {A : Type} (f : nat -> A) (len i : nat) :
  (i < len)%nat -> nth_error (map f (seq 0 len)) i = Some (f i).
Proof.
  intros Hi. rewrite nth_error_map, nth_error_seq.
  replace (i <? len)%nat with true by (symmetry; apply Nat.ltb_lt; lia).
  reflexivity.
Qed.

Lemma nth_error_tail {A : Type} (a : A) (l : list A) (k : nat) :
  nth_error (a :: l) (S k) = nth_error l k.
Proof. reflexivity. Qed.

(** X27: for three or more sample points the curve starts at the first
    point, its [i]-th cubic segment ends exactly at sample point [i + 1]
    (rounded to three decimals), and at every interior sample point the
    control point before it and the control point after it are mirror
    images of each other about that point, so that consecutive segments
    join without a corner. *)
Theorem bezier_path_interpolates_smoothly :
  forall points : list Point2D,
    (3 <= length points)%nat ->
    let curve := Spirals.pointsToBezierPath points in
    hd_error curve
    = Some (BezM (toFixed (x (Spirals.point points 0)) 3)
                 (toFixed (y (Spirals.point points 0)) 3))
    /\ length curve = length points
    /\ (forall i, (i + 1 < length points)%nat ->
          exists c1x c1y c2x c2y,
            nth_error curve (S i)
            = Some (BezC (toFixed c1x 3) (toFixed c1y 3) (toFixed c2x 3) (toFixed c2y 3)
                         (toFixed (x (Spirals.point points (i + 1))) 3)
                         (toFixed (y (Spirals.point points (i + 1))) 3)))
    /\ (forall i, (i + 2 < length points)%nat ->
          exists c1x c1y c2x c2y ex ey d1x d1y d2x d2y fx fy,
            nth_error curve (S i)
            = Some (BezC (toFixed c1x 3) (toFixed c1y 3) (toFixed c2x 3) (toFixed c2y 3)
                         ex ey)
            /\ nth_error curve (S (S i))
               = Some (BezC (toFixed d1x 3) (toFixed d1y 3) (toFixed d2x 3) (toFixed d2y 3)
                            fx fy)
            /\ c2x + d1x = 2 * x (Spirals.point points (i + 1))
            /\ c2y + d1y = 2 * y (Spirals.point points (i + 1))).
Proof.
  intros points Hlen curve. subst curve. unfold Spirals.pointsToBezierPath.
  replace (length points <? 2)%nat with false by (symmetry; apply Nat.ltb_ge; lia).
  replace (length points =? 2)%nat with false by (symmetry; apply Nat.eqb_neq; lia).
  split; [reflexivity|].
  split; [cbn [length]; rewrite length_map, length_seq; lia|].
  split.
  - intros i Hi. rewrite nth_error_tail.
    rewrite nth_error_map_seq by lia. cbv zeta. cbn [x y].
    do 4 eexists. reflexivity.
  - intros i Hi. rewrite !nth_error_tail.
    rewrite !nth_error_map_seq by lia. cbv zeta. cbn [x y].
    do 12 eexists.
    split; [reflexivity|]. split; [reflexivity|].
    replace (Nat.min (length points - 1) (i + 2)) with (i + 2)%nat by lia.
    replace (Nat.max 0 (S i - 1)) with i by lia.
    replace (S i) with (i + 1)%nat by lia.
    replace (i + 1 + 1)%nat with (i + 2)%nat by lia. split; field.
Qed.

Lemma bezier_path_interpolates_smoothly_witness :
  length (Spirals.pointsToBezierPath
            [ {| x := 0; y := 0 |}; {| x := 1; y := 2 |}; {| x := 3; y := 1 |} ])
  = 3%nat.
Proof.
  apply (bezier_path_interpolates_smoothly
           [ {| x := 0; y := 0 |}; {| x := 1; y := 2 |}; {| x := 3; y := 1 |} ]).
  cbn [length]. lia.
Defined.

(** ** Half-circle rings *)

(** X28: for positive radii and a bridge width that is not negative, the
    half-circle pattern has one arc per radius, in either half, and no
    arc is a large arc: each spans at most a half turn and is drawn with
    sweep flag 1. *)
Theorem half_circle_arcs_span_at_most_half_a_turn :
  forall (center : Point2D) (radii : list R) (bridgeWidth : R) (topHalf : bool),
    0 <= bridgeWidth ->
    Forall (fun radius => 0 < radius) radii ->
    length (Rings.generateHalfCircleRings center radii bridgeWidth topHalf)
    = length radii
    /\ Forall (Forall (arc_flags 0 1))
              (Rings.generateHalfCircleRings center radii bridgeWidth topHalf).
Proof.
  intros center radii bridgeWidth topHalf Hw Hradii.
  unfold Rings.generateHalfCircleRings. split; [apply length_map|].
  induction Hradii as [|radius rest Hr _ IH]; cbn [map]; constructor; [|exact IH].
  cbv zeta.
  assert (Hgap : 0 <= bridgeWidth / radius).
  { apply Rmult_le_pos; [assumption|]. left. now apply Rinv_0_lt_compat. }
  destruct topHalf.
  - replace (PI / 2 - bridgeWidth / radius / 2)
      with (- PI / 2 + bridgeWidth / radius / 2 + (PI - bridgeWidth / radius))
      by (field; lra).
    apply generateArc_flags. lra.
  - replace (3 * PI / 2 - bridgeWidth / radius / 2)
      with (PI / 2 + bridgeWidth / radius / 2 + (PI - bridgeWidth / radius))
      by (field; lra).
    apply generateArc_flags. lra.
Qed.

Lemma half_circle_arcs_span_at_most_half_a_turn_witness :
  length (Rings.generateHalfCircleRings {| x := 0; y := 0 |} [100; 80; 60] 4 true)
  = 3%nat.
Proof.
  apply (half_circle_arcs_span_at_most_half_a_turn {| x := 0; y := 0 |} [100; 80; 60] 4 true).
  - lra.
  - repeat constructor; lra.
Defined.
